(** * ScanVault: the scan orchestration engine

    A shallow embedding of the backend services of ScanVault
    (scanOrchestrator.js, wsl2Bridge.js, odcBridge.js, folderRegistry.js and
    the POST /api/scan route) and the properties its specification states
    about them, followed by the services around them (reportGenerator.js,
    fileHandler.js, the other scan and upload routes, the WebSocket
    registry of index.js) and further properties of the code.

    Conventions of the embedding.
    - A JavaScript [Map] is a [gmap]; an array is a [list]; an object that is
      mutated after it was stored somewhere else lives in an explicit store
      and is referred to by its position.
    - [async] methods are run to completion: an awaited promise is the value
      it resolves to or the error it rejects with.  Delays ([setTimeout] in
      the mock generators) and log lines have no counterpart.
    - Everything outside the JavaScript code (file system, [path] module,
      environment variables, spawned processes, [JSON.parse]) is a field of
      the record [World].
    - Strings are sequences of bytes; [toUpperCase] is modelled on ASCII.
    - A JavaScript number is the exact rational value of the binary64 it is;
      arithmetic on numbers rounds as binary64 arithmetic does (module
      [Double], compared further down with the binary64 operations of the
      kernel).
    - An object literal has the properties it was given and inherits those
      of [Object.prototype] (module [Report]). *)

From Stdlib Require Import Ascii ZArith QArith Qround Qpower Lqa.
From Stdlib Require Floats.
From stdpp Require Import gmap strings list pretty.

Open Scope Z_scope.

(** ** JavaScript string primitives *)

Module JS.

(** [s.includes(t)]: [t] occurs in [s] as a contiguous substring. *)
Fixpoint includes (s t : string) : bool :=
  String.prefix t s ||
  match s with
  | EmptyString => false
  | String _ s' => includes s' t
  end.

(** [s.includes(c)] for a one-character needle. *)
Fixpoint includes_char (s : string) (c : ascii) : bool :=
  match s with
  | EmptyString => false
  | String a s' => Ascii.eqb a c || includes_char s' c
  end.

Definition upper_char (c : ascii) : ascii :=
  let n := nat_of_ascii c in
  if ((97 <=? n) && (n <=? 122))%nat then ascii_of_nat (n - 32) else c.

(** [s.toUpperCase()] on ASCII text. *)
Fixpoint toUpperCase (s : string) : string :=
  match s with
  | EmptyString => EmptyString
  | String c s' => String (upper_char c) (toUpperCase s')
  end.

Definition lower_char (c : ascii) : ascii :=
  let n := nat_of_ascii c in
  if ((65 <=? n) && (n <=? 90))%nat then ascii_of_nat (n + 32) else c.

Fixpoint toLowerCase (s : string) : string :=
  match s with
  | EmptyString => EmptyString
  | String c s' => String (lower_char c) (toLowerCase s')
  end.

(** Truthiness of a string: only the empty string is falsy. *)
Definition truthy (s : string) : bool :=
  match s with EmptyString => false | _ => true end.

(** [a || d] where [a] is a possibly missing string property. *)
Definition or_else (a : option string) (d : string) : string :=
  match a with
  | Some s => if truthy s then s else d
  | None => d
  end.

(** [s.replace(/\//g, '\\')]. *)
Fixpoint slashes_to_backslashes (s : string) : string :=
  match s with
  | EmptyString => EmptyString
  | String c s' =>
      String (if Ascii.eqb c "/" then "\"%char else c) (slashes_to_backslashes s')
  end.

Definition is_lower_az (c : ascii) : bool :=
  let n := nat_of_ascii c in ((97 <=? n) && (n <=? 122))%nat.

(** [s.replace(/^\/mnt\/[a-z]\//, '')]. *)
Definition strip_mnt_prefix (s : string) : string :=
  match s with
  | String "/" (String "m" (String "n" (String "t" (String "/"
      (String d (String "/" rest)))))) =>
      if is_lower_az d then rest else s
  | _ => s
  end.

(** [s.split('.').pop()]: the text after the last dot. *)
Fixpoint last_segment_go (s acc : string) : string :=
  match s with
  | EmptyString => acc
  | String c s' =>
      if Ascii.eqb c "." then last_segment_go s' EmptyString
      else last_segment_go s' (acc +:+ String c EmptyString)
  end.

Definition last_segment (s : string) : string := last_segment_go s EmptyString.

End JS.

(** ** Findings *)

(** One normalized finding.  The fields are the ones the orchestrator and the
    deduplicator read; [id] (a random uuid in the mock generators),
    [description], [fix], [references] and the tool-specific extras are
    copied around by the source but never inspected, and are left out. *)
Record Finding := mkFinding {
  tool : string;
  severity : string;
  type : string;
  file : string;
  line : Z
}.

#[global] Instance Finding_eq_dec : EqDecision Finding.
Proof. solve_decision. Defined.

(** ** Result deduplication (scanOrchestrator.js, deduplicateResults) *)

Module Dedup.

(** [`${result.file}:${result.line}:${result.type}`] for an integral line
    number below 1e21 (above that JavaScript switches to exponent
    notation). *)
Definition key_of (result : Finding) : string :=
  file result +:+ ":" +:+ pretty (line result) +:+ ":" +:+ type result.

(** The objects of the input array are mutated while [filter] runs, and the
    array [filter] returns holds the same objects.  The store keeps one
    object per position of the input array; [seen] maps a key to the
    position of the object registered for it.  (If the caller's array holds
    one object at two positions, the second visit finds the object itself in
    [seen] and changes nothing, as the second visit of an equal copy does
    here.) *)
Record Store := mkStore {
  heap : list Finding;
  seen : gmap string nat
}.

(** [if (!existing.tool.includes(result.tool))
       existing.tool = `${existing.tool}, ${result.tool}`] *)
Definition merge_tool (existing result : Finding) : Finding :=
  if JS.includes (tool existing) (tool result) then existing
  else mkFinding (tool existing +:+ ", " +:+ tool result)
         (severity existing) (type existing) (file existing) (line existing).

(** The callback passed to [results.filter], at the element of index [i]. *)
Definition callback (i : nat) (st : Store) : bool * Store :=
  match heap st !! i with
  | None => (false, st)
  | Some result =>
      let key := key_of result in
      match seen st !! key with
      | Some j =>
          match heap st !! j with
          | Some existing =>
              (false, mkStore (<[j := merge_tool existing result]> (heap st)) (seen st))
          | None => (false, st)
          end
      | None => (true, mkStore (heap st) (<[key := i]> (seen st)))
      end
  end.

(** [Array.prototype.filter]: visit the indices in order, collect the ones
    for which the callback answers true. *)
Fixpoint filter_loop (idx : list nat) (st : Store) : list nat * Store :=
  match idx with
  | [] => ([], st)
  | i :: rest =>
      let '(keep, st1) := callback i st in
      let '(kept, st2) := filter_loop rest st1 in
      (if keep then i :: kept else kept, st2)
  end.

(** The returned array, read after the loop, and the caller's array as the
    loop leaves it. *)
Definition deduplicateResults_store (results : list Finding)
  : list Finding * list Finding :=
  let '(kept, st) :=
    filter_loop (seq 0 (length results)) (mkStore results ∅) in
  (omap (λ i, heap st !! i) kept, heap st).

Definition deduplicateResults (results : list Finding) : list Finding :=
  fst (deduplicateResults_store results).

(** *** A store-free reading of the same loop

    The accumulator is the list of canonical records in the order their keys
    were first seen; a finding either merges into the record with its key or
    is appended. *)
Fixpoint insert_by (acc : list Finding) (r : Finding) : list Finding :=
  match acc with
  | [] => [r]
  | c :: acc' =>
      if String.eqb (key_of c) (key_of r) then merge_tool c r :: acc'
      else c :: insert_by acc' r
  end.

Definition dedupe_fold (l : list Finding) : list Finding :=
  fold_left insert_by l [].

(** *** The deduplicator in the specification's words

    The dedup key is the triple (file, line, category).  The first occurrence
    of a key is the canonical record; a later occurrence is dropped and its
    tool is comma-joined to the canonical record's tool field unless it is
    already present there; the output keeps the order of first-seen keys.
    "Present in the field" is read as the source tests it: the name occurs in
    the field's text. *)
Definition key3 (r : Finding) : string * Z * string := (file r, line r, type r).

Fixpoint insert_spec (acc : list Finding) (r : Finding) : list Finding :=
  match acc with
  | [] => [r]
  | c :: acc' =>
      if decide (key3 c = key3 r) then merge_tool c r :: acc'
      else c :: insert_spec acc' r
  end.

Definition dedupe_spec (l : list Finding) : list Finding :=
  fold_left insert_spec l [].

(** The store after the first [n] elements of [l] were visited, against the
    accumulator [acc] of the store-free loop; [kept] are the positions the
    callback accepted so far. *)
Record Inv (l : list Finding) (n : nat) (st : Store)
    (kept : list nat) (acc : list Finding) : Prop := mkInv {
  inv_len : length (heap st) = length l;
  inv_rest : ∀ i, (n ≤ i)%nat → heap st !! i = l !! i;
  inv_size : length kept = length acc;
  inv_kept : ∀ p j, kept !! p = Some j → heap st !! j = acc !! p;
  inv_seen : ∀ k j, seen st !! k = Some j ↔
               ∃ p c, kept !! p = Some j ∧ acc !! p = Some c ∧ key_of c = k;
  inv_keys : NoDup (map key_of acc);
  inv_lt : ∀ j, j ∈ kept → (j < n)%nat;
  inv_nodup : NoDup kept
}.

(** The string key and the triple identify the same findings of [l]. *)
Definition collision_free (l : list Finding) : Prop :=
  ∀ a b, a ∈ l → b ∈ l → key_of a = key_of b → key3 a = key3 b.

End Dedup.

(** ** Subprocess supervision (wsl2Bridge.js and odcBridge.js, executeCommand) *)

Module Exec.

(** What the promise built by [executeCommand] can be told by the runtime
    while the child process lives: output chunks, the ['error'] event, the
    ['close'] event with its exit code ([None] is JavaScript's [null], a
    child ended by a signal), and the expiry of the timer set with
    [setTimeout(..., this.timeout)]. *)
Inductive ProcEvent :=
| StdoutData (chunk : string)
| StderrData (chunk : string)
| ProcError (message : string)
| Close (code : option Z)
| TimerFired.

(** The errors [executeCommand] rejects with.  The source builds plain
    [Error] objects; the constructors name them as the specification's
    taxonomy does. *)
Inductive ExecError :=
| ExecutionTimeout
| ExecutionFailure (code : option Z) (stderr : string)
| SpawnError (message : string).

Definition show_code (code : option Z) : string :=
  match code with Some c => pretty c | None => "null" end.

(** The [message] of the rejected [Error] (wsl2Bridge.js; the instrumented
    copy of the file appends the configured duration to the first one). *)
Definition error_message (e : ExecError) : string :=
  match e with
  | ExecutionTimeout => "Command timed out"
  | ExecutionFailure code stderr =>
      "Command failed with code " +:+ show_code code +:+ ": " +:+ stderr
  | SpawnError m => m
  end.

Inductive Promise (A : Type) :=
| Pending
| Resolved (value : A)
| Rejected (reason : ExecError).
Arguments Pending {A}.
Arguments Resolved {A} value.
Arguments Rejected {A} reason.

(** The closure of the promise executor: its local variables, whether the
    timer is still set, the state of the promise and the signals sent to the
    child so far. *)
Record ExecState := mkExec {
  output : string;
  errorOutput : string;
  timedOut : bool;
  timerSet : bool;
  promise : Promise string;
  signals : list string
}.

(** [resolve]/[reject] settle a promise once; later calls do nothing. *)
Definition settle (p new : Promise string) : Promise string :=
  match p with Pending => new | _ => p end.

Definition initial : ExecState :=
  mkExec "" "" false true Pending [].

Definition step (st : ExecState) (e : ProcEvent) : ExecState :=
  match e with
  | TimerFired =>
      if timerSet st then
        mkExec (output st) (errorOutput st) true false
               (settle (promise st) (Rejected ExecutionTimeout))
               (signals st ++ ["SIGTERM"])
      else st
  | StdoutData d =>
      mkExec (output st +:+ d) (errorOutput st) (timedOut st) (timerSet st)
             (promise st) (signals st)
  | StderrData d =>
      mkExec (output st) (errorOutput st +:+ d) (timedOut st) (timerSet st)
             (promise st) (signals st)
  | ProcError m =>
      mkExec (output st) (errorOutput st) (timedOut st) false
             (settle (promise st) (Rejected (SpawnError m))) (signals st)
  | Close code =>
      let p :=
        if timedOut st then promise st
        else if bool_decide (code = Some 0) then settle (promise st) (Resolved (output st))
        else if JS.truthy (output st) then settle (promise st) (Resolved (output st))
        else settle (promise st) (Rejected (ExecutionFailure code (errorOutput st))) in
      mkExec (output st) (errorOutput st) (timedOut st) false p (signals st)
  end.

(** The closure after the events of a run.  Whatever the child does, a timer
    that was never cleared expires: the run ends with [TimerFired], which
    does nothing when ['close'] or ['error'] cleared the timer before. *)
Definition run (events : list ProcEvent) : ExecState :=
  step (fold_left step events initial) TimerFired.

(** [await this.executeCommand(command, args)]. *)
Definition executeCommand (events : list ProcEvent) : Promise string :=
  promise (run events).

(** The child is still running when the timer expires: no ['close'] and no
    ['error'] event came before. *)
Definition still_running (events : list ProcEvent) : Prop :=
  Forall (λ e, match e with Close _ | ProcError _ => False | _ => True end) events.

(** A normal exit: output chunks, then ['close'], before the timer expires. *)
Definition only_data (events : list ProcEvent) : Prop :=
  Forall (λ e, match e with StdoutData _ | StderrData _ => True | _ => False end) events.

(** The text the child wrote to stdout. *)
Fixpoint stdout_of (events : list ProcEvent) : string :=
  match events with
  | [] => ""
  | StdoutData d :: rest => d +:+ stdout_of rest
  | _ :: rest => stdout_of rest
  end.

(** The text the child wrote to stderr. *)
Fixpoint stderr_of (events : list ProcEvent) : string :=
  match events with
  | [] => ""
  | StderrData d :: rest => d +:+ stderr_of rest
  | _ :: rest => stderr_of rest
  end.

(** The closure while the child runs and nothing was settled. *)
Definition untouched (st : ExecState) : Prop :=
  promise st = Pending ∧ timerSet st = true ∧ timedOut st = false.

(** The closure once the timer has expired on a running child. *)
Definition expired (st : ExecState) : Prop :=
  promise st = Rejected ExecutionTimeout ∧ "SIGTERM" ∈ signals st.

(** Once the timer is gone, or the flag [timedOut] is up, the promise is
    settled. *)
Definition settled_when_disarmed (st : ExecState) : Prop :=
  (timerSet st = false → promise st ≠ Pending) ∧
  (timedOut st = true → promise st ≠ Pending).

End Exec.

(** ** Severity normalisation and output parsers *)

Module Parse.

(** The five canonical severity levels. *)
Definition canonical_severity (s : string) : bool :=
  bool_decide (s ∈ ["CRITICAL"; "HIGH"; "MEDIUM"; "LOW"; "INFO"]).

(** An object literal used as a lookup table; [None] is [undefined]. *)
Fixpoint table_get (table : list (string * string)) (k : string) : option string :=
  match table with
  | [] => None
  | (k', v) :: rest => if String.eqb k' k then Some v else table_get rest k
  end.

Definition semgrep_severityMap : list (string * string) :=
  [ ("ERROR", "CRITICAL"); ("CRITICAL", "CRITICAL");
    ("WARNING", "HIGH"); ("HIGH", "HIGH");
    ("INFO", "MEDIUM"); ("MEDIUM", "MEDIUM");
    ("INVENTORY", "LOW"); ("LOW", "LOW");
    ("EXPERIMENTAL", "INFO") ].

(** wsl2Bridge.js, mapSemgrepSeverity. *)
Definition mapSemgrepSeverity (sev : string) : string :=
  JS.or_else (table_get semgrep_severityMap (JS.toUpperCase sev)) "INFO".

Definition odc_severityMap : list (string * string) :=
  [ ("CRITICAL", "CRITICAL"); ("HIGH", "HIGH"); ("MEDIUM", "MEDIUM");
    ("LOW", "LOW"); ("INFO", "LOW"); ("INFORMATIONAL", "LOW") ].

(** odcBridge.js, mapODCSeverity; [None] is a missing severity. *)
Definition mapODCSeverity (sev : option string) : string :=
  match sev with
  | None => "LOW"
  | Some s =>
      if JS.truthy s
      then JS.or_else (table_get odc_severityMap (JS.toUpperCase s)) "LOW"
      else "LOW"
  end.

(** The raw records of the tools' JSON reports, with the properties the
    parsers read for the modelled fields.  A property that may be missing
    is an [option]. *)
Record SemgrepResult := mkSemgrepResult {
  sg_path : string;                 (* result.path *)
  sg_check_id : option string;      (* result.check_id *)
  sg_severity : option string;      (* result.severity *)
  sg_category : option string;      (* result.extra?.metadata?.category *)
  sg_start_line : option Z          (* result.start?.line *)
}.

Record SemgrepReport := mkSemgrepReport {
  sg_results : option (list SemgrepResult)   (* data.results *)
}.

Record TrivyVuln := mkTrivyVuln {
  tv_VulnerabilityID : string;
  tv_Severity : option string
}.

Record TrivyTarget := mkTrivyTarget {
  tv_Target : string;
  tv_Vulnerabilities : option (list TrivyVuln)
}.

Record TrivyReport := mkTrivyReport {
  tv_Results : option (list TrivyTarget)
}.

Record ODCVuln := mkODCVuln {
  odc_name : option string;
  odc_severity : option string
}.

Record ODCDependency := mkODCDependency {
  odc_fileName : option string;
  odc_vulnerabilities : option (list ODCVuln)
}.

Record ODCReport := mkODCReport {
  odc_dependencies : option (list ODCDependency)
}.

(** [x || 0] for a possibly missing number. *)
Definition num_or_zero (x : option Z) : Z := default 0 x.

Definition relative_path (p : string) : string :=
  JS.slashes_to_backslashes (JS.strip_mnt_prefix p).

Definition semgrep_type (r : SemgrepResult) : string :=
  match sg_category r with
  | Some c => if JS.truthy c then c
              else JS.or_else (JS.last_segment <$> sg_check_id r) "Security Issue"
  | None => JS.or_else (JS.last_segment <$> sg_check_id r) "Security Issue"
  end.

Definition semgrep_finding (r : SemgrepResult) : Finding :=
  mkFinding "Semgrep"
    (mapSemgrepSeverity (JS.or_else (sg_severity r) "INFO"))
    (semgrep_type r)
    (relative_path (sg_path r))
    (num_or_zero (sg_start_line r)).

(** wsl2Bridge.js, parseSemgrepOutput, after [JSON.parse]; [None] is a
    [JSON.parse] (or any other) exception, caught by the parser. *)
Definition parseSemgrepData (data : option SemgrepReport) : list Finding :=
  match data with
  | None => []
  | Some d =>
      match sg_results d with
      | Some rs => map semgrep_finding rs
      | None => []
      end
  end.

Definition trivy_finding (target : TrivyTarget) (vuln : TrivyVuln) : Finding :=
  mkFinding "Trivy"
    (JS.or_else (JS.toUpperCase <$> tv_Severity vuln) "INFO")
    "Vulnerable Dependency"
    (relative_path (tv_Target target))
    0.

(** wsl2Bridge.js, parseTrivyOutput, after [JSON.parse]. *)
Definition parseTrivyData (data : option TrivyReport) : list Finding :=
  match data with
  | None => []
  | Some d =>
      match tv_Results d with
      | Some targets =>
          concat (map (λ target,
            match tv_Vulnerabilities target with
            | Some vulns => map (trivy_finding target) vulns
            | None => []
            end) targets)
      | None => []
      end
  end.

Definition odc_finding (dependency : ODCDependency) (vuln : ODCVuln) : Finding :=
  mkFinding "OWASP Dependency Check"
    (mapODCSeverity (odc_severity vuln))
    "Vulnerable Dependency"
    (JS.or_else (odc_fileName dependency) "Unknown")
    0.

(** odcBridge.js, parseODCOutput, after the report file was read and
    parsed; [None] is a missing or unparsable report. *)
Definition parseODCData (data : option ODCReport) : list Finding :=
  match data with
  | None => []
  | Some d =>
      match odc_dependencies d with
      | Some deps =>
          concat (map (λ dependency,
            match odc_vulnerabilities dependency with
            | Some vulns => map (odc_finding dependency) vulns
            | None => []
            end) deps)
      | None => []
      end
  end.

End Parse.

(** ** The host *)

(** Everything the services read from outside.  A field is what the
    corresponding call answers during one scan. *)
Record World := mkWorld {
  (** [folderRegistry.mappings] *)
  mappings : gmap string string;
  (** [fs.existsSync(p)] and [fs.statSync(p).isDirectory()] *)
  existsSync : string → bool;
  isDirectory : string → bool;
  (** Node's [path] module on the host platform; [path.resolve] resolves
      against [process.cwd()] *)
  path_isAbsolute : string → bool;
  path_join : string → string → string;
  path_resolve : string → string;
  (** [process.env.TEMP_DIR] and [path.join(__dirname, '../../../temp')] *)
  env_TEMP_DIR : option string;
  default_temp : string;
  (** [process.env.MOCK_WSL2 === 'true'], [process.env.ENABLE_ODC === 'true'] *)
  MOCK_WSL2 : bool;
  ENABLE_ODC : bool;
  (** [process.platform === 'win32'] *)
  platform_win32 : bool;
  (** stdout of the probe [wsl --status]; [None] when the probe fails *)
  wsl_status : option string;
  (** the events of the probe [dependency-check.bat --version] *)
  odc_version : list Exec.ProcEvent;
  (** the events of the process spawned for the tool at position [i] of
      [selectedTools] *)
  tool_proc : nat → list Exec.ProcEvent;
  (** [JSON.parse] of a tool's stdout, read at the shape the parser expects;
      [None] when parsing or reading the shape throws *)
  decode_semgrep : string → option Parse.SemgrepReport;
  decode_trivy : string → option Parse.TrivyReport;
  (** the report file the ODC run at position [i] leaves behind; [None] when
      it is missing or unparsable *)
  odc_report : nat → option Parse.ODCReport;
  (** how many arguments beyond [spread_floor] a call can take on this host
      before the engine throws a [RangeError] (see [spread_limit]) *)
  spread_room : N
}.

(** A call [f(...xs)] passes the elements of [xs] as arguments, and the
    engine throws a [RangeError] when there are more of them than its stack
    takes.  The bound depends on the engine and on the stack it was given;
    the model leaves it to the host, above a floor that every host running
    the backend exceeds by orders of magnitude (Node's default stack takes
    more than a hundred thousand arguments). *)
Definition spread_floor : nat := 1024.

Definition spread_limit (w : World) : nat :=
  (spread_floor + N.to_nat (spread_room w))%nat.

(** ** Direct-scan registry (folderRegistry.js) *)

Module FolderRegistry.

Definition isDirectScan (w : World) (scanId : string) : bool :=
  bool_decide (is_Some (mappings w !! scanId)).

(** [this.mappings.get(scanId) || null]; [None] is [null]. *)
Definition getPath (w : World) (scanId : string) : option string :=
  match mappings w !! scanId with
  | Some p => if JS.truthy p then Some p else None
  | None => None
  end.

End FolderRegistry.

(** ** Target resolution (scanOrchestrator.js, resolveTargetPath) *)

Module Resolver.

Definition is_hex (c : ascii) : bool :=
  let n := nat_of_ascii c in
  ((48 <=? n) && (n <=? 57) || (97 <=? n) && (n <=? 102) || (65 <=? n) && (n <=? 70))%nat.

(** Exactly [n] hexadecimal digits, then the rest. *)
Fixpoint hex_run (n : nat) (s : string) : option string :=
  match n with
  | O => Some s
  | S n' =>
      match s with
      | String c s' => if is_hex c then hex_run n' s' else None
      | EmptyString => None
      end
  end.

Definition dash (s : string) : option string :=
  match s with
  | String "-" s' => Some s'
  | _ => None
  end.

(** Groups of hexadecimal digits of the given sizes, separated by dashes. *)
Fixpoint hex_groups (sizes : list nat) (s : string) : option string :=
  match sizes with
  | [] => Some s
  | [n] => hex_run n s
  | n :: sizes' =>
      match hex_run n s with
      | Some r =>
          match dash r with
          | Some r' => hex_groups sizes' r'
          | None => None
          end
      | None => None
      end
  end.

(** [/^[0-9a-f]{8}-[0-9a-f]{4}-[0-9a-f]{4}-[0-9a-f]{4}-[0-9a-f]{12}$/i.test(s)] *)
Definition uuidRegex_test (s : string) : bool :=
  match hex_groups [8; 4; 4; 4; 12]%nat s with
  | Some EmptyString => true
  | _ => false
  end.

(** [process.env.TEMP_DIR || path.join(__dirname, '../../../temp')] *)
Definition tempDir (w : World) : string :=
  JS.or_else (env_TEMP_DIR w) (default_temp w).

Definition has_separator (targetId : string) : bool :=
  JS.includes_char targetId "/" || JS.includes_char targetId "\".

(** The result is [None] when the method returns [null] (a registered id
    whose registered path is the empty string). *)
Definition resolveTargetPath (w : World) (targetId : string) : option string :=
  if FolderRegistry.isDirectScan w targetId then FolderRegistry.getPath w targetId
  else if path_isAbsolute w targetId then Some targetId
  else if uuidRegex_test targetId then Some (path_join w (tempDir w) targetId)
  else if has_separator targetId then Some (path_resolve w targetId)
  else
    let tempPath := path_join w (tempDir w) targetId in
    let localPath := path_resolve w targetId in
    if existsSync w tempPath then Some tempPath
    else if existsSync w localPath then Some localPath
    else Some tempPath.

(** What the amended priority order allows: one constructor per branch. *)
Inductive resolves (w : World) (targetId : string) : option string → Prop :=
| res_registered p :
    mappings w !! targetId = Some p → p ≠ "" →
    resolves w targetId (Some p)
| res_registered_empty :
    mappings w !! targetId = Some "" →
    resolves w targetId None
| res_absolute :
    mappings w !! targetId = None → path_isAbsolute w targetId = true →
    resolves w targetId (Some targetId)
| res_uuid :
    mappings w !! targetId = None → path_isAbsolute w targetId = false →
    uuidRegex_test targetId = true →
    resolves w targetId (Some (path_join w (tempDir w) targetId))
| res_relative :
    mappings w !! targetId = None → path_isAbsolute w targetId = false →
    uuidRegex_test targetId = false → has_separator targetId = true →
    resolves w targetId (Some (path_resolve w targetId))
| res_staged :
    mappings w !! targetId = None → path_isAbsolute w targetId = false →
    uuidRegex_test targetId = false → has_separator targetId = false →
    existsSync w (path_join w (tempDir w) targetId) = true →
    resolves w targetId (Some (path_join w (tempDir w) targetId))
| res_local :
    mappings w !! targetId = None → path_isAbsolute w targetId = false →
    uuidRegex_test targetId = false → has_separator targetId = false →
    existsSync w (path_join w (tempDir w) targetId) = false →
    existsSync w (path_resolve w targetId) = true →
    resolves w targetId (Some (path_resolve w targetId))
| res_default :
    mappings w !! targetId = None → path_isAbsolute w targetId = false →
    uuidRegex_test targetId = false → has_separator targetId = false →
    existsSync w (path_join w (tempDir w) targetId) = false →
    existsSync w (path_resolve w targetId) = false →
    resolves w targetId (Some (path_join w (tempDir w) targetId)).

(** The priority order as the specification words it: a registered id gives
    the registered path; an absolute id is returned as it is; a UUID-shaped
    id is joined to the staging root; any other id is looked up under the
    staging root first and only then resolved against the working
    directory. *)
Definition spec_priority (w : World) (targetId : string) : Prop :=
  (∀ p, mappings w !! targetId = Some p → p ≠ "" →
        resolveTargetPath w targetId = Some p) ∧
  (mappings w !! targetId = None → path_isAbsolute w targetId = true →
        resolveTargetPath w targetId = Some targetId) ∧
  (mappings w !! targetId = None → path_isAbsolute w targetId = false →
   uuidRegex_test targetId = true →
        resolveTargetPath w targetId = Some (path_join w (tempDir w) targetId)) ∧
  (mappings w !! targetId = None → path_isAbsolute w targetId = false →
   uuidRegex_test targetId = false →
        resolveTargetPath w targetId =
          Some (if existsSync w (path_join w (tempDir w) targetId)
                then path_join w (tempDir w) targetId
                else path_resolve w targetId)).

End Resolver.

(** ** Errors and fallible results *)

(** The [Error] objects that travel through the orchestrator. *)
Inductive ScanError :=
| TargetMissing (targetPath : string)
| TargetNotDirectory (targetPath : string)
| BridgeError (message : string)
| RangeError.

(** [error.message]; the text of the [RangeError] is V8's. *)
Definition error_message (e : ScanError) : string :=
  match e with
  | TargetMissing p => "Target path does not exist: " +:+ p
  | TargetNotDirectory p => "Target path is not a directory: " +:+ p
  | BridgeError m => m
  | RangeError => "Maximum call stack size exceeded"
  end.

(** The specification's [InvalidTarget]: the two errors of the post-condition
    check on the resolved path. *)
Definition InvalidTarget (e : ScanError) : Prop :=
  match e with
  | TargetMissing _ | TargetNotDirectory _ => True
  | BridgeError _ | RangeError => False
  end.

(** A call returns or throws. *)
Inductive Res (A : Type) :=
| Ok (value : A)
| Throw (error : ScanError).
Arguments Ok {A} value.
Arguments Throw {A} error.

(** ** The tool bridges *)

(** What the orchestrator uses of its two bridge objects.  [run] methods get
    the position of the tool in [selectedTools] (it selects the process of
    the host) and the target path. *)
Record Bridges := mkBridges {
  wsl2_isAvailable : bool;
  wsl2_runSemgrep : nat → string → Res (list Finding);
  wsl2_runTrivy : nat → string → Res (list Finding);
  odc_isAvailable : bool;
  odc_runODC : nat → string → Res (list Finding)
}.

Module WSL2Bridge.

Fixpoint remove_nul (s : string) : string :=
  match s with
  | EmptyString => EmptyString
  | String c s' =>
      if Ascii.eqb c zero then remove_nul s' else String c (remove_nul s')
  end.

(** The memo [this.isWSL2Available] is filled by the first call with this
    value and returned by the later ones.  ([trim()] does not change whether
    one of the three markers occurs.) *)
Definition isAvailable (w : World) : bool :=
  if negb (platform_win32 w) then false
  else
    match wsl_status w with
    | Some stdout =>
        let cleanOutput := remove_nul stdout in
        JS.includes cleanOutput "Version: 2" ||
        JS.includes cleanOutput "WSL 2" ||
        JS.includes cleanOutput "Default Version: 2"
    | None => false
    end.

Definition parseSemgrepOutput (w : World) (output : string) : list Finding :=
  Parse.parseSemgrepData (decode_semgrep w output).

Definition parseTrivyOutput (w : World) (output : string) : list Finding :=
  Parse.parseTrivyData (decode_trivy w output).

(** [convertToWSLPath] only shapes the argument vector and never throws; the
    process the host starts for the tool is [tool_proc w i].  An exception
    inside the [try] (a rejected [executeCommand]) gives the empty list. *)
Definition runSemgrep (w : World) (i : nat) (targetPath : string)
  : Res (list Finding) :=
  if negb (isAvailable w) then Throw (BridgeError "WSL2 is not available")
  else
    match Exec.executeCommand (tool_proc w i) with
    | Exec.Resolved result => Ok (parseSemgrepOutput w result)
    | _ => Ok []
    end.

Definition runTrivy (w : World) (i : nat) (targetPath : string)
  : Res (list Finding) :=
  if negb (isAvailable w) then Throw (BridgeError "WSL2 is not available")
  else
    match Exec.executeCommand (tool_proc w i) with
    | Exec.Resolved result => Ok (parseTrivyOutput w result)
    | _ => Ok []
    end.

End WSL2Bridge.

Module ODCBridge.

Definition isAvailable (w : World) : bool :=
  if negb (platform_win32 w) then false
  else
    match Exec.executeCommand (odc_version w) with
    | Exec.Resolved result =>
        JS.includes (JS.toLowerCase result) "dependency-check"
    | _ => false
    end.

(** Creating and removing the temporary output directory is left out; like
    every other exception inside the [try] it could only turn the result
    into the empty list. *)
Definition runODC (w : World) (i : nat) (targetPath : string)
  : Res (list Finding) :=
  if negb (isAvailable w) then Throw (BridgeError "ODC is not available")
  else if negb (existsSync w targetPath) then Ok []
  else
    match Exec.executeCommand (tool_proc w i) with
    | Exec.Resolved _ => Ok (Parse.parseODCData (odc_report w i))
    | _ => Ok []
    end.

End ODCBridge.

(** The bridges [new WSL2Bridge()] and [new ODCBridge()] on a host. *)
Definition host_bridges (w : World) : Bridges :=
  mkBridges (WSL2Bridge.isAvailable w) (WSL2Bridge.runSemgrep w)
            (WSL2Bridge.runTrivy w)
            (ODCBridge.isAvailable w) (ODCBridge.runODC w).

(** ** Numbers

    A finite JavaScript number is a binary64 value, here the rational it
    denotes.  [round] gives the binary64 value nearest to a rational, ties
    to the even significand, which is what the result of a binary64
    division or multiplication is to the exact quotient or product.  The
    numbers of this development are quotients of two array lengths and
    their products with 100, all 0 or between [2^-32] and [2^39]: the model
    has no subnormal numbers, no overflow and no [NaN]. *)

Module Double.

(** The nearest integer, ties to the even one. *)
Definition nearest_even (q : Q) : Z :=
  let f := Qfloor q in
  match (q - inject_Z f ?= 1 # 2)%Q with
  | Lt => f
  | Gt => f + 1
  | Eq => if Z.even f then f else f + 1
  end.

(** For [x > 0], the [e] with [2^e <= x < 2^(e+1)]. *)
Definition exponent (x : Q) : Z :=
  let e := Z.log2 (Qnum x) - Z.log2 (Zpos (Qden x)) in
  if Qle_bool (2 ^ e) x then e else e - 1.

(** The binary64 value nearest to [x], ties to even: 53 significant bits. *)
Definition round (x : Q) : Q :=
  match Qnum x with
  | Z0 => 0%Q
  | Zpos _ =>
      let e := exponent x - 52 in
      (inject_Z (nearest_even (x / 2 ^ e)) * 2 ^ e)%Q
  | Zneg _ =>
      let e := exponent (- x) - 52 in
      (- (inject_Z (nearest_even (- x / 2 ^ e)) * 2 ^ e))%Q
  end.

End Double.

(** ** The scan orchestrator (scanOrchestrator.js) *)

Module Orchestrator.

(** The messages pushed to the session's WebSocket client.  A message is
    recorded when the orchestrator builds it; whether a client is attached
    to receive it is not modelled. *)
Inductive Event :=
| ProgressEvent (currentTool : option string) (progressPercent : Z) (message : string)
| VulnerabilityEvent (vulnerability : Finding) (currentTool : option string)
                     (totalFound : nat)
| CompleteEvent (resultCount : nat).

(** The fields of a [ScanOrchestrator] and the messages sent so far. *)
Record Orch := mkOrch {
  results : list Finding;
  progress : Q;
  currentTool : option string;
  emitted : list Event
}.

Definition new_orchestrator : Orch := mkOrch [] 0%Q None [].

(** A method of the orchestrator: it reads and writes the fields and returns
    or throws. *)
Definition M (A : Type) : Type := Orch → Res A * Orch.

#[global] Instance M_ret : MRet M := λ A a st, (Ok a, st).

#[global] Instance M_bind : MBind M := λ A B f m st,
  match m st with
  | (Ok a, st') => f a st'
  | (Throw e, st') => (Throw e, st')
  end.

Definition throw {A} (e : ScanError) : M A := λ st, (Throw e, st).

(** [try { body } catch (error) { ... }]: the outcome of the body, handed to
    the code that follows. *)
Definition attempt {A} (body : M A) : M (Res A) := λ st,
  let '(r, st') := body st in (Ok r, st').

(** The result of a call into another object. *)
Definition call {A} (r : Res A) : M A := λ st, (r, st).

(** [Math.round(x)] on the value of a number: the nearest integer, halves
    upwards ([x + 1/2] is not rounded to a binary64 value first). *)
Definition Math_round (x : Q) : Z := Qfloor (x + (1 # 2)).

(** [(done / total) * 100] on two array lengths: a binary64 division, then
    a binary64 multiplication.  [total] is positive wherever the source
    evaluates the expression (inside a loop over the array whose length it
    is); for [total = 0], where JavaScript gives [NaN] or [Infinity], the
    model gives 0. *)
Definition percent (done total : nat) : Q :=
  Double.round
    (Double.round (inject_Z (Z.of_nat done) / inject_Z (Z.of_nat total)) * 100).

(** The same expression on the binary64 numbers of the kernel, and the
    rational its value denotes ([None] for an infinity or a [NaN]). *)
Definition float_value (f : PrimFloat.float) : option Q :=
  match FloatOps.Prim2SF f with
  | SpecFloat.S754_zero _ => Some 0%Q
  | SpecFloat.S754_finite s m e =>
      Some ((if s then -1 else 1) * inject_Z (Zpos m) * 2 ^ e)%Q
  | _ => None
  end.

Definition float_of_nat (n : nat) : PrimFloat.float :=
  PrimFloat.of_uint63 (Uint63.of_Z (Z.of_nat n)).

Definition percent_binary64 (done total : nat) : option Q :=
  float_value
    (PrimFloat.mul (PrimFloat.div (float_of_nat done) (float_of_nat total))
                   (float_of_nat 100)).

Definition percent_agrees (done total : nat) : bool :=
  match percent_binary64 done total with
  | Some q => Qeq_bool q (percent done total)
  | None => false
  end.

Definition sendProgress (message : string) (pc : Q) : M unit := λ st,
  (Ok (), mkOrch (results st) pc (currentTool st)
           (emitted st ++ [ProgressEvent (currentTool st) (Math_round pc) message])).

Definition sendVulnerability (vulnerability : Finding) : M unit := λ st,
  (Ok (), mkOrch (results st) (progress st) (currentTool st)
           (emitted st ++ [VulnerabilityEvent vulnerability (currentTool st)
                             (length (results st) + 1)])).

Definition sendCompletion : M unit := λ st,
  (Ok (), mkOrch (results st) (progress st) (currentTool st)
           (emitted st ++ [CompleteEvent (length (results st))])).

Definition get_progress : M Q := λ st, (Ok (progress st), st).

Definition set_currentTool (t : string) : M unit := λ st,
  (Ok (), mkOrch (results st) (progress st) (Some t) (emitted st)).

(** [this.results.push(...currentToolResults)]: the elements are passed as
    arguments, at most [limit] of them; with more the call throws before
    anything is appended. *)
Definition push_results (limit : nat) (rs : list Finding) : M unit := λ st,
  if (length rs <=? limit)%nat
  then (Ok (), mkOrch (results st ++ rs) (progress st) (currentTool st) (emitted st))
  else (Throw RangeError, st).

(** [this.deduplicateResults(this.results)]: the returned array, and the
    objects of [this.results] as the merge leaves them. *)
Definition deduplicate : M (list Finding) := λ st,
  let '(final, mutated) := Dedup.deduplicateResults_store (results st) in
  (Ok final, mkOrch mutated (progress st) (currentTool st) (emitted st)).

(** *** Mock generators *)

Definition getMockedSemgrepResults : list Finding :=
  [ mkFinding "Semgrep" "HIGH" "SQL Injection" "src/database/queries.js" 42;
    mkFinding "Semgrep" "MEDIUM" "Hardcoded Secret" "config/database.js" 15 ].

Definition getMockedTrivyResults : list Finding :=
  [ mkFinding "Trivy" "CRITICAL" "Vulnerable Dependency" "package.json" 25;
    mkFinding "Trivy" "HIGH" "Outdated Package" "package-lock.json" 150 ].

Definition getMockedODCResults : list Finding :=
  [ mkFinding "OWASP Dependency Check" "LOW" "License Risk" "dependencies.json" 0 ].

Definition semgrep_vulnerabilities : list Finding :=
  [ mkFinding "Semgrep" "CRITICAL" "SQL Injection" "vulnerable-test-app/index.js" 26;
    mkFinding "Semgrep" "CRITICAL" "Command Injection" "vulnerable-test-app/index.js" 38;
    mkFinding "Semgrep" "HIGH" "Cross-Site Scripting (XSS)" "vulnerable-test-app/index.js" 70;
    mkFinding "Semgrep" "HIGH" "Path Traversal" "vulnerable-test-app/index.js" 51;
    mkFinding "Semgrep" "HIGH" "Hardcoded Secrets" "vulnerable-test-app/index.js" 11;
    mkFinding "Semgrep" "CRITICAL" "Code Injection (eval)" "vulnerable-test-app/index.js" 119;
    mkFinding "Semgrep" "MEDIUM" "Weak Cryptography" "vulnerable-test-app/index.js" 83;
    mkFinding "Semgrep" "MEDIUM" "Information Disclosure" "vulnerable-test-app/index.js" 104 ].

Definition trivy_vulnerabilities : list Finding :=
  [ mkFinding "Trivy" "HIGH" "CVE-2021-3807" "package.json" 1;
    mkFinding "Trivy" "CRITICAL" "CVE-2020-8203" "package.json" 1;
    mkFinding "Trivy" "HIGH" "CVE-2022-0155" "package.json" 1;
    mkFinding "Trivy" "MEDIUM" "CVE-2021-23337" "package.json" 1;
    mkFinding "Trivy" "HIGH" "CVE-2022-25883" "package.json" 1 ].

Definition odc_vulnerabilities : list Finding :=
  [ mkFinding "OWASP Dependency Check" "MEDIUM" "CVE-2021-44228" "pom.xml" 45;
    mkFinding "OWASP Dependency Check" "LOW" "License Risk" "dependencies.json" 0 ].

(** The loop shared by the three real-time generators: announce the
    vulnerability, then a progress message whose percentage is the share of
    the generator's own list, from position [i] on. *)
Fixpoint discover (describe : Finding → string) (total i : nat)
    (vulnerabilities : list Finding) : M (list Finding) :=
  match vulnerabilities with
  | [] => mret []
  | vuln :: rest =>
      sendVulnerability vuln ;;
      sendProgress (describe vuln) (percent (S i) total) ;;
      found ← discover describe total (S i) rest;
      mret (vuln :: found)
  end.

Definition getMockedSemgrepResultsRealTime : M (list Finding) :=
  discover (λ vuln, "Found " +:+ severity vuln +:+ " vulnerability: " +:+ type vuln)
           (length semgrep_vulnerabilities) 0 semgrep_vulnerabilities.

Definition getMockedTrivyResultsRealTime : M (list Finding) :=
  discover (λ vuln, "Found dependency vulnerability: " +:+ type vuln)
           (length trivy_vulnerabilities) 0 trivy_vulnerabilities.

Definition getMockedODCResultsRealTime : M (list Finding) :=
  discover (λ vuln, "Found ODC vulnerability: " +:+ type vuln)
           (length odc_vulnerabilities) 0 odc_vulnerabilities.

(** *** Running one tool *)

Section WithHost.

Context (w : World) (b : Bridges).

Definition runSemgrep (i : nat) (targetPath : string) : M (list Finding) :=
  let isWSL2Available := wsl2_isAvailable b in
  if MOCK_WSL2 w then mret getMockedSemgrepResults
  else if negb isWSL2Available then mret []
  else call (wsl2_runSemgrep b i targetPath).

Definition runTrivy (i : nat) (targetPath : string) : M (list Finding) :=
  let isWSL2Available := wsl2_isAvailable b in
  if MOCK_WSL2 w then mret getMockedTrivyResults
  else if negb isWSL2Available then mret []
  else call (wsl2_runTrivy b i targetPath).

Definition runODC (i : nat) (targetPath : string) : M (list Finding) :=
  let isODCAvailable := odc_isAvailable b in
  if negb (ENABLE_ODC w) then mret []
  else if negb isODCAvailable then mret getMockedODCResults
  else call (odc_runODC b i targetPath).

Definition runSemgrepWithRealTime (i : nat) (targetPath : string)
  : M (list Finding) :=
  let isWSL2Available := wsl2_isAvailable b in
  if MOCK_WSL2 w then getMockedSemgrepResultsRealTime
  else if negb isWSL2Available then mret []
  else runSemgrep i targetPath.

Definition runTrivyWithRealTime (i : nat) (targetPath : string)
  : M (list Finding) :=
  let isWSL2Available := wsl2_isAvailable b in
  if MOCK_WSL2 w then getMockedTrivyResultsRealTime
  else if negb isWSL2Available then mret []
  else runTrivy i targetPath.

Definition runODCWithRealTime (i : nat) (targetPath : string)
  : M (list Finding) :=
  let isODCAvailable := odc_isAvailable b in
  if negb (ENABLE_ODC w) then mret []
  else if negb isODCAvailable then getMockedODCResultsRealTime
  else runODC i targetPath.

(** The [switch (tool)] of [startScan]; an unknown name leaves
    [currentToolResults] at its initial [[]]. *)
Definition run_tool (tool : string) (i : nat) (targetPath : string)
  : M (list Finding) :=
  if String.eqb tool "Semgrep" then runSemgrepWithRealTime i targetPath
  else if String.eqb tool "Trivy" then runTrivyWithRealTime i targetPath
  else if String.eqb tool "OWASP Dependency Check" then runODCWithRealTime i targetPath
  else mret [].

(** *** startScan *)

(** One entry of the local array [toolResults] (without its timing). *)
Inductive ToolNote :=
| NoteResult (tool : string) (resultCount : nat)
| NoteError (tool : string) (error : string).

(** The [for (const tool of selectedTools)] loop, from the tool at position
    [i] on. *)
Fixpoint tool_loop (targetPath : string) (totalTools : nat)
    (tools : list string) (i completedTools : nat) (toolResults : list ToolNote)
  : M (list ToolNote) :=
  match tools with
  | [] => mret toolResults
  | tool :: rest =>
      set_currentTool tool ;;
      sendProgress ("Starting " +:+ tool +:+ " scan...")
                   (percent completedTools totalTools) ;;
      outcome ← attempt (currentToolResults ← run_tool tool i targetPath;
                         push_results (spread_limit w) currentToolResults ;;
                         mret currentToolResults);
      match outcome with
      | Ok currentToolResults =>
          sendProgress ("Completed " +:+ tool +:+ " scan")
                       (percent (S completedTools) totalTools) ;;
          tool_loop targetPath totalTools rest (S i) (S completedTools)
            (toolResults ++ [NoteResult tool (length currentToolResults)])
      | Throw error =>
          current ← get_progress;
          sendProgress ("Error in " +:+ tool +:+ ": " +:+ error_message error)
                       current ;;
          tool_loop targetPath totalTools rest (S i) completedTools
            (toolResults ++ [NoteError tool (error_message error)])
      end
  end.

(** [`${targetPath}`] *)
Definition show_path (targetPath : option string) : string :=
  default "null" targetPath.

(** The body of the outer [try].  The validated path is a string:
    [fs.existsSync(null)] is false. *)
Definition scan_body (targetId : string) (selectedTools : list string)
  : M (list Finding * list ToolNote) :=
  sendProgress "Initializing scan..." 0 ;;
  let targetPath := Resolver.resolveTargetPath w targetId in
  sendProgress ("Resolved target path: " +:+ show_path targetPath) 5 ;;
  match targetPath with
  | None => throw (TargetMissing (show_path targetPath))
  | Some targetPath =>
      if negb (existsSync w targetPath) then throw (TargetMissing targetPath)
      else if negb (isDirectory w targetPath) then throw (TargetNotDirectory targetPath)
      else
        toolResults ← tool_loop targetPath (length selectedTools) selectedTools 0 0 [];
        sendProgress "Scan completed successfully!" 100 ;;
        finalResults ← deduplicate;
        sendCompletion ;;
        mret (finalResults, toolResults)
  end.

(** [startScan].  Besides [finalResults] the model returns [toolResults],
    the array the completion log line prints. *)
Definition startScan (targetId : string) (selectedTools : list string)
  : M (list Finding * list ToolNote) := λ st,
  match scan_body targetId selectedTools st with
  | (Ok r, st') => (Ok r, st')
  | (Throw error, st') =>
      match sendProgress ("Scan failed: " +:+ error_message error) (progress st') st' with
      | (_, st'') => (Throw error, st'')
      end
  end.

End WithHost.

(** *** The session record of the route (routes/scan.js, POST /api/scan) *)

Inductive Status := running | completed | failed.

Record Session := mkSession {
  status : Status;
  session_results : option (list Finding);
  session_error : option string
}.

(** The record stored before the scan starts. *)
Definition new_session : Session := mkSession running None None.

(** The [.then] and [.catch] handlers attached to [startScan]. *)
Definition settle_session {A} (outcome : Res (list Finding * A)) : Session :=
  match outcome with
  | Ok r => mkSession completed (Some (fst r)) None
  | Throw error => mkSession failed None (Some (error_message error))
  end.

(** A session from the creation of its orchestrator to its terminal
    record. *)
Definition run_session (w : World) (b : Bridges) (targetId : string)
    (selectedTools : list string) : Session * list ToolNote * Orch :=
  match startScan w b targetId selectedTools new_orchestrator with
  | (Ok r, st) => (settle_session (Ok r), snd r, st)
  | (Throw e, st) => (settle_session (@Throw (list Finding * list ToolNote) e), [], st)
  end.

(** *** Vocabulary for the properties *)

(** The resolved target passes the post-condition check. *)
Definition valid_target (w : World) (targetId targetPath : string) : Prop :=
  Resolver.resolveTargetPath w targetId = Some targetPath ∧
  existsSync w targetPath = true ∧
  isDirectory w targetPath = true.

(** How the run of the tool at position [i] ends: the findings it returns or
    the error it throws into the loop. *)
Definition outcome_of (w : World) (b : Bridges) (targetPath : string)
    (tool : string) (i : nat) : Res (list Finding) :=
  fst (run_tool w b tool i targetPath new_orchestrator).

(** How the turn of the tool at position [i] ends, that is the [try] block
    of the loop: with the findings of the run, unless the run throws or the
    findings are too many for [this.results.push(...currentToolResults)]. *)
Definition turn_of (w : World) (b : Bridges) (targetPath : string)
    (tool : string) (i : nat) : Res (list Finding) :=
  match outcome_of w b targetPath tool i with
  | Ok currentToolResults =>
      if (length currentToolResults <=? spread_limit w)%nat
      then Ok currentToolResults else Throw RangeError
  | Throw error => Throw error
  end.

Definition note_of (tool : string) (outcome : Res (list Finding)) : ToolNote :=
  match outcome with
  | Ok currentToolResults => NoteResult tool (length currentToolResults)
  | Throw error => NoteError tool (error_message error)
  end.

Definition findings_of (outcome : Res (list Finding)) : list Finding :=
  match outcome with
  | Ok currentToolResults => currentToolResults
  | Throw _ => []
  end.

(** The notes of the tools from position [i] on, and the findings their
    turns add to [this.results]. *)
Fixpoint notes_from (w : World) (b : Bridges) (targetPath : string)
    (tools : list string) (i : nat) : list ToolNote :=
  match tools with
  | [] => []
  | tool :: rest =>
      note_of tool (turn_of w b targetPath tool i)
        :: notes_from w b targetPath rest (S i)
  end.

Fixpoint findings_from (w : World) (b : Bridges) (targetPath : string)
    (tools : list string) (i : nat) : list Finding :=
  match tools with
  | [] => []
  | tool :: rest =>
      findings_of (turn_of w b targetPath tool i)
        ++ findings_from w b targetPath rest (S i)
  end.

(** How many of the turns from position [i] on end without an error (and
    are counted in [completedTools]). *)
Fixpoint completed_from (w : World) (b : Bridges) (targetPath : string)
    (tools : list string) (i : nat) : nat :=
  match tools with
  | [] => 0
  | tool :: rest =>
      (match turn_of w b targetPath tool i with
       | Ok _ => 1
       | Throw _ => 0
       end + completed_from w b targetPath rest (S i))%nat
  end.

(** The message that closes the turn of a tool. *)
Definition closing_message (tool : string) (outcome : Res (list Finding)) : string :=
  match outcome with
  | Ok _ => "Completed " +:+ tool +:+ " scan"
  | Throw error => "Error in " +:+ tool +:+ ": " +:+ error_message error
  end.

(** The value of [completedTools] after the turn of a tool that started
    with [k]. *)
Definition completed_after (k : nat) (outcome : Res (list Finding)) : nat :=
  match outcome with
  | Ok _ => S k
  | Throw _ => k
  end.

(** The messages of the loop over [tools], entered at position [i] with
    [c] completed tools: the opening and the closing message of a tool. *)
Definition loop_message (w : World) (b : Bridges) (targetPath : string)
    (N : nat) (tools : list string) (i c : nat) (e : Event) : Prop :=
  ∃ j tool, tools !! j = Some tool ∧
    let k := (c + completed_from w b targetPath (take j tools) i)%nat in
    let outcome := turn_of w b targetPath tool (i + j) in
    (e = ProgressEvent (Some tool) (Math_round (percent k N))
           ("Starting " +:+ tool +:+ " scan...") ∨
     e = ProgressEvent (Some tool)
           (Math_round (percent (completed_after k outcome) N))
           (closing_message tool outcome)).

(** A tool run the specification counts as failed, on a host that runs the
    real tool: the bridge is unavailable, or [executeCommand] rejects (the
    timer expired, the exit was a failure, the process could not start). *)
Definition tool_failed (w : World) (tool : string) (i : nat) : Prop :=
  ((tool = "Semgrep" ∨ tool = "Trivy") ∧ MOCK_WSL2 w = false ∧
   (WSL2Bridge.isAvailable w = false ∨
    ∃ reason, Exec.executeCommand (tool_proc w i) = Exec.Rejected reason)) ∨
  (tool = "OWASP Dependency Check" ∧ ENABLE_ODC w = true ∧
   ODCBridge.isAvailable w = true ∧
   ∃ reason, Exec.executeCommand (tool_proc w i) = Exec.Rejected reason).

(** The messages whose percentage is computed from
    [completedTools / totalTools]: the three messages of the loop and the
    closing message. *)
Definition coarse_message (message : string) : bool :=
  String.prefix "Starting " message ||
  String.prefix "Completed " message ||
  String.prefix "Error in " message ||
  String.eqb message "Scan completed successfully!".

Fixpoint coarse_values (events : list Event) : list Z :=
  match events with
  | [] => []
  | ProgressEvent _ pc message :: rest =>
      if coarse_message message then pc :: coarse_values rest
      else coarse_values rest
  | _ :: rest => coarse_values rest
  end.

Fixpoint nondecreasing (l : list Z) : bool :=
  match l with
  | [] => true
  | a :: rest =>
      match rest with
      | [] => true
      | b :: _ => (a <=? b) && nondecreasing rest
      end
  end.

(** The percentages of the progress messages, in the order sent. *)
Fixpoint progress_values (events : list Event) : list Z :=
  match events with
  | [] => []
  | ProgressEvent _ pc _ :: rest => pc :: progress_values rest
  | _ :: rest => progress_values rest
  end.

(** The messages of the real-time generators: a vulnerability, or a
    progress message that starts with "Found ". *)
Definition fine_grained (e : Event) : bool :=
  match e with
  | ProgressEvent _ _ message => String.prefix "Found " message
  | VulnerabilityEvent _ _ _ => true
  | CompleteEvent _ => false
  end.

(** A computation that only sends fine-grained messages, and sends them
    only when it returns a list short enough to be spread in any call. *)
Definition quiet (m : M (list Finding)) (r : Res (list Finding)) : Prop :=
  ∀ st, ∃ evs pc,
    m st = (r, mkOrch (results st) pc (currentTool st) (emitted st ++ evs)) ∧
    forallb fine_grained evs = true ∧
    ((evs = [] ∧ pc = progress st) ∨
     ∃ found, r = Ok found ∧ (length found ≤ spread_floor)%nat).

(** Failure isolation as the specification words it: every failed tool run
    leaves an error note and an error message, and the session completes. *)
Definition failure_is_noted (w : World) (targetId : string)
    (tools : list string) : Prop :=
  ∀ i tool, tools !! i = Some tool → tool_failed w tool i →
    let '(session, notes, st) := run_session w (host_bridges w) targetId tools in
    (∃ error, notes !! i = Some (NoteError tool error)) ∧
    (∃ pc error,
       ProgressEvent (Some tool) pc ("Error in " +:+ tool +:+ ": " +:+ error)
         ∈ emitted st) ∧
    status session = completed.

(** Progress monotonicity as the specification words it: the percentages of
    all progress messages of the session never decrease and end at 100. *)
Definition progress_is_monotone (events : list Event) : Prop :=
  nondecreasing (progress_values events) = true ∧
  last (progress_values events) = Some 100.

End Orchestrator.

(** ** A sample host

    A Windows machine with WSL 2, one staged upload and a directory
    [sub\dir] under the staging root.  The functions standing for Node's
    [path] module agree with it on the normalized paths used below. *)

Module Sample.

(** JSON text, written with ['] for the double quote. *)
Fixpoint json_text (s : string) : string :=
  match s with
  | EmptyString => EmptyString
  | String c s' =>
      String (if Ascii.eqb c "'" then ascii_of_nat 34 else c) (json_text s')
  end.

Definition staging_root : string := "C:\scanvault\temp".
Definition staged_id : string := "3f2504e0-4f89-41d3-9a0c-0305e82c3301".
Definition staged_path : string :=
  "C:\scanvault\temp\3f2504e0-4f89-41d3-9a0c-0305e82c3301".

Definition directories : list string :=
  [ staged_path; "C:\scanvault\temp\sub\dir" ].

Definition is_separator (c : ascii) : bool :=
  Ascii.eqb c "/" || Ascii.eqb c "\".

Definition is_drive_letter (c : ascii) : bool :=
  let n := nat_of_ascii c in
  ((65 <=? n) && (n <=? 90) || (97 <=? n) && (n <=? 122))%nat.

(** [path.win32.isAbsolute] *)
Definition win32_isAbsolute (p : string) : bool :=
  match p with
  | EmptyString => false
  | String c rest =>
      is_separator c ||
      (is_drive_letter c &&
       match rest with
       | String ":" (String s _) => is_separator s
       | _ => false
       end)
  end.

Definition win32_join (a b : string) : string :=
  a +:+ "\" +:+ JS.slashes_to_backslashes b.

Definition win32_resolve (p : string) : string :=
  "C:\scanvault\backend\" +:+ JS.slashes_to_backslashes p.

Definition trivy_stdout : string :=
  json_text "{'Results':[{'Target':'/mnt/c/scanvault/temp/package-lock.json','Vulnerabilities':[{'VulnerabilityID':'CVE-2020-8203','Severity':'HIGH'}]}]}".

Definition trivy_report : Parse.TrivyReport :=
  Parse.mkTrivyReport (Some
    [ Parse.mkTrivyTarget "/mnt/c/scanvault/temp/package-lock.json"
        (Some [ Parse.mkTrivyVuln "CVE-2020-8203" (Some "HIGH") ]) ]).

(** [JSON.parse] on the one text the sample processes print. *)
Definition decode_trivy_sample (s : string) : option Parse.TrivyReport :=
  if String.eqb s trivy_stdout then Some trivy_report else None.

(** The Semgrep child hangs after a first chunk; the Trivy child prints its
    report and exits with code 0. *)
Definition hanging_semgrep (i : nat) : list Exec.ProcEvent :=
  match i with
  | O => [ Exec.StdoutData "{" ]
  | _ => [ Exec.StdoutData trivy_stdout; Exec.Close (Some 0) ]
  end.

Definition windows_host (mock : bool) : World :=
  mkWorld ∅
    (λ p, bool_decide (p ∈ directories))
    (λ p, bool_decide (p ∈ directories))
    win32_isAbsolute win32_join win32_resolve
    (Some staging_root) staging_root
    mock false
    true (Some "Default Version: 2")
    [ Exec.ProcError "spawn dependency-check.bat ENOENT" ]
    hanging_semgrep
    (λ _, None)
    decode_trivy_sample
    (λ _, None)
    120000%N.

(** A Trivy record whose severity is outside the four levels the scanner
    is asked for. *)
Definition trivy_unknown_severity : Parse.TrivyReport :=
  Parse.mkTrivyReport (Some
    [ Parse.mkTrivyTarget "/mnt/c/scanvault/temp/package-lock.json"
        (Some [ Parse.mkTrivyVuln "CVE-2019-0001" (Some "UNKNOWN") ]) ]).

(** A Semgrep report with two results that differ in file, line and
    category, and whose keys [file:line:type] have the same text. *)
Definition colliding_report : Parse.SemgrepReport :=
  Parse.mkSemgrepReport (Some
    [ Parse.mkSemgrepResult "a:1" (Some "rules.x") (Some "ERROR") (Some "x") (Some 2);
      Parse.mkSemgrepResult "a" (Some "rules.y") (Some "WARNING") (Some "2:x") (Some 1) ]).

Definition colliding_findings : list Finding :=
  [ mkFinding "Semgrep" "CRITICAL" "x" "a:1" 2;
    mkFinding "Semgrep" "HIGH" "2:x" "a" 1 ].

End Sample.

(** ** Vocabulary for the further properties *)

(** [c] is [r] with, at most, more tool names joined to its tool field. *)
Definition extends_tool (r c : Finding) : Prop :=
  severity c = severity r ∧ type c = type r ∧ file c = file r ∧
  line c = line r ∧ ∃ more, tool c = tool r +:+ more.

(** The findings announced by [vulnerability_found] messages, each with the
    [totalFound] the message carries. *)
Definition announced (events : list Orchestrator.Event) : list (Finding * nat) :=
  omap (λ e, match e with
             | Orchestrator.VulnerabilityEvent v _ n => Some (v, n)
             | _ => None
             end) events.

(** ** Reports (reportGenerator.js)

    The generator uses object literals as lookup tables and as
    accumulators.  Such an object has the properties it was given, its own,
    and inherits those of [Object.prototype]: [table[key]] is the own
    property when there is one, else the inherited member when [key] names
    one, else [undefined].  The own properties are a map here, and the
    inherited ones the list of their names. *)

Module Report.

(** [Object.getOwnPropertyNames(Object.prototype)] in Node. *)
Definition prototype_members : list string :=
  [ "constructor"; "__defineGetter__"; "__defineSetter__"; "hasOwnProperty";
    "__lookupGetter__"; "__lookupSetter__"; "isPrototypeOf";
    "propertyIsEnumerable"; "toString"; "valueOf"; "__proto__";
    "toLocaleString" ].

Definition inherited (key : string) : bool :=
  existsb (String.eqb key) prototype_members.

(** A number stored in the tool breakdown: a count, or [NaN]. *)
Inductive Count :=
| Num (n : nat)
| NaN.

(** What [table[key] || fallback] evaluates to: a value of the table or the
    fallback, or the member of [Object.prototype] that [key] names (a
    function, and for ["__proto__"] the prototype itself: all truthy). *)
Inductive Looked (A : Type) :=
| Value (a : A)
| Member (key : string).

Arguments Value {A} a.
Arguments Member {A} key.

(** The [summary] object of a report. *)
Record Summary := mkSummary {
  total : nat;
  critical : nat;
  high : nat;
  medium : nat;
  low : nat;
  info : nat
}.

(** [results.filter(r => r.severity === level).length] *)
Definition count_severity (level : string) (results : list Finding) : nat :=
  length (filter (λ r, severity r = level) results).

Definition summary (results : list Finding) : Summary :=
  mkSummary (length results)
    (count_severity "CRITICAL" results) (count_severity "HIGH" results)
    (count_severity "MEDIUM" results) (count_severity "LOW" results)
    (count_severity "INFO" results).

(** [x || 'Unknown'] for a string property that is present. *)
Definition or_unknown (s : string) : string :=
  if JS.truthy s then s else "Unknown".

(** The [reduce] that counts the results per tool:
    [if (!acc[tool]) acc[tool] = 0; acc[tool]++].  [acc] starts as [{}].
    An own count is incremented ([0] and [NaN] are falsy and are reset to 0
    first).  Without an own property, a name that [acc] inherits reads as
    the inherited member, which is truthy and whose increment is [NaN]; the
    assignment creates the own property, except for ["__proto__"], whose
    setter ignores a number.  Any other name starts at 0. *)
Definition count_tool (acc : gmap string Count) (result : Finding)
  : gmap string Count :=
  let tool := or_unknown (tool result) in
  match acc !! tool with
  | Some (Num n) => <[tool := Num (S n)]> acc
  | Some NaN => <[tool := Num 1]> acc
  | None =>
      if inherited tool
      then if String.eqb tool "__proto__" then acc else <[tool := NaN]> acc
      else <[tool := Num 1]> acc
  end.

Definition toolBreakdown (results : list Finding) : gmap string Count :=
  fold_left count_tool results ∅.

(** The [reduce] that groups the results per file:
    [if (!acc[file]) acc[file] = []; acc[file].push(result)].  A name that
    [acc] inherits reads as the inherited member, which has no [push]: the
    call throws a [TypeError] ([None]). *)
Definition group_file (acc : option (gmap string (list Finding))) (result : Finding)
  : option (gmap string (list Finding)) :=
  match acc with
  | None => None
  | Some acc =>
      let file := or_unknown (file result) in
      match acc !! file with
      | Some issues => Some (<[file := issues ++ [result]]> acc)
      | None => if inherited file then None else Some (<[file := [result]]> acc)
      end
  end.

Definition fileBreakdown (results : list Finding)
  : option (gmap string (list Finding)) :=
  fold_left group_file results (Some ∅).

Definition categories : list (string * string) :=
  [ ("SQL Injection", "Injection"); ("XSS", "Injection");
    ("CSRF", "Authentication"); ("Hardcoded Secret", "Sensitive Data");
    ("Vulnerable Dependency", "Dependencies");
    ("Outdated Package", "Dependencies"); ("License Risk", "Legal") ].

(** categorizeVulnerability: [categories[type] || 'Other'].  The values of
    the table are non-empty strings. *)
Definition categorizeVulnerability (type : string) : Looked string :=
  match Parse.table_get categories type with
  | Some category => Value category
  | None => if inherited type then Member type else Value "Other"
  end.

(** The own properties of the [scores] table. *)
Definition scores (severity : string) : option Z :=
  if String.eqb severity "CRITICAL" then Some 10
  else if String.eqb severity "HIGH" then Some 8
  else if String.eqb severity "MEDIUM" then Some 5
  else if String.eqb severity "LOW" then Some 3
  else if String.eqb severity "INFO" then Some 1
  else None.

(** calculateRiskScore: [scores[severity] || 1].  The values of the table
    are not 0. *)
Definition calculateRiskScore (severity : string) : Looked Z :=
  match scores severity with
  | Some score => Value score
  | None => if inherited severity then Member severity else Value 1
  end.

(** calculateOverallRisk *)
Definition calculateOverallRisk (s : Summary) : string :=
  if (0 <? critical s)%nat then "CRITICAL"
  else if (3 <? high s)%nat then "HIGH"
  else if (0 <? high s)%nat || (5 <? medium s)%nat then "MEDIUM"
  else if (0 <? medium s)%nat || (10 <? low s)%nat then "LOW"
  else "MINIMAL".

(** [results.some(p)] *)
Definition some (p : Finding → bool) (results : list Finding) : bool :=
  existsb p results.

Definition general_recommendations : list string :=
  [ "Integrate security scanning into your development workflow";
    "Regular security scans should be performed on all code changes";
    "Consider implementing security training for your development team" ].

(** generateRecommendations *)
Definition generateRecommendations (results : list Finding) : list string :=
  let hasCritical := some (λ r, String.eqb (severity r) "CRITICAL") results in
  let hasInjection := some (λ r, JS.includes (type r) "Injection") results in
  let hasOutdatedDeps :=
    some (λ r, JS.includes (type r) "Outdated" || JS.includes (type r) "Vulnerable")
         results in
  let hasSecrets :=
    some (λ r, JS.includes (type r) "Secret" || JS.includes (type r) "Hardcoded")
         results in
  (if hasCritical
   then ["Address all CRITICAL severity issues immediately before deployment"]
   else []) ++
  (if hasInjection
   then ["Implement input validation and use parameterized queries to prevent injection attacks"]
   else []) ++
  (if hasOutdatedDeps
   then ["Update all dependencies to their latest secure versions";
         "Consider using automated dependency update tools like Dependabot"]
   else []) ++
  (if hasSecrets
   then ["Move all secrets to environment variables or secure vaults";
         "Implement secret scanning in your CI/CD pipeline"]
   else []) ++
  general_recommendations.

(** One element of the report's [results]: the finding with the three
    properties the report adds. *)
Record Entry := mkEntry {
  finding : Finding;
  foundBy : string;
  category : Looked string;
  riskScore : Looked Z
}.

Definition entry_of (result : Finding) : Entry :=
  mkEntry result (tool result) (categorizeVulnerability (type result))
          (calculateRiskScore (severity result)).

(** The report built by generateJSONReport, without its [metadata] (ids and
    timestamps).  [report_fileBreakdown] holds the elements of the
    [fileBreakdown] array by their file, each with its issues; the order
    [Object.keys] gives them is not represented. *)
Record JSONReport := mkJSONReport {
  report_summary : Summary;
  report_toolBreakdown : gmap string Count;
  report_fileBreakdown : gmap string (list Finding);
  report_results : list Entry;
  report_recommendations : list string
}.

(** generateJSONReport on the results of a session ([[]] when the session
    has none): the report, or [None] when grouping by file throws. *)
Definition generateJSONReport (session_results : option (list Finding))
  : option JSONReport :=
  let results := default [] session_results in
  let summary := summary results in
  let toolBreakdown := toolBreakdown results in
  match fileBreakdown results with
  | None => None
  | Some fileBreakdown =>
      Some (mkJSONReport summary toolBreakdown fileBreakdown
              (map entry_of results) (generateRecommendations results))
  end.

End Report.

(** The overall risk levels, from the lowest to the highest. *)
Definition risk_rank (level : string) : nat :=
  if String.eqb level "CRITICAL" then 4
  else if String.eqb level "HIGH" then 3
  else if String.eqb level "MEDIUM" then 2
  else if String.eqb level "LOW" then 1
  else 0.

(** ** The registry as it changes (folderRegistry.js)

    [World] holds the mappings a scan reads; [register] and [unregister]
    change them between scans. *)

Module Registry.

Definition with_mappings (w : World) (m : gmap string string) : World :=
  mkWorld m (existsSync w) (isDirectory w) (path_isAbsolute w) (path_join w)
    (path_resolve w) (env_TEMP_DIR w) (default_temp w) (MOCK_WSL2 w)
    (ENABLE_ODC w) (platform_win32 w) (wsl_status w) (odc_version w)
    (tool_proc w) (decode_semgrep w) (decode_trivy w) (odc_report w)
    (spread_room w).

(** [this.mappings.set(scanId, folderPath)] *)
Definition register (scanId folderPath : string) (w : World) : World :=
  with_mappings w (<[scanId := folderPath]> (mappings w)).

(** [this.mappings.delete(scanId)] *)
Definition unregister (scanId : string) (w : World) : World :=
  with_mappings w (delete scanId (mappings w)).

(** [new Map(this.mappings)]: a copy, which later changes of the registry
    do not reach. *)
Definition getAllMappings (w : World) : gmap string string := mappings w.

End Registry.

(** ** The scan routes (routes/scan.js) *)

Module ScanRoute.

(** The body of POST /api/scan.  [None] is a missing property; for
    [selectedTools] also a value that is not an array. *)
Record ScanRequest := mkScanRequest {
  body_targetId : option string;
  body_selectedTools : option (list string)
}.

(** One entry of [scanSessions], without its timestamps and its
    orchestrator.  [actualTargetId] is [None] when the registry answered
    [null]. *)
Record ScanSession := mkScanSession {
  id : string;
  targetId : string;
  actualTargetId : option string;
  selectedTools : list string;
  status : Orchestrator.Status;
  results : option (list Finding);
  error : option string
}.

Inductive PostResponse :=
| BadRequest (message : string)                       (* status 400 *)
| Started (scanId websocketUrl : string).             (* status 200 *)

(** [let actualTargetId = targetId;
     if (folderRegistry.isDirectScan(targetId))
       actualTargetId = folderRegistry.getPath(targetId);] *)
Definition resolve_direct (w : World) (targetId : string) : option string :=
  if FolderRegistry.isDirectScan w targetId then FolderRegistry.getPath w targetId
  else Some targetId.

(** The handler of POST /api/scan up to its response; [scanId] is the value
    [uuidv4()] returns.  The scan itself runs in the background. *)
Definition post_scan (w : World) (scanId : string) (req : ScanRequest)
    (scanSessions : gmap string ScanSession) : PostResponse * gmap string ScanSession :=
  match body_targetId req with
  | None | Some EmptyString => (BadRequest "Target ID is required", scanSessions)
  | Some targetId =>
      match body_selectedTools req with
      | None | Some [] =>
          (BadRequest "At least one scanning tool must be selected", scanSessions)
      | Some selectedTools =>
          let session :=
            mkScanSession scanId targetId (resolve_direct w targetId) selectedTools
                          Orchestrator.running None None in
          (Started scanId ("/ws/" +:+ scanId), <[scanId := session]> scanSessions)
      end
  end.

(** The message of the [TypeError] Node's [path.isAbsolute] throws for
    [null], which [startScan] rethrows. *)
Definition null_path_message : string :=
  "The " +:+ String (ascii_of_nat 34) "path" +:+ String (ascii_of_nat 34)
  " argument must be of type string. Received null".

(** [orchestrator.startScan(actualTargetId, selectedTools)] on a fresh
    orchestrator: the findings it resolves to, or the message of the error
    it rejects with. *)
Definition scan_promise (w : World) (b : Bridges) (session : ScanSession)
  : list Finding + string :=
  match actualTargetId session with
  | Some target =>
      match fst (Orchestrator.startScan w b target (selectedTools session)
                   Orchestrator.new_orchestrator) with
      | Ok r => inl (fst r)
      | Throw e => inr (error_message e)
      end
  | None => inr null_path_message
  end.

(** The [.then] and [.catch] handlers, run when the background scan of
    [scanId] settles. *)
Definition scan_settled (w : World) (b : Bridges) (scanId : string)
    (scanSessions : gmap string ScanSession) : gmap string ScanSession :=
  match scanSessions !! scanId with
  | None => scanSessions
  | Some session =>
      match scan_promise w b session with
      | inl found =>
          <[scanId := mkScanSession (id session) (targetId session)
                        (actualTargetId session) (selectedTools session)
                        Orchestrator.completed (Some found) (error session)]>
            scanSessions
      | inr message =>
          <[scanId := mkScanSession (id session) (targetId session)
                        (actualTargetId session) (selectedTools session)
                        Orchestrator.failed (results session) (Some message)]>
            scanSessions
      end
  end.

Inductive ResultsResponse :=
| ScanNotFound                                         (* status 404 *)
| ScanResults (scanId : string) (status : Orchestrator.Status)
    (targetId : string) (selectedTools : list string)
    (results : list Finding) (error : option string).

(** GET /api/scan/:scanId/results *)
Definition get_results (scanSessions : gmap string ScanSession) (scanId : string)
  : ResultsResponse :=
  match scanSessions !! scanId with
  | None => ScanNotFound
  | Some session =>
      ScanResults (id session) (status session) (targetId session)
        (selectedTools session) (default [] (results session)) (error session)
  end.

Inductive ReportResponse :=
| ReportScanNotFound                                   (* status 404 *)
| ReportNotCompleted                                   (* status 400 *)
| ReportInvalidFormat                                  (* status 400 *)
| ReportJSON (report : Report.JSONReport)
| ReportJSONFailed                                     (* status 500 *)
| ReportPDF (buffer : string)
| ReportPDFFailed (details : string).                  (* status 500 *)

(** GET /api/scan/:scanId/report/:format.  [pdf] is what generatePDFReport
    gives for the session: the buffer, or the message of the error.  The
    answer to a JSON request is the report the body serialises; when
    generateJSONReport throws, the answer is the status 500 with the
    message of the engine's [TypeError] as its details. *)
Definition get_report (pdf : ScanSession → string + string)
    (scanSessions : gmap string ScanSession) (scanId format : string)
  : ReportResponse :=
  match scanSessions !! scanId with
  | None => ReportScanNotFound
  | Some session =>
      match status session with
      | Orchestrator.completed =>
          if String.eqb format "json"
          then match Report.generateJSONReport (results session) with
               | Some report => ReportJSON report
               | None => ReportJSONFailed
               end
          else if String.eqb format "pdf"
          then match pdf session with
               | inl buffer => ReportPDF buffer
               | inr details => ReportPDFFailed details
               end
          else ReportInvalidFormat
      | _ => ReportNotCompleted
      end
  end.

End ScanRoute.

(** ** More string primitives *)

Module Text.

(** [s.split(sep)] for a one-character separator: the pieces between the
    separators, at least one. *)
Fixpoint split_go (sep : ascii) (s cur : string) : list string :=
  match s with
  | EmptyString => [cur]
  | String c s' =>
      if Ascii.eqb c sep then cur :: split_go sep s' EmptyString
      else split_go sep s' (cur +:+ String c EmptyString)
  end.

Definition split (sep : ascii) (s : string) : list string :=
  split_go sep s EmptyString.

(** [parts[parts.length - 1]] and [parts.pop()] on the array [split]
    returns, which is never empty. *)
Definition last_part (parts : list string) : string :=
  default EmptyString (last parts).

End Text.

(** ** Uploads on disk (fileHandler.js) *)

Module FileHandler.

(** [url.replace(/\.git$/, '')]: the one place the pattern can match is
    the end of the text. *)
Fixpoint strip_git_suffix (url : string) : string :=
  if String.eqb url ".git" then EmptyString
  else
    match url with
    | EmptyString => EmptyString
    | String c rest => String c (strip_git_suffix rest)
    end.

(** extractRepoName *)
Definition extractRepoName (url : string) : string :=
  let cleanUrl := strip_git_suffix url in
  let parts := Text.split "/" cleanUrl in
  let name := Text.last_part parts in
  if JS.truthy name then name else "repository".

(** [s.replace(/\.\./g, '')]: the matches are found from left to right and
    do not overlap. *)
Fixpoint remove_dotdot (s : string) : string :=
  match s with
  | EmptyString => EmptyString
  | String c rest =>
      match rest with
      | String c' rest' =>
          if Ascii.eqb c "." && Ascii.eqb c' "." then remove_dotdot rest'
          else String c (remove_dotdot rest)
      | EmptyString => String c EmptyString
      end
  end.

(** [s.replace(/^[/\\]+/, '')] *)
Fixpoint strip_leading_separators (s : string) : string :=
  match s with
  | String c rest =>
      if Ascii.eqb c "/" || Ascii.eqb c "\" then strip_leading_separators rest else s
  | EmptyString => EmptyString
  end.

(** The text starts with a dot. *)
Definition starts_with_dot (s : string) : bool :=
  match s with
  | String c _ => Ascii.eqb c "."
  | EmptyString => false
  end.

(** The [safePath] processFolderUpload computes for an uploaded file. *)
Definition safePath (relativePath : string) : string :=
  strip_leading_separators (remove_dotdot relativePath).

(** A directory as [fs.readdir(dir, { withFileTypes: true })] lists it,
    with the content of its subdirectories. *)
#[warnings="-register-all"] Inductive Node :=
| FileNode (name : string)
| DirNode (name : string) (entries : list Node).

(** countFiles: the files below a directory, those under a directory named
    [.git] left out. *)
Fixpoint count_node (entry : Node) : nat :=
  match entry with
  | FileNode _ => 1%nat
  | DirNode name entries =>
      if String.eqb name ".git" then 0%nat
      else (fix countRecursive (entries : list Node) : nat :=
              match entries with
              | [] => 0%nat
              | entry :: rest => (count_node entry + countRecursive rest)%nat
              end) entries
  end.

Definition countFiles (entries : list Node) : nat :=
  (fix countRecursive (entries : list Node) : nat :=
     match entries with
     | [] => 0%nat
     | entry :: rest => (count_node entry + countRecursive rest)%nat
     end) entries.

(** [!entry.name.startsWith('.') &&
     !['node_modules', '__pycache__', 'target', 'build', 'dist'].includes(entry.name)] *)
Definition traversed (name : string) : bool :=
  negb (String.prefix "." name) &&
  negb (bool_decide (name ∈ ["node_modules"; "__pycache__"; "target"; "build"; "dist"])).

(** getFileList: the paths of the files below a directory, in the order of
    the traversal; [join] is [path.join]. *)
Fixpoint traverse_node (join : string → string → string) (currentPath : string)
    (entry : Node) : list string :=
  match entry with
  | FileNode name => [join currentPath name]
  | DirNode name entries =>
      if traversed name then
        (fix traverse (entries : list Node) : list string :=
           match entries with
           | [] => []
           | entry :: rest =>
               traverse_node join (join currentPath name) entry ++ traverse rest
           end) entries
      else []
  end.

Definition getFileList (join : string → string → string) (dirPath : string)
    (entries : list Node) : list string :=
  (fix traverse (entries : list Node) : list string :=
     match entries with
     | [] => []
     | entry :: rest => traverse_node join dirPath entry ++ traverse rest
     end) entries.

(** validateFolderForScanning: [None] when it returns, the message of the
    error when it throws.  [fs.stat] succeeds on the paths [fs.existsSync]
    accepts, and [stat_error] is the message of its error on the others;
    [listing] is what getFileList does on the folder: the files, or the
    message of the error [fs.readdir] throws somewhere below it. *)
Definition validateFolderForScanning (w : World) (stat_error : string → string)
    (listing : string → string + list string) (folderPath : string)
  : option string :=
  let caught (message : string) := Some ("Folder validation failed: " +:+ message) in
  if negb (existsSync w folderPath) then caught (stat_error folderPath)
  else if negb (isDirectory w folderPath) then caught "Target is not a directory"
  else
    match listing folderPath with
    | inl message => caught message
    | inr files => None
    end.

End FileHandler.

(** ** The direct-scan route (routes/upload.js, POST /scan-folder-path) *)

Module UploadRoute.

Inductive FolderResponse :=
| FolderBadRequest (message : string)                  (* status 400 *)
| FolderFailed (message : string)                      (* next(error) *)
| FolderReady (id folderPath : string).

(** [basename] is [path.basename] and [now] the digits of [Date.now()];
    [stat_error] and [listing] are those of
    fileHandler.validateFolderForScanning.  [fs.stat] succeeds on the paths
    [fs.existsSync] accepts. *)
Definition scan_folder_path (basename : string → string) (now : string)
    (stat_error : string → string) (listing : string → string + list string)
    (folderPath : option string) (w : World)
  : FolderResponse * World :=
  match folderPath with
  | None | Some EmptyString => (FolderBadRequest "Folder path is required", w)
  | Some folderPath =>
      if negb (existsSync w folderPath)
      then (FolderBadRequest "Folder path does not exist or is not accessible", w)
      else if negb (isDirectory w folderPath)
      then (FolderBadRequest "Provided path is not a directory", w)
      else
        let absolutePath := path_resolve w folderPath in
        let scanId := basename absolutePath +:+ "-" +:+ now in
        let w' := Registry.register scanId absolutePath w in
        match FileHandler.validateFolderForScanning w' stat_error listing
                absolutePath with
        | Some message => (FolderFailed message, w')
        | None => (FolderReady scanId absolutePath, w')
        end
  end.

End UploadRoute.

(** ** The WebSocket registry (index.js) *)

Module WsServer.

Inductive Message :=
| Connected (scanId : string)
| Pushed (scanId : string) (event : Orchestrator.Event).

(** [wsClients], and what the model needs of the sockets: the scan id the
    ['close'] handler of a socket has captured, which sockets are in
    [readyState] OPEN, and the messages sent so far with the socket each
    went to.  A socket is a number; every connection brings a new one. *)
Record State := mkState {
  wsClients : gmap string nat;
  handlers : gmap nat string;
  readyOpen : gset nat;
  delivered : list (nat * Message)
}.

Definition initial : State := mkState ∅ ∅ ∅ [].

(** [const urlParts = req.url.split('/');
     const scanId = urlParts[urlParts.length - 1];] *)
Definition scanId_of_url (url : string) : string :=
  Text.last_part (Text.split "/" url).

(** [wss.on('connection', (ws, req) => ...)] *)
Definition connection (ws : nat) (url : string) (st : State) : State :=
  let scanId := scanId_of_url url in
  mkState (<[scanId := ws]> (wsClients st)) (<[ws := scanId]> (handlers st))
          ({[ws]} ∪ readyOpen st)
          (delivered st ++ [(ws, Connected scanId)]).

(** The socket closes: it leaves OPEN and its ['close'] handler runs,
    [wsClients.delete(scanId)]. *)
Definition close (ws : nat) (st : State) : State :=
  match handlers st !! ws with
  | Some scanId =>
      mkState (delete scanId (wsClients st)) (delete ws (handlers st))
              (readyOpen st ∖ {[ws]}) (delivered st)
  | None => st
  end.

(** What sendProgress, sendVulnerability and sendCompletion do with a
    message of the scan [scanId]:
    [const client = this.wsClients.get(this.scanId);
     if (client && client.readyState === 1) client.send(...)]. *)
Definition push (scanId : string) (event : Orchestrator.Event) (st : State) : State :=
  match wsClients st !! scanId with
  | Some ws =>
      if bool_decide (ws ∈ readyOpen st)
      then mkState (wsClients st) (handlers st) (readyOpen st)
                   (delivered st ++ [(ws, Pushed scanId event)])
      else st
  | None => st
  end.

(** The messages of a scan, pushed one after the other. *)
Definition push_all (scanId : string) (events : list Orchestrator.Event)
    (st : State) : State :=
  fold_left (λ st event, push scanId event st) events st.

(** The messages a socket received. *)
Definition inbox (ws : nat) (st : State) : list Message :=
  omap (λ m : nat * Message, if bool_decide (fst m = ws) then Some (snd m) else None)
       (delivered st).

End WsServer.

(** ** A host for direct scans

    The sample host with [path.resolve] also defined on absolute paths,
    which it returns as they are. *)

Module DirectSample.

Definition resolve (p : string) : string :=
  if Sample.win32_isAbsolute p then p else Sample.win32_resolve p.

(** [path.win32.basename] on a normalized path without a trailing
    separator. *)
Definition basename (p : string) : string :=
  Text.last_part (Text.split "\" p).

Definition host : World :=
  let w := Sample.windows_host false in
  mkWorld (mappings w) (existsSync w) (isDirectory w) (path_isAbsolute w)
    (path_join w) resolve (env_TEMP_DIR w) (default_temp w) (MOCK_WSL2 w)
    (ENABLE_ODC w) (platform_win32 w) (wsl_status w) (odc_version w)
    (tool_proc w) (decode_semgrep w) (decode_trivy w) (odc_report w)
    (spread_room w).

End DirectSample.

(** ** Windows paths for WSL (wsl2Bridge.js, convertToWSLPath) *)

Module WslPath.

(** [s.replace(/\\/g, '/')] *)
Fixpoint backslashes_to_slashes (s : string) : string :=
  match s with
  | EmptyString => EmptyString
  | String c s' =>
      String (if Ascii.eqb c "\" then "/"%char else c) (backslashes_to_slashes s')
  end.

(** [s.charAt(0)] *)
Definition charAt0 (s : string) : string :=
  match s with
  | EmptyString => EmptyString
  | String c _ => String c EmptyString
  end.

(** [s.substring(3)] *)
Definition substring3 (s : string) : string :=
  match s with
  | String _ (String _ (String _ rest)) => rest
  | _ => EmptyString
  end.

(** The [catch] branch: [`/mnt/${drive}/${restPath}`]. *)
Definition fallback (windowsPath : string) : string :=
  let drive := JS.toLowerCase (charAt0 windowsPath) in
  let restPath := backslashes_to_slashes (substring3 windowsPath) in
  "/mnt/" +:+ drive +:+ "/" +:+ restPath.

Definition is_space (c : ascii) : bool :=
  let n := nat_of_ascii c in
  ((9 <=? n) && (n <=? 13) || (n =? 32))%nat.

Fixpoint trim_start (s : string) : string :=
  match s with
  | EmptyString => EmptyString
  | String c s' => if is_space c then trim_start s' else s
  end.

Fixpoint trim_end (s : string) : string :=
  match s with
  | EmptyString => EmptyString
  | String c s' =>
      match trim_end s' with
      | EmptyString => if is_space c then EmptyString else String c EmptyString
      | rest => String c rest
      end
  end.

(** [s.trim()] on ASCII text. *)
Definition trim (s : string) : string := trim_end (trim_start s).

(** convertToWSLPath of wsl2Bridge.js.  [wslpath] is what
    [execPromise(`wsl wslpath ...`)] gives: the stdout of the command, or
    [None] when it rejects. *)
Definition convertToWSLPath (wslpath : option string) (windowsPath : string) : string :=
  match wslpath with
  | Some stdout => trim stdout
  | None => fallback windowsPath
  end.

(** *** The caching copy of the bridge *)

(** [/^([C-Z]):\\/i] on the first character. *)
Definition is_C_to_Z (c : ascii) : bool :=
  let n := nat_of_ascii c in
  ((67 <=? n) && (n <=? 90) || (99 <=? n) && (n <=? 122))%nat.

(** tryDirectPathMapping; [None] is [null]. *)
Definition tryDirectPathMapping (windowsPath : string) : option string :=
  match windowsPath with
  | String d (String ":" (String "\" _)) =>
      if is_C_to_Z d then
        let drive := JS.toLowerCase (String d EmptyString) in
        let restPath := backslashes_to_slashes (substring3 windowsPath) in
        if JS.includes windowsPath "\temp\" ||
           JS.includes windowsPath "\aihackthon2025\" ||
           JS.includes windowsPath "\uploads\"
        then Some ("/mnt/" +:+ drive +:+ "/" +:+ restPath)
        else None
      else None
  | _ => None
  end.

(** The fields of the bridge the conversion reads and writes. *)
Record Cache := mkCache {
  pathCache : gmap string string;
  isPreWarmed : bool
}.

(** preWarmWSL: the flag is set whether the probe succeeds or fails. *)
Definition preWarmWSL (st : Cache) : Cache := mkCache (pathCache st) true.

(** convertToWSLPath of the caching copy. *)
Definition convertToWSLPath_cached (wslpath : option string) (windowsPath : string)
    (st : Cache) : string * Cache :=
  match pathCache st !! windowsPath with
  | Some cachedPath => (cachedPath, st)
  | None =>
      let st := if isPreWarmed st then st else preWarmWSL st in
      match tryDirectPathMapping windowsPath with
      | Some directPath =>
          (directPath, mkCache (<[windowsPath := directPath]> (pathCache st))
                               (isPreWarmed st))
      | None =>
          match wslpath with
          | Some stdout =>
              let wslPath := trim stdout in
              (wslPath, mkCache (<[windowsPath := wslPath]> (pathCache st))
                                (isPreWarmed st))
          | None => (fallback windowsPath, st)
          end
      end
  end.

End WslPath.

(** ** Fix suggestions (wsl2Bridge.js, odcBridge.js) *)

Module Fixes.

(** [`${x}`] for a string property that may be missing. *)
Definition show (x : option string) : string := default "undefined" x.

(** What generateSemgrepFix reads of a Semgrep result. *)
Record SemgrepRule := mkSemgrepRule {
  check_id : option string;          (* result.check_id *)
  metadata_fix : option string       (* result.extra?.metadata?.fix *)
}.

Definition generateSemgrepFix (result : SemgrepRule) : string :=
  let checkId := JS.or_else (check_id result) "" in
  if JS.includes checkId "sql-injection"
  then "Use parameterized queries or prepared statements instead of string concatenation"
  else if JS.includes checkId "xss"
  then "Sanitize user input and use proper escaping functions"
  else if JS.includes checkId "eval"
  then "Avoid using eval(). Use safer alternatives like JSON.parse() for data"
  else if JS.includes checkId "command-injection"
  then "Use spawn() with argument arrays instead of exec() with strings"
  else if JS.includes checkId "csrf"
  then "Implement CSRF protection middleware like csurf"
  else if JS.includes checkId "hardcoded"
  then "Move sensitive data to environment variables or secure configuration"
  else JS.or_else (metadata_fix result) "Review and fix the identified security issue".

(** What generateTrivyFix reads of a Trivy vulnerability. *)
Record TrivyPackage := mkTrivyPackage {
  PkgName : option string;
  InstalledVersion : option string;
  FixedVersion : option string;
  Status : option string
}.

Definition generateTrivyFix (vuln : TrivyPackage) : string :=
  if JS.truthy (default "" (FixedVersion vuln))
  then "Update " +:+ show (PkgName vuln) +:+ " from " +:+
       show (InstalledVersion vuln) +:+ " to " +:+ show (FixedVersion vuln) +:+
       " or later"
  else if bool_decide (Status vuln = Some "will_not_fix")
  then "No fix available for " +:+ show (PkgName vuln) +:+
       ". Consider using an alternative package"
  else "Update " +:+ show (PkgName vuln) +:+
       " to the latest version to resolve security issues".

(** generateODCFix on [dependency.fileName] and [vuln.name]. *)
Definition generateODCFix (fileName name : option string) : string :=
  "Update " +:+ show fileName +:+ " to address " +:+ show name +:+
  ". Check for newer versions or alternative packages.".

End Fixes.

(** * Properties *)

(** ** The deduplicator *)

Section DedupFacts.

Import Dedup.

Lemma key_merge c r : key_of (merge_tool c r) = key_of c.
Proof. unfold merge_tool. destruct (JS.includes _ _); reflexivity. Qed.

Lemma key3_merge c r : key3 (merge_tool c r) = key3 c.
Proof. unfold merge_tool. destruct (JS.includes _ _); reflexivity. Qed.

Lemma insert_by_miss acc r :
  (∀ c, c ∈ acc → key_of c ≠ key_of r) → insert_by acc r = acc ++ [r].
Proof.
  induction acc as [|c acc IH]; intros H; simpl; [done|].
  destruct (String.eqb_spec (key_of c) (key_of r)) as [E|_].
  - exfalso. apply (H c); [left | done].
  - rewrite IH; [done|]. intros c' Hc'. apply H. by right.
Qed.

Lemma insert_by_hit acc r p c :
  acc !! p = Some c → key_of c = key_of r →
  NoDup (map key_of acc) →
  insert_by acc r = <[p := merge_tool c r]> acc.
Proof.
  revert p. induction acc as [|a acc IH]; intros p Hp Hk Hnd; [done|].
  simpl. inversion Hnd as [|? ? Hnotin Hnd']; subst.
  destruct p as [|p]; simpl in *.
  - inversion Hp; subst. rewrite Hk, String.eqb_refl. done.
  - destruct (String.eqb_spec (key_of a) (key_of r)) as [E|_].
    + exfalso. apply Hnotin. rewrite E, <- Hk.
      apply list_elem_of_fmap. exists c. split; [done|].
      by eapply list_elem_of_lookup_2.
    + f_equal. by apply IH.
Qed.

Lemma keys_insert_by_hit acc r :
  key_of r ∈ map key_of acc → map key_of (insert_by acc r) = map key_of acc.
Proof.
  induction acc as [|a acc IH]; simpl; intros H.
  - by apply elem_of_nil in H.
  - destruct (String.eqb_spec (key_of a) (key_of r)) as [E|NE]; simpl.
    + by rewrite key_merge.
    + f_equal. apply IH. apply elem_of_cons in H as [H|H]; [congruence|done].
Qed.

Lemma keys_insert_by_miss acc r :
  key_of r ∉ map key_of acc → map key_of (insert_by acc r) = map key_of acc ++ [key_of r].
Proof.
  intros H. rewrite insert_by_miss.
  - by rewrite map_app.
  - intros c Hc E. apply H. rewrite <- E. apply list_elem_of_fmap. eauto.
Qed.

Lemma insert_by_keys_NoDup acc r :
  NoDup (map key_of acc) → NoDup (map key_of (insert_by acc r)).
Proof.
  intros Hnd. destruct (decide (key_of r ∈ map key_of acc)) as [Hin|Hout].
  - by rewrite keys_insert_by_hit.
  - rewrite keys_insert_by_miss by done.
    apply NoDup_app. split; [done|]. split.
    + intros x Hx Hx'. apply list_elem_of_singleton in Hx'. by subst.
    + apply NoDup_singleton.
Qed.

Lemma fold_insert_by_keys_NoDup l acc :
  NoDup (map key_of acc) → NoDup (map key_of (fold_left insert_by l acc)).
Proof.
  revert acc. induction l as [|r l IH]; intros acc H; simpl; [done|].
  apply IH. by apply insert_by_keys_NoDup.
Qed.

Lemma fold_insert_by_distinct l acc :
  NoDup (map key_of (acc ++ l)) → fold_left insert_by l acc = acc ++ l.
Proof.
  revert acc. induction l as [|r l IH]; intros acc H; simpl.
  - by rewrite app_nil_r.
  - assert (Hmiss : key_of r ∉ map key_of acc).
    { rewrite map_app in H. apply NoDup_app in H as (_ & H & _).
      intros Hin. apply (H _ Hin). simpl. left. }
    rewrite insert_by_miss.
    + rewrite IH; rewrite <- app_assoc; done.
    + intros c Hc E. apply Hmiss. rewrite <- E. apply list_elem_of_fmap. eauto.
Qed.

Lemma dedupe_fold_keys_NoDup l : NoDup (map key_of (dedupe_fold l)).
Proof. apply fold_insert_by_keys_NoDup. constructor. Qed.

Lemma dedupe_fold_idempotent l : dedupe_fold (dedupe_fold l) = dedupe_fold l.
Proof.
  unfold dedupe_fold at 1. rewrite fold_insert_by_distinct; [done|].
  apply dedupe_fold_keys_NoDup.
Qed.

Lemma Inv_init l : Inv l 0 (mkStore l ∅) [] [].
Proof.
  split; simpl; try done.
  - intros k j. rewrite lookup_empty. split; [done|].
    intros (p & c & Hp & _). by rewrite lookup_nil in Hp.
  - constructor.
  - intros j Hj. by apply elem_of_nil in Hj.
  - constructor.
Qed.

Lemma Inv_step l n st kept acc r :
  Inv l n st kept acc → l !! n = Some r →
  Inv l (S n) (snd (callback n st))
      (kept ++ if fst (callback n st) then [n] else [])
      (insert_by acc r).
Proof.
  intros [Hlen Hrest Hsize Hkept Hseen Hkeys Hlt Hnd] Hr.
  assert (Hn : heap st !! n = Some r) by (rewrite Hrest; [done|lia]).
  unfold callback. rewrite Hn. simpl.
  destruct (seen st !! key_of r) as [j|] eqn:Hs.
  - (* the key was seen: merge into the registered object *)
    apply Hseen in Hs as (p & c & Hp & Hc & Hk).
    assert (Hj : heap st !! j = Some c) by (rewrite (Hkept _ _ Hp); done).
    rewrite Hj. simpl. rewrite app_nil_r.
    rewrite (insert_by_hit acc r p c Hc Hk Hkeys).
    assert (Hjn : (j < n)%nat) by (apply Hlt; by eapply list_elem_of_lookup_2).
    split; simpl.
    + by rewrite length_insert.
    + intros i Hi. rewrite list_lookup_insert_ne by lia. apply Hrest. lia.
    + by rewrite length_insert.
    + intros q j' Hq. destruct (decide (q = p)) as [->|Hne].
      * assert (j' = j) by congruence. subst j'.
        rewrite !list_lookup_insert_eq; [done| |].
        -- by eapply lookup_lt_Some.
        -- by eapply lookup_lt_Some.
      * assert (j' ≠ j).
        { intros ->. apply Hne. by eapply NoDup_lookup. }
        rewrite !list_lookup_insert_ne by done. by apply Hkept.
    + intros k j'. rewrite Hseen. split.
      * intros (q & c' & Hq & Hc' & Hk').
        destruct (decide (q = p)) as [->|Hne].
        -- exists p, (merge_tool c r). rewrite list_lookup_insert_eq
             by (by eapply lookup_lt_Some).
           rewrite key_merge. split; [done|]. split; [done|]. congruence.
        -- exists q, c'. by rewrite list_lookup_insert_ne.
      * intros (q & c' & Hq & Hc' & Hk').
        destruct (decide (q = p)) as [->|Hne].
        -- rewrite list_lookup_insert_eq in Hc' by (by eapply lookup_lt_Some).
           inversion Hc'; subst c'. rewrite key_merge in Hk'.
           exists p, c. done.
        -- rewrite list_lookup_insert_ne in Hc' by done. exists q, c'. done.
    + rewrite <- (insert_by_hit acc r p c Hc Hk Hkeys).
      by apply insert_by_keys_NoDup.
    + intros j' Hj'. specialize (Hlt _ Hj'). lia.
    + done.
  - (* a new key: register position n *)
    simpl.
    assert (Hmiss : ∀ c, c ∈ acc → key_of c ≠ key_of r).
    { intros c Hc E. apply list_elem_of_lookup_1 in Hc as [p Hp].
      assert (is_Some (kept !! p)) as [j Hj].
      { apply lookup_lt_is_Some. rewrite Hsize. by eapply lookup_lt_Some. }
      assert (seen st !! key_of r = Some j) as Hs'.
      { apply Hseen. exists p, c. done. }
      congruence. }
    rewrite (insert_by_miss acc r Hmiss).
    split; simpl.
    + done.
    + intros i Hi. apply Hrest. lia.
    + rewrite !length_app. simpl. lia.
    + intros p j Hp.
      destruct (decide (p < length kept)%nat) as [Hlt'|Hge].
      * rewrite lookup_app_l in Hp by done.
        rewrite lookup_app_l by lia. by apply Hkept.
      * rewrite lookup_app_r in Hp by lia.
        rewrite lookup_app_r by lia. rewrite <- Hsize.
        destruct (p - length kept)%nat; [|done].
        simpl in *. inversion Hp; subst. done.
    + intros k j. rewrite lookup_insert. case_decide as Hk.
      * subst k. split.
        -- intros [= <-]. exists (length kept), r.
           rewrite lookup_app_r by lia. rewrite Nat.sub_diag.
           rewrite lookup_app_r by lia. rewrite Hsize, Nat.sub_diag. done.
        -- intros (p & c & Hp & Hc & Hkc).
           destruct (decide (p < length kept)%nat) as [Hlt'|Hge].
           ++ rewrite lookup_app_l in Hc by lia.
              exfalso. eapply Hmiss; [|exact Hkc].
              by eapply list_elem_of_lookup_2.
           ++ rewrite lookup_app_r in Hp by lia.
              destruct (p - length kept)%nat; [|done]. simpl in Hp. congruence.
      * rewrite Hseen. split.
        -- intros (p & c & Hp & Hc & Hkc). exists p, c.
           rewrite !lookup_app_l; [done| |]; by eapply lookup_lt_Some.
        -- intros (p & c & Hp & Hc & Hkc).
           destruct (decide (p < length kept)%nat) as [Hlt'|Hge].
           ++ rewrite lookup_app_l in Hp by lia.
              rewrite lookup_app_l in Hc by lia. by exists p, c.
           ++ rewrite lookup_app_r in Hc by lia. rewrite <- Hsize in Hc.
              destruct (p - length kept)%nat; [|done]. simpl in Hc.
              inversion Hc; subst c. congruence.
    + rewrite <- (insert_by_miss acc r Hmiss). by apply insert_by_keys_NoDup.
    + intros j Hj. apply elem_of_app in Hj as [Hj|Hj].
      * specialize (Hlt _ Hj). lia.
      * apply list_elem_of_singleton in Hj. lia.
    + apply NoDup_app. split; [done|]. split; [|apply NoDup_singleton].
      intros j Hj Hj'. apply list_elem_of_singleton in Hj'. subst.
      specialize (Hlt _ Hj). lia.
Qed.

Lemma Inv_loop l k : ∀ n st kept acc,
  (n + k = length l)%nat → Inv l n st kept acc →
  Inv l (n + k) (snd (filter_loop (seq n k) st))
      (kept ++ fst (filter_loop (seq n k) st))
      (fold_left insert_by (drop n l) acc).
Proof.
  induction k as [|k IH]; intros n st kept acc Hk HI; simpl.
  - rewrite app_nil_r, Nat.add_0_r. rewrite drop_ge by lia. done.
  - assert (is_Some (l !! n)) as [r Hr] by (apply lookup_lt_is_Some; lia).
    pose proof (Inv_step _ _ _ _ _ _ HI Hr) as HS.
    destruct (callback n st) as [keep st1]. simpl in HS.
    specialize (IH (S n) st1 _ _ ltac:(lia) HS).
    destruct (filter_loop (seq (S n) k) st1) as [kept' st2]. simpl in *.
    rewrite (drop_S _ _ _ Hr). simpl.
    replace (n + S k)%nat with (S n + k)%nat by lia.
    destruct keep; simpl in *; [rewrite <- app_assoc in IH|rewrite app_nil_r in IH]; done.
Qed.

Lemma Inv_read l n st kept acc :
  Inv l n st kept acc → omap (λ i, heap st !! i) kept = acc.
Proof.
  intros [_ _ Hsize Hkept _ _ _ _].
  revert acc Hsize Hkept. induction kept as [|j kept IH]; intros acc Hsize Hkept.
  - destruct acc; [done|discriminate].
  - destruct acc as [|c acc]; [discriminate|]. simpl.
    rewrite (Hkept 0%nat j eq_refl). simpl. f_equal.
    apply IH; [simpl in Hsize; lia|].
    intros p j' Hp. apply (Hkept (S p) j' Hp).
Qed.

(** The loop over the store computes the store-free fold. *)
Lemma deduplicateResults_fold l : deduplicateResults l = dedupe_fold l.
Proof.
  unfold deduplicateResults, deduplicateResults_store.
  pose proof (Inv_loop l (length l) 0 (mkStore l ∅) [] [] eq_refl (Inv_init l)) as H.
  destruct (filter_loop _ _) as [kept st]. simpl in *.
  eapply Inv_read. exact H.
Qed.

Lemma key3_key_of a b : key3 a = key3 b → key_of a = key_of b.
Proof. unfold key3, key_of. intros [= -> -> ->]. done. Qed.

Lemma insert_agree acc r :
  (∀ c, c ∈ acc → key_of c = key_of r → key3 c = key3 r) →
  insert_by acc r = insert_spec acc r.
Proof.
  induction acc as [|c acc IH]; intros H; simpl; [done|].
  destruct (String.eqb_spec (key_of c) (key_of r)) as [E|NE].
  - rewrite decide_True; [done|]. apply H; [left|done].
  - rewrite decide_False.
    + f_equal. apply IH. intros c' Hc'. apply H. by right.
    + intros E3. apply NE. by apply key3_key_of.
Qed.

Lemma insert_spec_keys acc r c' :
  c' ∈ insert_spec acc r →
  ∃ c, c ∈ acc ++ [r] ∧ key_of c' = key_of c ∧ key3 c' = key3 c.
Proof.
  induction acc as [|a acc IH]; simpl.
  - intros H. apply list_elem_of_singleton in H as ->. exists r.
    split; [left|done].
  - case_decide as E.
    + intros H. apply elem_of_cons in H as [->|H].
      * exists a. rewrite key_merge, key3_merge. split; [left|done].
      * exists c'. split; [right; apply elem_of_app; by left|done].
    + intros H. apply elem_of_cons in H as [->|H].
      * exists a. split; [left|done].
      * destruct (IH H) as (c & Hc & Hk). exists c. split; [by right|done].
Qed.

Lemma fold_agree l : ∀ acc,
  (∀ a b, a ∈ acc ++ l → b ∈ acc ++ l → key_of a = key_of b → key3 a = key3 b) →
  fold_left insert_by l acc = fold_left insert_spec l acc.
Proof.
  induction l as [|r l IH]; intros acc H; simpl; [done|].
  rewrite insert_agree.
  - apply IH. intros a b Ha Hb.
    assert (Hin : ∀ x, x ∈ insert_spec acc r ++ l →
              ∃ y, y ∈ acc ++ r :: l ∧ key_of x = key_of y ∧ key3 x = key3 y).
    { intros x Hx. apply elem_of_app in Hx as [Hx|Hx].
      - destruct (insert_spec_keys _ _ _ Hx) as (y & Hy & Hk).
        exists y. split; [|done].
        apply elem_of_app in Hy as [Hy|Hy]; apply elem_of_app.
        + by left.
        + right. apply list_elem_of_singleton in Hy as ->. left.
      - exists x. split; [|done]. apply elem_of_app. right. by right. }
    destruct (Hin a Ha) as (a' & Ha' & Eka & E3a).
    destruct (Hin b Hb) as (b' & Hb' & Ekb & E3b).
    rewrite Eka, Ekb, E3a, E3b. by apply H.
  - intros c Hc. apply H.
    + apply elem_of_app. by left.
    + apply elem_of_app. right. left.
Qed.

(** Away from key collisions the source computes what the specification
    words. *)
Lemma deduplicateResults_spec_collision_free l :
  collision_free l → deduplicateResults l = dedupe_spec l.
Proof.
  intros H. rewrite deduplicateResults_fold. apply fold_agree. exact H.
Qed.

End DedupFacts.

(** C2.  The deduplicator keys findings by the text of
    [file:line:type], not by the triple (file, line, category).  Two
    findings of one Semgrep report that differ in file, line and category
    but whose keys have the same text are collapsed: the second finding is
    dropped, where the claim keeps one canonical record per triple. *)
Theorem C2_key_collision_merges_distinct_findings :
  Parse.parseSemgrepData (Some Sample.colliding_report) = Sample.colliding_findings ∧
  Dedup.dedupe_spec Sample.colliding_findings = Sample.colliding_findings ∧
  Dedup.deduplicateResults Sample.colliding_findings =
    [ mkFinding "Semgrep" "CRITICAL" "x" "a:1" 2 ] ∧
  Dedup.deduplicateResults Sample.colliding_findings ≠
    Dedup.dedupe_spec Sample.colliding_findings.
Proof.
  split; [vm_compute; reflexivity|].
  split; [vm_compute; reflexivity|].
  split; [vm_compute; reflexivity|].
  vm_compute. discriminate.
Qed.

(** C3.  Deduplication is idempotent: deduplicating an already
    deduplicated list returns it unchanged. *)
Theorem C3_dedupe_idempotent (l : list Finding) :
  Dedup.deduplicateResults (Dedup.deduplicateResults l) = Dedup.deduplicateResults l.
Proof.
  rewrite !deduplicateResults_fold. apply dedupe_fold_idempotent.
Qed.

(** ** Subprocess supervision *)

Section ExecFacts.

Import Exec.

Lemma append_cons (c : ascii) (s t : string) :
  String c s +:+ t = String c (s +:+ t).
Proof. reflexivity. Qed.

Lemma append_nil_l (s : string) : "" +:+ s = s.
Proof. reflexivity. Qed.

Lemma append_nil_r (s : string) : s +:+ "" = s.
Proof. induction s as [|c s IH]; [done|]. by rewrite append_cons, IH. Qed.

Lemma append_assoc (a b c : string) : (a +:+ b) +:+ c = a +:+ (b +:+ c).
Proof. induction a as [|x a IH]; [done|]. by rewrite !append_cons, IH. Qed.

(** A settled promise stays as it is. *)
Lemma step_settled st e :
  promise st ≠ Pending → promise (step st e) = promise st.
Proof.
  intros H. destruct e; simpl; try done.
  - destruct (promise st); done.
  - destruct (timedOut st); [done|].
    repeat case_match; destruct (promise st); done.
  - destruct (timerSet st); simpl; [|done]. destruct (promise st); done.
Qed.

Lemma fold_settled events : ∀ st,
  promise st ≠ Pending → promise (fold_left step events st) = promise st.
Proof.
  induction events as [|e events IH]; intros st H; simpl; [done|].
  rewrite IH; rewrite step_settled; done.
Qed.

Lemma step_signals st e x : x ∈ signals st → x ∈ signals (step st e).
Proof.
  intros H. destruct e; simpl; try done.
  destruct (timerSet st); simpl; [|done]. apply elem_of_app. by left.
Qed.

Lemma fold_signals events : ∀ st x,
  x ∈ signals st → x ∈ signals (fold_left step events st).
Proof.
  induction events as [|e events IH]; intros st x H; simpl; [done|].
  apply IH. by apply step_signals.
Qed.

Lemma step_expired st e : expired st → expired (step st e).
Proof.
  intros [Hp Hs]. split.
  - rewrite step_settled; [done|]. by rewrite Hp.
  - by apply step_signals.
Qed.

Lemma fold_expired events : ∀ st, expired st → expired (fold_left step events st).
Proof.
  induction events as [|e events IH]; intros st H; simpl; [done|].
  apply IH. by apply step_expired.
Qed.

Lemma timer_expires st : untouched st → expired (step st TimerFired).
Proof.
  intros (Hp & Ht & _). simpl. rewrite Ht. simpl. rewrite Hp. split; [done|].
  simpl. apply elem_of_app. right. left.
Qed.

Lemma fold_still_running events : ∀ st,
  still_running events → untouched st ∨ expired st →
  untouched (fold_left step events st) ∨ expired (fold_left step events st).
Proof.
  induction events as [|e events IH]; intros st Hr H; simpl; [done|].
  inversion Hr as [|? ? He Hr']; subst. apply IH; [done|].
  destruct H as [H|H]; [|right; by apply step_expired].
  destruct e; try done.
  - left. destruct H as (? & ? & ?). done.
  - left. destruct H as (? & ? & ?). done.
  - right. by apply timer_expires.
Qed.

Lemma initial_untouched : untouched initial.
Proof. done. Qed.

(** The timer expiring on a running child settles the run. *)
Lemma run_timeout pre post :
  still_running pre → expired (run (pre ++ TimerFired :: post)).
Proof.
  intros Hr. unfold run. apply step_expired.
  rewrite fold_left_app. cbn [fold_left]. apply fold_expired.
  destruct (fold_still_running pre initial Hr (or_introl initial_untouched)) as [H|H].
  - by apply timer_expires.
  - by apply step_expired.
Qed.

Lemma settle_not_pending p new : new ≠ Pending → settle p new ≠ Pending.
Proof. destruct p; done. Qed.

Lemma step_disarmed st e :
  settled_when_disarmed st → settled_when_disarmed (step st e).
Proof.
  intros [H1 H2]. unfold settled_when_disarmed.
  destruct e; simpl; repeat case_match; simpl; split; intros;
    try (apply settle_not_pending; done); eauto; congruence.
Qed.

Lemma fold_disarmed events : ∀ st,
  settled_when_disarmed st → settled_when_disarmed (fold_left step events st).
Proof.
  induction events as [|e events IH]; intros st H; simpl; [done|].
  apply IH. by apply step_disarmed.
Qed.

(** Every run settles: [await] returns. *)
Lemma run_settled events : executeCommand events ≠ Pending.
Proof.
  unfold executeCommand, run.
  assert (H : settled_when_disarmed (fold_left step events initial)).
  { apply fold_disarmed. split; simpl; done. }
  destruct H as [H _]. revert H.
  generalize (fold_left step events initial). intros st H. simpl.
  destruct (timerSet st) eqn:Ht; simpl.
  - by apply settle_not_pending.
  - by apply H.
Qed.

Lemma fold_only_data chunks : ∀ st,
  only_data chunks → untouched st →
  untouched (fold_left step chunks st) ∧
  output (fold_left step chunks st) = output st +:+ stdout_of chunks ∧
  errorOutput (fold_left step chunks st) = errorOutput st +:+ stderr_of chunks ∧
  signals (fold_left step chunks st) = signals st.
Proof.
  induction chunks as [|e chunks IH]; intros st Hd Hu; simpl.
  - by rewrite !append_nil_r.
  - inversion Hd as [|? ? He Hd']; subst.
    destruct e; try done; simpl.
    + destruct (IH (step st (StdoutData chunk)) Hd') as (A & B & C & D).
      { destruct Hu as (? & ? & ?). done. }
      simpl in *. rewrite B, C, D, append_assoc. done.
    + destruct (IH (step st (StderrData chunk)) Hd') as (A & B & C & D).
      { destruct Hu as (? & ? & ?). done. }
      simpl in *. rewrite B, C, D, append_assoc. done.
Qed.

(** A child that writes, then closes with a code other than 0 while the
    timer is still set. *)
Lemma run_nonzero_exit chunks code post :
  only_data chunks → code ≠ Some 0 →
  executeCommand (chunks ++ Close code :: post) =
    if JS.truthy (stdout_of chunks) then Resolved (stdout_of chunks)
    else Rejected (ExecutionFailure code (stderr_of chunks)).
Proof.
  intros Hd Hc. unfold executeCommand, run.
  rewrite fold_left_app. cbn [fold_left].
  destruct (fold_only_data chunks initial Hd initial_untouched)
    as ((Hp & Ht & Hto) & Ho & He & _).
  simpl in Ho, He. rewrite append_nil_l in Ho, He.
  set (st := fold_left step chunks initial) in *.
  assert (Hs : promise (step st (Close code)) =
    if JS.truthy (stdout_of chunks) then Resolved (stdout_of chunks)
    else Rejected (ExecutionFailure code (stderr_of chunks))).
  { simpl. rewrite Hto, Hp, Ho, He. rewrite bool_decide_false by done.
    destruct (JS.truthy (stdout_of chunks)); done. }
  rewrite step_settled; rewrite fold_settled; rewrite Hs;
    destruct (JS.truthy (stdout_of chunks)); done.
Qed.

Lemma truthy_nonempty s : JS.truthy s = true ↔ s ≠ "".
Proof. destruct s; simpl; split; done. Qed.

End ExecFacts.

(** C7.  When the timer expires while the child is still running (no
    ['close'] and no ['error'] event came before), [executeCommand] sends
    SIGTERM to the child and rejects with ExecutionTimeout whatever the
    child does afterwards, and the tool run built on it ([runSemgrep],
    [runTrivy], [runODC], and the orchestrator's dispatch on a host that
    does not simulate) returns no finding. *)
Theorem C7_timeout_terminates_and_yields_nothing
    (pre post : list Exec.ProcEvent) :
  Exec.still_running pre →
  let events := pre ++ Exec.TimerFired :: post in
  Exec.executeCommand events = Exec.Rejected Exec.ExecutionTimeout ∧
  "SIGTERM" ∈ Exec.signals (Exec.run events) ∧
  ∀ (w : World) (i : nat) (targetPath : string),
    tool_proc w i = events →
    (WSL2Bridge.isAvailable w = true →
       WSL2Bridge.runSemgrep w i targetPath = Ok [] ∧
       WSL2Bridge.runTrivy w i targetPath = Ok []) ∧
    (ODCBridge.isAvailable w = true →
       ODCBridge.runODC w i targetPath = Ok []) ∧
    (MOCK_WSL2 w = false → ∀ st,
       Orchestrator.run_tool w (host_bridges w) "Semgrep" i targetPath st = (Ok [], st) ∧
       Orchestrator.run_tool w (host_bridges w) "Trivy" i targetPath st = (Ok [], st)).
Proof.
  intros Hr events.
  destruct (run_timeout pre post Hr) as [Hp Hs].
  split; [exact Hp|]. split; [exact Hs|].
  intros w i targetPath Hw.
  assert (He : Exec.executeCommand (tool_proc w i) = Exec.Rejected Exec.ExecutionTimeout)
    by (rewrite Hw; exact Hp).
  split; [|split].
  - intros Ha. unfold WSL2Bridge.runSemgrep, WSL2Bridge.runTrivy.
    rewrite Ha, He. done.
  - intros Ha. unfold ODCBridge.runODC. rewrite Ha, He. simpl.
    by destruct (existsSync w targetPath).
  - intros Hm st.
    unfold Orchestrator.run_tool, Orchestrator.runSemgrepWithRealTime,
      Orchestrator.runTrivyWithRealTime, Orchestrator.runSemgrep,
      Orchestrator.runTrivy. simpl. rewrite Hm.
    unfold WSL2Bridge.runSemgrep, WSL2Bridge.runTrivy. rewrite He.
    destruct (WSL2Bridge.isAvailable w); done.
Qed.

Lemma C7_witness :
  Exec.executeCommand
    ([Exec.StdoutData "{"] ++ Exec.TimerFired :: [Exec.Close None]) =
    Exec.Rejected Exec.ExecutionTimeout.
Proof.
  refine (proj1 (C7_timeout_terminates_and_yields_nothing
                   [Exec.StdoutData "{"] [Exec.Close None] _)).
  repeat constructor.
Defined.

(** C8.  When the child writes its output and then closes with a non-zero
    exit code before the timer expires, [executeCommand] resolves with the
    collected stdout if and only if that stdout is not empty, and otherwise
    rejects with ExecutionFailure carrying the code and stderr; on success
    the bridge parses that stdout for findings. *)
Theorem C8_nonzero_exit_succeeds_iff_output
    (chunks post : list Exec.ProcEvent) (code : Z) :
  Exec.only_data chunks → code ≠ 0 →
  let events := chunks ++ Exec.Close (Some code) :: post in
  let stdout := Exec.stdout_of chunks in
  ((∃ out, Exec.executeCommand events = Exec.Resolved out) ↔ stdout ≠ "") ∧
  (stdout ≠ "" → Exec.executeCommand events = Exec.Resolved stdout) ∧
  (stdout = "" →
     Exec.executeCommand events =
       Exec.Rejected (Exec.ExecutionFailure (Some code) (Exec.stderr_of chunks))) ∧
  ∀ (w : World) (i : nat) (targetPath : string),
    tool_proc w i = events → WSL2Bridge.isAvailable w = true → stdout ≠ "" →
    WSL2Bridge.runSemgrep w i targetPath = Ok (WSL2Bridge.parseSemgrepOutput w stdout) ∧
    WSL2Bridge.runTrivy w i targetPath = Ok (WSL2Bridge.parseTrivyOutput w stdout).
Proof.
  intros Hd Hc events stdout.
  assert (Hrun := run_nonzero_exit chunks (Some code) post Hd
                    ltac:(intros [= ->]; done)).
  fold events stdout in Hrun.
  assert (Hyes : stdout ≠ "" → Exec.executeCommand events = Exec.Resolved stdout).
  { intros Hne. rewrite Hrun. apply truthy_nonempty in Hne. by rewrite Hne. }
  assert (Hno : stdout = "" → Exec.executeCommand events =
            Exec.Rejected (Exec.ExecutionFailure (Some code) (Exec.stderr_of chunks))).
  { intros He. rewrite Hrun, He. done. }
  split; [|split; [exact Hyes|split; [exact Hno|]]].
  - split.
    + intros [out Hout] He. rewrite (Hno He) in Hout. discriminate.
    + intros Hne. exists stdout. by apply Hyes.
  - intros w i targetPath Hw Ha Hne.
    unfold WSL2Bridge.runSemgrep, WSL2Bridge.runTrivy.
    rewrite Ha, Hw, (Hyes Hne). done.
Qed.

Lemma C8_witness :
  Exec.executeCommand
    ([Exec.StderrData "warn"; Exec.StdoutData Sample.trivy_stdout]
       ++ Exec.Close (Some 1) :: []) =
    Exec.Resolved Sample.trivy_stdout.
Proof.
  refine (proj1 (proj2 (C8_nonzero_exit_succeeds_iff_output
            [Exec.StderrData "warn"; Exec.StdoutData Sample.trivy_stdout] [] 1 _ _)) _).
  - repeat constructor.
  - lia.
  - vm_compute. discriminate.
Defined.

(** ** Severity normalisation *)

Section ParseFacts.

Import Parse.

Lemma table_get_in table k v :
  table_get table k = Some v → v ∈ map snd table.
Proof.
  induction table as [|[k' v'] table IH]; simpl; [done|].
  destruct (String.eqb k' k).
  - intros [= ->]. left.
  - intros H. right. by apply IH.
Qed.

Lemma mapSemgrepSeverity_canonical sev :
  canonical_severity (mapSemgrepSeverity sev) = true.
Proof.
  unfold mapSemgrepSeverity, JS.or_else.
  destruct (table_get _ _) as [v|] eqn:E; [|done].
  apply table_get_in in E. simpl in E.
  repeat (apply elem_of_cons in E as [->|E]; [done|]).
  by apply elem_of_nil in E.
Qed.

Lemma mapODCSeverity_canonical sev :
  canonical_severity (mapODCSeverity sev) = true.
Proof.
  unfold mapODCSeverity, JS.or_else.
  destruct sev as [s|]; [|done].
  destruct (JS.truthy s); [|done].
  destruct (table_get _ _) as [v|] eqn:E; [|done].
  apply table_get_in in E. simpl in E.
  repeat (apply elem_of_cons in E as [->|E]; [done|]).
  by apply elem_of_nil in E.
Qed.

(** Every finding of the Semgrep parser has a canonical severity. *)
Lemma parseSemgrepData_canonical data f :
  f ∈ parseSemgrepData data → canonical_severity (severity f) = true.
Proof.
  unfold parseSemgrepData. destruct data as [d|]; [|by intros ?%elem_of_nil].
  destruct (sg_results d) as [rs|]; [|by intros ?%elem_of_nil].
  intros (r & -> & _)%list_elem_of_fmap. apply mapSemgrepSeverity_canonical.
Qed.

Lemma elem_of_concat {A} (x : A) (ls : list (list A)) :
  x ∈ concat ls → ∃ l, x ∈ l ∧ l ∈ ls.
Proof.
  induction ls as [|l ls IH]; simpl; [by intros ?%elem_of_nil|].
  intros [H|H]%elem_of_app.
  - exists l. split; [done|left].
  - destruct (IH H) as (l' & ? & ?). exists l'. split; [done|by right].
Qed.

(** Every finding of the ODC parser has a canonical severity. *)
Lemma parseODCData_canonical data f :
  f ∈ parseODCData data → canonical_severity (severity f) = true.
Proof.
  unfold parseODCData. destruct data as [d|]; [|by intros ?%elem_of_nil].
  destruct (odc_dependencies d) as [deps|]; [|by intros ?%elem_of_nil].
  intros (l & Hl & Hf)%elem_of_concat.
  apply list_elem_of_fmap in Hf as (dep & -> & _).
  destruct (odc_vulnerabilities dep) as [vs|]; [|by apply elem_of_nil in Hl].
  apply list_elem_of_fmap in Hl as (v & -> & _). apply mapODCSeverity_canonical.
Qed.

End ParseFacts.

(** C9.  The Semgrep and ODC parsers map every native severity into the
    five canonical levels, but the Trivy parser only upper-cases the
    native severity: a Trivy record whose severity is UNKNOWN yields a
    finding whose severity is UNKNOWN, which is none of the five. *)
Theorem C9_trivy_severity_is_not_normalised :
  Parse.parseTrivyData (Some Sample.trivy_unknown_severity) =
    [ mkFinding "Trivy" "UNKNOWN" "Vulnerable Dependency"
        "scanvault\temp\package-lock.json" 0 ] ∧
  Parse.canonical_severity "UNKNOWN" = false ∧
  ¬ (∀ data f, f ∈ Parse.parseTrivyData data →
               Parse.canonical_severity (severity f) = true).
Proof.
  split; [vm_compute; reflexivity|]. split; [vm_compute; reflexivity|].
  intros H.
  specialize (H (Some Sample.trivy_unknown_severity)
                (mkFinding "Trivy" "UNKNOWN" "Vulnerable Dependency"
                   "scanvault\temp\package-lock.json" 0)).
  assert (E : Parse.canonical_severity "UNKNOWN" = true).
  { apply H. vm_compute. left. }
  vm_compute in E. discriminate.
Qed.

(** ** Target resolution *)

Section ResolverFacts.

Import Resolver.

Lemma isDirectScan_Some w targetId p :
  mappings w !! targetId = Some p → FolderRegistry.isDirectScan w targetId = true.
Proof. intros H. unfold FolderRegistry.isDirectScan. rewrite H. done. Qed.

Lemma isDirectScan_None w targetId :
  mappings w !! targetId = None → FolderRegistry.isDirectScan w targetId = false.
Proof.
  intros H. unfold FolderRegistry.isDirectScan. rewrite H.
  apply bool_decide_false. by intros [? ?].
Qed.

Lemma resolveTargetPath_resolves w targetId :
  resolves w targetId (resolveTargetPath w targetId).
Proof.
  unfold resolveTargetPath.
  destruct (mappings w !! targetId) as [p|] eqn:Hm.
  - rewrite (isDirectScan_Some _ _ _ Hm). unfold FolderRegistry.getPath.
    rewrite Hm. destruct p as [|c p]; simpl.
    + by apply res_registered_empty.
    + by apply res_registered.
  - rewrite (isDirectScan_None _ _ Hm).
    destruct (path_isAbsolute w targetId) eqn:Ha; [by apply res_absolute|].
    destruct (uuidRegex_test targetId) eqn:Hu; [by apply res_uuid|].
    destruct (has_separator targetId) eqn:Hs; [by apply res_relative|].
    destruct (existsSync w (path_join w (tempDir w) targetId)) eqn:Ht;
      [by apply res_staged|].
    destruct (existsSync w (path_resolve w targetId)) eqn:Hl;
      [by apply res_local|by apply res_default].
Qed.

Lemma resolves_unique w targetId r :
  resolves w targetId r → r = resolveTargetPath w targetId.
Proof.
  intros H. unfold resolveTargetPath.
  destruct H as [p Hm Hp|Hm|Hm Ha|Hm Ha Hu|Hm Ha Hu Hs|Hm Ha Hu Hs Ht
                |Hm Ha Hu Hs Ht Hl|Hm Ha Hu Hs Ht Hl];
    try (rewrite (isDirectScan_None _ _ Hm));
    try (rewrite (isDirectScan_Some _ _ _ Hm); unfold FolderRegistry.getPath;
         rewrite Hm);
    try rewrite Ha; try rewrite Hu; try rewrite Hs; try rewrite Ht;
    try rewrite Hl; try done.
  destruct p; done.
Qed.

End ResolverFacts.

(** C5 as stated fails: an identifier with a path separator that is
    neither registered, absolute nor UUID-shaped is resolved against the
    working directory although the staging root holds a directory of that
    name. *)
Lemma C5_relative_path_skips_staging_root :
  existsSync (Sample.windows_host false)
    (path_join (Sample.windows_host false)
       (Resolver.tempDir (Sample.windows_host false)) "sub/dir") = true ∧
  Resolver.resolveTargetPath (Sample.windows_host false) "sub/dir" =
    Some "C:\scanvault\backend\sub\dir" ∧
  ¬ Resolver.spec_priority (Sample.windows_host false) "sub/dir".
Proof.
  split; [vm_compute; reflexivity|]. split; [vm_compute; reflexivity|].
  intros (_ & _ & _ & H).
  specialize (H eq_refl eq_refl eq_refl). vm_compute in H. discriminate.
Qed.

(** C5, amended.  [resolveTargetPath] takes the first branch that applies:
    a registered id gives the registered path (null when that path is
    empty); an absolute id is returned as it is; a UUID-shaped id is joined
    to the staging root; any other id with a path separator is resolved
    against the working directory without a look at the staging root; any
    other plain name gives its staging path if that exists, else its
    working-directory path if that exists, else its staging path.  The
    result is the only one this order allows. *)
Theorem C5_resolution_priority (w : World) (targetId : string)
    (r : option string) :
  Resolver.resolves w targetId r ↔ Resolver.resolveTargetPath w targetId = r.
Proof.
  split.
  - intros H. symmetry. by apply resolves_unique.
  - intros <-. apply resolveTargetPath_resolves.
Qed.

(** ** Numbers *)

Section DoubleFacts.

Import Double.

Local Open Scope Q_scope.

Lemma pow2_pos (e : Z) : 0 < 2 ^ e.
Proof. by apply Qpower_0_lt. Qed.

Lemma pow2_plus (a b : Z) : 2 ^ (a + b) == 2 ^ a * 2 ^ b.
Proof. by apply Qpower_plus. Qed.

Lemma pow2_succ (e : Z) : 2 ^ (e + 1) == 2 * 2 ^ e.
Proof. rewrite pow2_plus. simpl. lra. Qed.

Lemma pow2_le (a b : Z) : (a <= b)%Z → 2 ^ a <= 2 ^ b.
Proof. intros H. apply Qpower_le_compat_l; [done|lra]. Qed.

Lemma pow2_inject (n : Z) : (0 <= n)%Z → inject_Z (2 ^ n) == 2 ^ n.
Proof. intros H. by rewrite Zpower_Qpower. Qed.

(** The ends of a binade. *)
Lemma exponent_spec (x : Q) :
  0 < x → 2 ^ exponent x <= x ∧ x < 2 ^ (exponent x + 1).
Proof.
  intros Hx. unfold exponent.
  destruct x as [n d]. simpl Qnum. simpl Qden.
  assert (Hn : (0 < n)%Z) by (unfold Qlt in Hx; simpl in Hx; lia).
  set (a := Z.log2 n). set (b := Z.log2 (Z.pos d)).
  assert (Ha : (2 ^ a <= n < 2 ^ (a + 1))%Z).
  { pose proof (Z.log2_spec n Hn). unfold a. rewrite <- Z.add_1_r in *. lia. }
  assert (Hb : (2 ^ b <= Z.pos d < 2 ^ (b + 1))%Z).
  { pose proof (Z.log2_spec (Z.pos d) ltac:(lia)). unfold b.
    rewrite <- Z.add_1_r in *. lia. }
  assert (Ha0 : (0 <= a)%Z) by apply Z.log2_nonneg.
  assert (Hb0 : (0 <= b)%Z) by apply Z.log2_nonneg.
  assert (Hnq : n # d == inject_Z n / inject_Z (Z.pos d)) by apply Qmake_Qdiv.
  assert (Hd : 0 < inject_Z (Z.pos d)) by (unfold Qlt; simpl; lia).
  assert (A1 : 2 ^ a <= inject_Z n).
  { rewrite <- pow2_inject by done. rewrite <- Zle_Qle. lia. }
  assert (A2 : inject_Z n < 2 ^ (a + 1)).
  { rewrite <- pow2_inject by lia. rewrite <- Zlt_Qlt. lia. }
  assert (B1 : 2 ^ b <= inject_Z (Z.pos d)).
  { rewrite <- pow2_inject by done. rewrite <- Zle_Qle. lia. }
  assert (B2 : inject_Z (Z.pos d) < 2 ^ (b + 1)).
  { rewrite <- pow2_inject by lia. rewrite <- Zlt_Qlt. lia. }
  rewrite pow2_succ in A2, B2.
  assert (Hx' : inject_Z n == (n # d) * inject_Z (Z.pos d)).
  { rewrite Hnq. field. lra. }
  pose proof (pow2_pos a) as Pa. pose proof (pow2_pos b) as Pb.
  pose proof (pow2_pos (a - b)) as Pab.
  assert (Hab : 2 ^ a == 2 ^ (a - b) * 2 ^ b).
  { rewrite <- pow2_plus. by replace (a - b + b)%Z with a by lia. }
  destruct (Qle_bool (2 ^ (a - b)) (n # d)) eqn:E.
  - apply Qle_bool_iff in E. split; [done|].
    rewrite pow2_succ.
    (* x * d = n < 2 * 2^a = 2 * 2^(a-b) * 2^b <= 2 * 2^(a-b) * d *)
    apply Qnot_le_lt. intros Hc.
    assert (2 * 2 ^ (a - b) * inject_Z (Z.pos d) <= (n # d) * inject_Z (Z.pos d)).
    { apply Qmult_le_compat_r; lra. }
    assert (2 * 2 ^ (a - b) * 2 ^ b <= 2 * 2 ^ (a - b) * inject_Z (Z.pos d)).
    { apply Qmult_le_l; lra. }
    lra.
  - assert (E' : n # d < 2 ^ (a - b)).
    { apply Qnot_le_lt. intros Hc. apply Qle_bool_iff in Hc. congruence. }
    replace (a - b - 1 + 1)%Z with (a - b)%Z by lia. split; [|done].
    assert (Hm : 2 ^ (a - b) == 2 * 2 ^ (a - b - 1)).
    { rewrite <- pow2_succ. by replace (a - b - 1 + 1)%Z with (a - b)%Z by lia. }
    pose proof (pow2_pos (a - b - 1)) as Pm.
    (* 2^(a-b-1) * d < 2^(a-b-1) * 2 * 2^b = 2^a <= n = x * d *)
    apply Qnot_lt_le. intros Hc.
    assert ((n # d) * inject_Z (Z.pos d) < 2 ^ (a - b - 1) * inject_Z (Z.pos d)).
    { apply Qmult_lt_compat_r; lra. }
    assert (2 ^ (a - b - 1) * inject_Z (Z.pos d) < 2 ^ (a - b - 1) * (2 * 2 ^ b)).
    { apply Qmult_lt_l; lra. }
    rewrite Hm in Hab. lra.
Qed.

Lemma nearest_even_bounds (q : Q) :
  inject_Z (nearest_even q) - (1 # 2) <= q ∧ q <= inject_Z (nearest_even q) + (1 # 2).
Proof.
  unfold nearest_even.
  pose proof (Qfloor_le q) as H1. pose proof (Qlt_floor q) as H2.
  rewrite inject_Z_plus in H2. change (inject_Z 1) with 1 in H2.
  destruct (Qcompare_spec (q - inject_Z (Qfloor q)) (1 # 2)) as [E|E|E];
    try destruct (Z.even (Qfloor q));
    rewrite ?inject_Z_plus; change (inject_Z 1) with 1; split; lra.
Qed.

Lemma nearest_even_mono (p q : Q) : p <= q → (nearest_even p <= nearest_even q)%Z.
Proof.
  intros Hpq.
  pose proof (Qfloor_resp_le _ _ Hpq) as Hf.
  destruct (Z.eq_dec (Qfloor p) (Qfloor q)) as [Heq|Hne].
  - unfold nearest_even. rewrite Heq.
    destruct (Qcompare_spec (p - inject_Z (Qfloor q)) (1 # 2)) as [E1|E1|E1];
      destruct (Qcompare_spec (q - inject_Z (Qfloor q)) (1 # 2)) as [E2|E2|E2];
      try (destruct (Z.even (Qfloor q))); try lia; exfalso; lra.
  - assert (Hlt : (Qfloor p + 1 <= Qfloor q)%Z) by lia.
    assert (H1 : (nearest_even p <= Qfloor p + 1)%Z).
    { unfold nearest_even. destruct (_ ?= _); try destruct (Z.even _); lia. }
    assert (H2 : (Qfloor q <= nearest_even q)%Z).
    { unfold nearest_even. destruct (_ ?= _); try destruct (Z.even _); lia. }
    lia.
Qed.

Lemma nearest_even_Z (n : Z) : nearest_even (inject_Z n) = n.
Proof.
  unfold nearest_even. rewrite Qfloor_Z.
  destruct (Qcompare_spec (inject_Z n - inject_Z n) (1 # 2)) as [E|E|E];
    [exfalso; lra|done|exfalso; lra].
Qed.

(** The significand of a positive number and what it rounds to. *)
Lemma significand_bounds (x : Q) :
  0 < x →
  let e := (exponent x - 52)%Z in
  2 ^ 52 <= x / 2 ^ e ∧ x / 2 ^ e < 2 ^ 53 ∧
  (2 ^ 52 <= nearest_even (x / 2 ^ e) <= 2 ^ 53)%Z.
Proof.
  intros Hx e. destruct (exponent_spec x Hx) as [H1 H2].
  pose proof (pow2_pos e) as Pe.
  assert (He1 : 2 ^ exponent x == 2 ^ 52 * 2 ^ e).
  { rewrite <- pow2_plus. by replace (52 + e)%Z with (exponent x) by (unfold e; lia). }
  assert (He2 : 2 ^ (exponent x + 1) == 2 ^ 53 * 2 ^ e).
  { rewrite <- pow2_plus. by replace (53 + e)%Z with (exponent x + 1)%Z by (unfold e; lia). }
  assert (A : 2 ^ 52 <= x / 2 ^ e).
  { apply Qle_shift_div_l; [done|]. lra. }
  assert (B : x / 2 ^ e < 2 ^ 53).
  { apply Qlt_shift_div_r; [done|]. lra. }
  split; [done|]. split; [done|]. split.
  - rewrite <- (nearest_even_Z (2 ^ 52)). apply nearest_even_mono.
    rewrite pow2_inject by done. done.
  - rewrite <- (nearest_even_Z (2 ^ 53)). apply nearest_even_mono.
    rewrite pow2_inject by done. lra.
Qed.

Lemma round_pos (x : Q) :
  0 < x → round x = inject_Z (nearest_even (x / 2 ^ (exponent x - 52))) * 2 ^ (exponent x - 52).
Proof.
  intros Hx. unfold round. destruct x as [[|n|n] d]; try done.
Qed.

Lemma round_zero (x : Q) : x == 0 → round x = 0.
Proof.
  intros Hx. unfold round. destruct x as [[|n|n] d]; try done.
Qed.

Lemma round_lower (x : Q) : 0 < x → 2 ^ exponent x <= round x.
Proof.
  intros Hx. rewrite round_pos by done.
  destruct (significand_bounds x Hx) as (_ & _ & Hm & _).
  pose proof (pow2_pos (exponent x - 52)) as Pe.
  assert (He1 : 2 ^ exponent x == 2 ^ 52 * 2 ^ (exponent x - 52)).
  { rewrite <- pow2_plus. by replace (52 + (exponent x - 52))%Z with (exponent x) by lia. }
  rewrite He1. apply Qmult_le_compat_r; [|lra].
  rewrite <- (pow2_inject 52) by done. by rewrite <- Zle_Qle.
Qed.

Lemma round_upper (x : Q) : 0 < x → round x <= 2 ^ (exponent x + 1).
Proof.
  intros Hx. rewrite round_pos by done.
  destruct (significand_bounds x Hx) as (_ & _ & _ & Hm).
  pose proof (pow2_pos (exponent x - 52)) as Pe.
  assert (He2 : 2 ^ (exponent x + 1) == 2 ^ 53 * 2 ^ (exponent x - 52)).
  { rewrite <- pow2_plus.
    by replace (53 + (exponent x - 52))%Z with (exponent x + 1)%Z by lia. }
  rewrite He2. apply Qmult_le_compat_r; [|lra].
  rewrite <- (pow2_inject 53) by done. by rewrite <- Zle_Qle.
Qed.

Lemma round_nonneg (x : Q) : 0 <= x → 0 <= round x.
Proof.
  intros Hx. destruct (Qlt_le_dec 0 x) as [Hp|Hz].
  - pose proof (round_lower x Hp). pose proof (pow2_pos (exponent x)). lra.
  - rewrite round_zero; [lra|]. lra.
Qed.

(** Rounding keeps the order. *)
Lemma round_mono (x y : Q) : 0 <= x → x <= y → round x <= round y.
Proof.
  intros Hx Hxy. destruct (Qlt_le_dec 0 x) as [Hp|Hz].
  2:{ rewrite (round_zero x) by lra. apply round_nonneg. lra. }
  assert (Hy : 0 < y) by lra.
  destruct (exponent_spec x Hp) as [X1 X2]. destruct (exponent_spec y Hy) as [Y1 Y2].
  assert (Hle : (exponent x <= exponent y)%Z).
  { destruct (Z_le_gt_dec (exponent x) (exponent y)) as [|Hgt]; [done|exfalso].
    pose proof (pow2_le (exponent y + 1) (exponent x) ltac:(lia)). lra. }
  destruct (Z.eq_dec (exponent x) (exponent y)) as [Heq|Hne].
  - rewrite !round_pos by done. rewrite Heq.
    pose proof (pow2_pos (exponent y - 52)) as Pe.
    apply Qmult_le_compat_r; [|lra]. rewrite <- Zle_Qle.
    apply nearest_even_mono. apply Qmult_le_compat_r; [done|].
    apply Qlt_le_weak. by apply Qinv_lt_0_compat.
  - pose proof (round_upper x Hp). pose proof (round_lower y Hy).
    pose proof (pow2_le (exponent x + 1) (exponent y) ltac:(lia)). lra.
Qed.

(** The relative error of rounding is at most [2^-53]. *)
Lemma round_error (x : Q) :
  0 <= x → round x - x <= x * 2 ^ (-53) ∧ x - round x <= x * 2 ^ (-53).
Proof.
  intros Hx. destruct (Qlt_le_dec 0 x) as [Hp|Hz].
  2:{ rewrite (round_zero x) by lra. assert (x == 0) as -> by lra. lra. }
  rewrite round_pos by done.
  destruct (exponent_spec x Hp) as [X1 _].
  set (e := (exponent x - 52)%Z) in *.
  pose proof (pow2_pos e) as Pe.
  pose proof (nearest_even_bounds (x / 2 ^ e)) as [N1 N2].
  assert (Hs : x == (x / 2 ^ e) * 2 ^ e) by (field; lra).
  assert (Hh : 2 ^ exponent x * 2 ^ (-53) == (1 # 2) * 2 ^ e).
  { rewrite <- pow2_plus. replace (exponent x + -53)%Z with (e + -1)%Z by (unfold e; lia).
    rewrite pow2_plus. assert (H1 : 2 ^ (-1) == 1 # 2) by reflexivity.
    rewrite H1. lra. }
  assert (Hb : (1 # 2) * 2 ^ e <= x * 2 ^ (-53)).
  { rewrite <- Hh. apply Qmult_le_compat_r; [done|]. apply Qlt_le_weak, pow2_pos. }
  set (m := inject_Z (nearest_even (x / 2 ^ e))) in *.
  set (s := x / 2 ^ e) in *.
  assert (M1 : (m - s) * 2 ^ e <= (1 # 2) * 2 ^ e) by (apply Qmult_le_compat_r; lra).
  assert (M2 : (s - m) * 2 ^ e <= (1 # 2) * 2 ^ e) by (apply Qmult_le_compat_r; lra).
  split; lra.
Qed.

End DoubleFacts.

(** ** The orchestrator *)

Section OrchestratorFacts.

Import Orchestrator.

Context (w : World) (b : Bridges).

Lemma bind_run {A B} (m : M A) (f : A → M B) (st : Orch) :
  (m ≫= f) st =
    match m st with
    | (Ok a, st') => f a st'
    | (Throw e, st') => (Throw e, st')
    end.
Proof. reflexivity. Qed.

Lemma coarse_values_app e1 e2 :
  coarse_values (e1 ++ e2) = coarse_values e1 ++ coarse_values e2.
Proof.
  induction e1 as [|e e1 IH]; simpl; [done|].
  destruct e; try done. destruct (coarse_message message); simpl; by rewrite IH.
Qed.

Lemma progress_values_app e1 e2 :
  progress_values (e1 ++ e2) = progress_values e1 ++ progress_values e2.
Proof.
  induction e1 as [|e e1 IH]; simpl; [done|].
  destruct e; simpl; by rewrite ?IH.
Qed.

Lemma found_not_coarse message :
  String.prefix "Found " message = true → coarse_message message = false.
Proof.
  destruct message as [|c message]; [done|].
  cbn [String.prefix]. destruct (ascii_dec "F" c) as [<-|]; [|done].
  reflexivity.
Qed.

Lemma fine_grained_coarse_values evs :
  forallb fine_grained evs = true → coarse_values evs = [].
Proof.
  induction evs as [|e evs IH]; [done|].
  cbn [forallb]. intros [He Hevs]%andb_prop.
  destruct e as [ct pc message| |]; cbn [coarse_values]; [|by apply IH|done].
  cbn [fine_grained] in He. rewrite (found_not_coarse _ He). by apply IH.
Qed.

Lemma fine_grained_elem evs ct pc message :
  forallb fine_grained evs = true → ProgressEvent ct pc message ∈ evs →
  String.prefix "Found " message = true.
Proof.
  intros H Hin. rewrite forallb_forall in H.
  apply (H (ProgressEvent ct pc message)). by apply list_elem_of_In.
Qed.

Lemma quiet_call r : quiet (call r) r.
Proof.
  intros st. exists [], (progress st). rewrite app_nil_r.
  destruct st; simpl. split; [done|]. split; [done|]. by left.
Qed.

Lemma quiet_ret fs : quiet (mret fs) (Ok fs).
Proof. apply (quiet_call (Ok fs)). Qed.

Lemma quiet_discover describe total vulns :
  (∀ v, String.prefix "Found " (describe v) = true) →
  (length vulns ≤ spread_floor)%nat →
  ∀ i, quiet (discover describe total i vulns) (Ok vulns).
Proof.
  intros Hd Hlen. revert Hlen. induction vulns as [|v vulns IH]; intros Hlen i.
  - apply quiet_ret.
  - intros st. cbn [discover].
    rewrite bind_run. cbn [sendVulnerability]. cbv beta iota.
    rewrite bind_run. cbn [sendProgress]. cbv beta iota. rewrite bind_run.
    cbn [results progress currentTool emitted].
    assert (Hlen' : (length vulns ≤ spread_floor)%nat) by (cbn [length] in Hlen; lia).
    destruct (IH Hlen' (S i) (mkOrch (results st) (percent (S i) total) (currentTool st)
      ((emitted st ++ [VulnerabilityEvent v (currentTool st) (length (results st) + 1)]) ++
       [ProgressEvent (currentTool st) (Math_round (percent (S i) total)) (describe v)])))
      as (evs & pc & Heq & Hc & _).
    cbn [results progress currentTool emitted] in Heq. rewrite Heq. cbv beta iota.
    eexists (_ :: _ :: evs), pc. split; [|split].
    + rewrite <- !app_assoc. reflexivity.
    + cbn [forallb fine_grained]. rewrite Hd, Hc. done.
    + right. by exists (v :: vulns).
Qed.

Lemma describe_semgrep v :
  String.prefix "Found "
    ("Found " +:+ severity v +:+ " vulnerability: " +:+ type v) = true.
Proof. destruct (severity v); reflexivity. Qed.

Lemma describe_trivy v :
  String.prefix "Found " ("Found dependency vulnerability: " +:+ type v) = true.
Proof. destruct (type v); reflexivity. Qed.

Lemma describe_odc v :
  String.prefix "Found " ("Found ODC vulnerability: " +:+ type v) = true.
Proof. destruct (type v); reflexivity. Qed.

Lemma mock_lists_fit :
  (length semgrep_vulnerabilities ≤ spread_floor)%nat ∧
  (length trivy_vulnerabilities ≤ spread_floor)%nat ∧
  (length odc_vulnerabilities ≤ spread_floor)%nat.
Proof.
  unfold spread_floor.
  cbn [length semgrep_vulnerabilities trivy_vulnerabilities odc_vulnerabilities].
  lia.
Qed.

Lemma quiet_mock_semgrep :
  quiet getMockedSemgrepResultsRealTime (Ok semgrep_vulnerabilities).
Proof.
  apply (quiet_discover _ _ _ describe_semgrep). apply mock_lists_fit.
Qed.

Lemma quiet_mock_trivy :
  quiet getMockedTrivyResultsRealTime (Ok trivy_vulnerabilities).
Proof.
  apply (quiet_discover _ _ _ describe_trivy). apply mock_lists_fit.
Qed.

Lemma quiet_mock_odc :
  quiet getMockedODCResultsRealTime (Ok odc_vulnerabilities).
Proof.
  apply (quiet_discover _ _ _ describe_odc). apply mock_lists_fit.
Qed.

Lemma run_tool_quiet tool i targetPath :
  ∃ r, quiet (run_tool w b tool i targetPath) r.
Proof.
  unfold run_tool.
  destruct (String.eqb tool "Semgrep").
  { unfold runSemgrepWithRealTime, runSemgrep.
    destruct (MOCK_WSL2 w); [eexists; exact quiet_mock_semgrep|].
    destruct (wsl2_isAvailable b); simpl.
    - eexists. apply quiet_call.
    - eexists. apply quiet_ret. }
  destruct (String.eqb tool "Trivy").
  { unfold runTrivyWithRealTime, runTrivy.
    destruct (MOCK_WSL2 w); [eexists; exact quiet_mock_trivy|].
    destruct (wsl2_isAvailable b); simpl.
    - eexists. apply quiet_call.
    - eexists. apply quiet_ret. }
  destruct (String.eqb tool "OWASP Dependency Check").
  { unfold runODCWithRealTime, runODC.
    destruct (ENABLE_ODC w); simpl; [|eexists; apply quiet_ret].
    destruct (odc_isAvailable b); simpl.
    - eexists. apply quiet_call.
    - eexists. exact quiet_mock_odc. }
  eexists. apply quiet_ret.
Qed.

Lemma run_tool_outcome tool i targetPath :
  quiet (run_tool w b tool i targetPath) (outcome_of w b targetPath tool i).
Proof.
  destruct (run_tool_quiet tool i targetPath) as [r Hq].
  replace (outcome_of w b targetPath tool i) with r; [done|].
  unfold outcome_of. destruct (Hq new_orchestrator) as (evs & pc & Heq & _).
  by rewrite Heq.
Qed.

(** *** Percentages *)

Lemma Math_round_mono x y : (x <= y)%Q → Math_round x ≤ Math_round y.
Proof.
  intros H. unfold Math_round. apply Qfloor_resp_le.
  apply Qplus_le_compat; [done|apply Qle_refl].
Qed.

Lemma quotient_nonneg c N :
  (0 <= inject_Z (Z.of_nat c) / inject_Z (Z.of_nat N))%Q.
Proof.
  unfold Qdiv. apply Qmult_le_0_compat.
  - replace 0%Q with (inject_Z 0) by done. rewrite <- Zle_Qle. lia.
  - apply Qinv_le_0_compat. replace 0%Q with (inject_Z 0) by done.
    rewrite <- Zle_Qle. lia.
Qed.

Lemma quotient_mono c c' N :
  (c ≤ c')%nat →
  (inject_Z (Z.of_nat c) / inject_Z (Z.of_nat N) <=
   inject_Z (Z.of_nat c') / inject_Z (Z.of_nat N))%Q.
Proof.
  intros H. unfold Qdiv. apply Qmult_le_compat_r.
  - rewrite <- Zle_Qle. lia.
  - apply Qinv_le_0_compat. replace 0%Q with (inject_Z 0) by done.
    rewrite <- Zle_Qle. lia.
Qed.

Lemma quotient_le_1 c N :
  (c ≤ N)%nat → (inject_Z (Z.of_nat c) / inject_Z (Z.of_nat N) <= 1)%Q.
Proof.
  intros H. destruct N as [|N].
  - replace c with 0%nat by lia. done.
  - apply Qle_shift_div_r.
    + replace 0%Q with (inject_Z 0) by done. rewrite <- Zlt_Qlt. lia.
    + rewrite Qmult_1_l. rewrite <- Zle_Qle. lia.
Qed.

Lemma round_1 : (Double.round 1 == 1)%Q.
Proof. reflexivity. Qed.

Lemma round_100 : (Double.round 100 == 100)%Q.
Proof. reflexivity. Qed.

Lemma percent_mono c c' N : (c ≤ c')%nat → (percent c N <= percent c' N)%Q.
Proof.
  intros H. unfold percent.
  pose proof (quotient_nonneg c N) as H0.
  pose proof (round_nonneg _ H0) as H1.
  pose proof (round_mono _ _ H0 (quotient_mono c c' N H)) as H2.
  apply round_mono; lra.
Qed.

Lemma percent_le_100 c N : (c ≤ N)%nat → (percent c N <= 100)%Q.
Proof.
  intros H. unfold percent.
  pose proof (quotient_nonneg c N) as H0.
  pose proof (round_nonneg _ H0) as H1.
  pose proof (round_mono _ _ H0 (quotient_le_1 c N H)) as H2.
  pose proof round_1 as E1. pose proof round_100 as E100.
  assert (H3 : (Double.round (Double.round
      (inject_Z (Z.of_nat c) / inject_Z (Z.of_nat N)) * 100) <= Double.round 100)%Q)
    by (apply round_mono; lra).
  lra.
Qed.

Lemma percent_full N : (0 < N)%nat → (percent N N == 100)%Q.
Proof.
  intros H. unfold percent.
  assert (E : (inject_Z (Z.of_nat N) / inject_Z (Z.of_nat N) == 1)%Q).
  { field. replace 0%Q with (inject_Z 0) by done. rewrite inject_Z_injective. lia. }
  set (q := (inject_Z (Z.of_nat N) / inject_Z (Z.of_nat N))%Q) in *.
  pose proof round_1 as R1. pose proof round_100 as R100.
  assert (E1 : (Double.round q == 1)%Q).
  { assert (A : (Double.round q <= Double.round 1)%Q)
      by (apply round_mono; [apply quotient_nonneg|lra]).
    assert (B : (Double.round 1 <= Double.round q)%Q)
      by (apply round_mono; lra).
    lra. }
  assert (A : (Double.round (Double.round q * 100) <= Double.round 100)%Q)
    by (apply round_mono; lra).
  assert (B : (Double.round 100 <= Double.round (Double.round q * 100))%Q)
    by (apply round_mono; lra).
  lra.
Qed.

(** The percentage is the exact one up to the two roundings. *)
Lemma percent_accurate c N :
  (c ≤ N)%nat → (0 < N)%nat →
  let exact := (100 * (inject_Z (Z.of_nat c) / inject_Z (Z.of_nat N)))%Q in
  (percent c N - exact <= 1 # 1000000000000)%Q ∧
  (exact - percent c N <= 1 # 1000000000000)%Q.
Proof.
  intros H HN. cbv zeta. unfold percent.
  set (q := (inject_Z (Z.of_nat c) / inject_Z (Z.of_nat N))%Q).
  pose proof (quotient_nonneg c N) as H0. fold q in H0.
  pose proof (quotient_le_1 c N H) as H1. fold q in H1.
  pose proof (round_nonneg _ H0) as R0.
  pose proof (round_mono _ _ H0 H1) as R1.
  pose proof round_1 as E1.
  destruct (round_error q H0) as [A1 A2].
  assert (P0 : (0 <= Double.round q * 100)%Q) by lra.
  destruct (round_error _ P0) as [B1 B2].
  assert (E : (2 ^ (-53) == 1 # 9007199254740992)%Q) by reflexivity.
  rewrite E in A1, A2, B1, B2.
  split; lra.
Qed.

Lemma Math_round_bounds x :
  (inject_Z (Math_round x) <= x + (1 # 2))%Q ∧
  (x - (1 # 2) < inject_Z (Math_round x))%Q.
Proof.
  unfold Math_round.
  pose proof (Qfloor_le (x + (1 # 2))) as H1.
  pose proof (Qlt_floor (x + (1 # 2))) as H2.
  rewrite inject_Z_plus in H2. change (inject_Z 1) with 1%Q in H2.
  split; lra.
Qed.

Lemma round_percent_mono c c' N :
  (c ≤ c')%nat → Math_round (percent c N) ≤ Math_round (percent c' N).
Proof. intros H. by apply Math_round_mono, percent_mono. Qed.

Lemma round_percent_le_100 c N :
  (c ≤ N)%nat → Math_round (percent c N) ≤ 100.
Proof.
  intros H. change 100 with (Math_round 100).
  by apply Math_round_mono, percent_le_100.
Qed.

Lemma round_percent_full N : (0 < N)%nat → Math_round (percent N N) = 100.
Proof.
  intros H. unfold Math_round.
  assert (E : (percent N N + (1 # 2) == 100 + (1 # 2))%Q)
    by (rewrite (percent_full N H); reflexivity).
  rewrite (Qfloor_comp _ _ E). reflexivity.
Qed.

(** The rounded percentage is less than one away from the exact one. *)
Lemma round_percent_accurate c N :
  (c ≤ N)%nat → (0 < N)%nat →
  100 * Z.of_nat c - Z.of_nat N < Z.of_nat N * Math_round (percent c N) ∧
  Z.of_nat N * Math_round (percent c N) < 100 * Z.of_nat c + Z.of_nat N.
Proof.
  intros H HN.
  destruct (percent_accurate c N H HN) as [A1 A2]. cbv zeta in A1, A2.
  destruct (Math_round_bounds (percent c N)) as [M1 M2].
  set (m := Math_round (percent c N)) in *.
  set (n := inject_Z (Z.of_nat N)).
  set (q := (inject_Z (Z.of_nat c) / inject_Z (Z.of_nat N))%Q) in *.
  assert (Hn : (0 < n)%Q).
  { unfold n. replace 0%Q with (inject_Z 0) by done. rewrite <- Zlt_Qlt. lia. }
  assert (Hq : (q * n == inject_Z (Z.of_nat c))%Q).
  { unfold q, n. field. fold n. lra. }
  assert (U : (inject_Z m * n < (100 * q + 1) * n)%Q)
    by (apply Qmult_lt_compat_r; lra).
  assert (L : ((100 * q - 1) * n < inject_Z m * n)%Q)
    by (apply Qmult_lt_compat_r; lra).
  split.
  - unfold Z.sub. rewrite Zlt_Qlt, inject_Z_plus, inject_Z_opp, !inject_Z_mult. fold n.
    change (inject_Z 100) with 100%Q. lra.
  - rewrite Zlt_Qlt, inject_Z_plus, !inject_Z_mult. fold n.
    change (inject_Z 100) with 100%Q. lra.
Qed.

(** The two roundings of [percent] are those of the kernel's binary64
    division and multiplication, on every share of at most 100 tools. *)
Lemma percent_agrees_upto_100 :
  forallb (λ total, forallb (λ done, percent_agrees done total) (seq 0 (S total)))
          (seq 1 100) = true.
Proof. vm_compute. reflexivity. Qed.

Lemma percent_is_binary64 (done total : nat) :
  (0 < total ≤ 100)%nat → (done ≤ total)%nat →
  ∃ q, percent_binary64 done total = Some q ∧ (q == percent done total)%Q.
Proof.
  intros Ht Hd. pose proof percent_agrees_upto_100 as H.
  rewrite forallb_forall in H. specialize (H total).
  rewrite forallb_forall in H.
  assert (Hag : percent_agrees done total = true).
  { apply H; apply in_seq; lia. }
  unfold percent_agrees in Hag.
  destruct (percent_binary64 done total) as [q|]; [|done].
  exists q. split; [done|]. by apply Qeq_bool_iff.
Qed.

(** *** Non-decreasing lists *)

Lemma nondecreasing_cons a l :
  Forall (λ v, a ≤ v) l → nondecreasing l = true → nondecreasing (a :: l) = true.
Proof.
  intros Hb Hl. destruct l as [|x l]; [done|].
  simpl in *. inversion Hb; subst.
  apply andb_true_intro. split; [by apply Z.leb_le|done].
Qed.

Lemma nondecreasing_snoc l a :
  Forall (λ v, v ≤ a) l → nondecreasing l = true → nondecreasing (l ++ [a]) = true.
Proof.
  induction l as [|x l IH]; intros Hb Hl; [done|].
  inversion Hb as [|? ? Hx Hb']; subst.
  assert (Hl' : nondecreasing l = true).
  { destruct l; [done|]. simpl in Hl. by apply andb_prop in Hl as [_ ?]. }
  specialize (IH Hb' Hl').
  destruct l as [|y l]; simpl.
  - apply andb_true_intro. split; [by apply Z.leb_le|done].
  - simpl in Hl. apply andb_prop in Hl as [Hxy _].
    apply andb_true_intro. split; [done|]. exact IH.
Qed.

Lemma Forall_le_trans (lo lo' : Z) l :
  lo ≤ lo' → Forall (λ v, lo' ≤ v) l → Forall (λ v, lo ≤ v) l.
Proof.
  intros H HF. eapply Forall_impl; [exact HF|]. intros v Hv. simpl in *. lia.
Qed.

(** *** The loop over the selected tools *)

Lemma coarse_starting tool :
  coarse_message ("Starting " +:+ tool +:+ " scan...") = true.
Proof. destruct tool; reflexivity. Qed.

Lemma coarse_completed tool :
  coarse_message ("Completed " +:+ tool +:+ " scan") = true.
Proof. destruct tool; reflexivity. Qed.

Lemma coarse_error tool m :
  coarse_message ("Error in " +:+ tool +:+ ": " +:+ m) = true.
Proof. destruct tool; reflexivity. Qed.

Ltac coarse :=
  repeat (cbn [coarse_values app];
          rewrite ?coarse_values_app, ?coarse_starting, ?coarse_completed,
            ?coarse_error);
  cbn [coarse_values app].

Lemma not_error_starting tool :
  String.prefix "Error in " ("Starting " +:+ tool +:+ " scan...") = false.
Proof. destruct tool; reflexivity. Qed.

Lemma not_error_completed tool :
  String.prefix "Error in " ("Completed " +:+ tool +:+ " scan") = false.
Proof. destruct tool; reflexivity. Qed.

Lemma not_error_found message :
  String.prefix "Found " message = true →
  String.prefix "Error in " message = false.
Proof.
  destruct message as [|c message]; [done|].
  cbn [String.prefix]. destruct (ascii_dec "F" c) as [<-|]; [|done].
  reflexivity.
Qed.

(** The [try] block of the loop: the run of the tool, then the push of its
    findings. *)
Lemma turn_spec tool i targetPath st :
  ∃ evs pc,
    attempt (currentToolResults ← run_tool w b tool i targetPath;
             push_results (spread_limit w) currentToolResults ;;
             mret currentToolResults) st =
      (Ok (turn_of w b targetPath tool i),
       mkOrch (results st ++ findings_of (turn_of w b targetPath tool i)) pc
              (currentTool st) (emitted st ++ evs)) ∧
    forallb fine_grained evs = true ∧
    (∀ e, turn_of w b targetPath tool i = Throw e → evs = [] ∧ pc = progress st).
Proof.
  unfold attempt. rewrite bind_run.
  destruct (run_tool_outcome tool i targetPath st) as (evs & pc & Hrun & Hfine & Hcase).
  rewrite Hrun. unfold turn_of.
  destruct (outcome_of w b targetPath tool i) as [fs|err].
  - rewrite bind_run. unfold push_results.
    cbn [results progress currentTool emitted].
    destruct (length fs <=? spread_limit w)%nat eqn:Hl.
    + exists evs, pc. split; [reflexivity|]. split; [exact Hfine|]. intros e [=].
    + assert (Hquiet : evs = [] ∧ pc = progress st).
      { destruct Hcase as [Hc|(found & [= <-] & Hlen)]; [exact Hc|].
        apply Nat.leb_gt in Hl. unfold spread_limit in Hl. lia. }
      destruct Hquiet as [-> ->].
      exists [], (progress st). cbn [findings_of]. rewrite !app_nil_r.
      split; [reflexivity|]. split; [done|]. done.
  - assert (Hquiet : evs = [] ∧ pc = progress st).
    { destruct Hcase as [Hc|(found & [=] & _)]. exact Hc. }
    destruct Hquiet as [-> ->].
    exists [], (progress st). cbn [findings_of]. rewrite !app_nil_r.
    split; [reflexivity|]. split; [done|]. done.
Qed.

Lemma loop_message_head targetPath N tool rest i c e :
  let outcome := turn_of w b targetPath tool i in
  (e = ProgressEvent (Some tool) (Math_round (percent c N))
         ("Starting " +:+ tool +:+ " scan...") ∨
   e = ProgressEvent (Some tool)
         (Math_round (percent (completed_after c outcome) N))
         (closing_message tool outcome)) →
  loop_message w b targetPath N (tool :: rest) i c e.
Proof.
  intros outcome H. exists 0%nat, tool. split; [done|].
  cbn [take completed_from]. rewrite !Nat.add_0_r. exact H.
Qed.

Lemma loop_message_tail targetPath N tool rest i c e :
  loop_message w b targetPath N rest (S i)
    (completed_after c (turn_of w b targetPath tool i)) e →
  loop_message w b targetPath N (tool :: rest) i c e.
Proof.
  intros (j & t & Hj & H). exists (S j), t. split; [done|].
  cbn [take completed_from].
  replace (i + S j)%nat with (S i + j)%nat by lia.
  destruct (turn_of w b targetPath tool i); cbn [completed_after] in H.
  - replace (c + (1 + completed_from w b targetPath (take j rest) (S i)))%nat
      with (S c + completed_from w b targetPath (take j rest) (S i))%nat by lia.
    exact H.
  - replace (c + (0 + completed_from w b targetPath (take j rest) (S i)))%nat
      with (c + completed_from w b targetPath (take j rest) (S i))%nat by lia.
    exact H.
Qed.

Lemma tool_loop_spec targetPath N : ∀ tools i c notes st,
  ∃ evs pc ct,
    tool_loop w b targetPath N tools i c notes st =
      (Ok (notes ++ notes_from w b targetPath tools i),
       mkOrch (results st ++ findings_from w b targetPath tools i) pc ct
              (emitted st ++ evs)) ∧
    (* the coarse percentages grow, from the current one on *)
    nondecreasing (coarse_values evs) = true ∧
    Forall (λ v, Math_round (percent c N) ≤ v) (coarse_values evs) ∧
    ((c + length tools ≤ N)%nat → Forall (λ v, v ≤ 100) (coarse_values evs)) ∧
    (* every tool gets its opening and its closing message *)
    (∀ j tool, tools !! j = Some tool →
       let k := (c + completed_from w b targetPath (take j tools) i)%nat in
       let outcome := turn_of w b targetPath tool (i + j) in
       ProgressEvent (Some tool) (Math_round (percent k N))
         ("Starting " +:+ tool +:+ " scan...") ∈ evs ∧
       ProgressEvent (Some tool) (Math_round (percent (completed_after k outcome) N))
         (closing_message tool outcome) ∈ evs) ∧
    (* and nothing else is sent but the messages of the generators *)
    (∀ e, e ∈ evs → fine_grained e = true ∨ loop_message w b targetPath N tools i c e).
Proof.
  induction tools as [|tool rest IH]; intros i c notes st.
  - exists [], (progress st), (currentTool st). simpl.
    rewrite !app_nil_r. destruct st; simpl.
    split; [done|]. split; [done|]. split; [done|]. split; [done|].
    split; [done|]. intros e He. by apply elem_of_nil in He.
  - cbn [tool_loop notes_from findings_from].
    rewrite bind_run. cbn [set_currentTool]. cbv beta iota.
    rewrite bind_run. cbn [sendProgress]. cbv beta iota.
    cbn [results progress currentTool emitted].
    rewrite bind_run.
    set (st1 := mkOrch (results st) (percent c N) (Some tool)
                  (emitted st ++ [ProgressEvent (Some tool) (Math_round (percent c N))
                                    ("Starting " +:+ tool +:+ " scan...")])).
    destruct (turn_spec tool i targetPath st1) as (evs1 & pc1 & Hturn & Hfine & Hthrow).
    rewrite Hturn. cbv beta iota.
    pose proof (fine_grained_coarse_values _ Hfine) as Hq.
    subst st1. cbn [results progress currentTool emitted] in *.
    destruct (turn_of w b targetPath tool i) as [fs|err] eqn:Hout.
    + (* the turn ended with the findings pushed *)
      rewrite bind_run. cbn [sendProgress]. cbv beta iota.
      cbn [results progress currentTool emitted].
      match goal with |- context [tool_loop _ _ _ _ _ _ _ _ ?s] =>
        destruct (IH (S i) (S c) (notes ++ [NoteResult tool (length fs)]) s)
          as (evs & pc & ct & Heq & Hsorted & Hlow & Hhigh & Hmsg & Honly) end.
      rewrite Heq. cbn [results progress currentTool emitted note_of findings_of].
      eexists (_ :: evs1 ++ _ :: evs), pc, ct.
      split; [|split; [|split; [|split; [|split]]]].
      * rewrite <- !app_assoc. reflexivity.
      * coarse; rewrite Hq; coarse.
        apply nondecreasing_cons.
        -- constructor; [by apply round_percent_mono; lia|].
           eapply Forall_le_trans; [|exact Hlow]. apply round_percent_mono. lia.
        -- by apply nondecreasing_cons.
      * coarse; rewrite Hq; coarse.
        constructor; [lia|]. constructor; [apply round_percent_mono; lia|].
        eapply Forall_le_trans; [|exact Hlow]. apply round_percent_mono. lia.
      * intros Hc. cbn [length] in Hc. coarse; rewrite Hq; coarse.
        constructor; [apply round_percent_le_100; lia|].
        constructor; [apply round_percent_le_100; lia|].
        apply Hhigh. lia.
      * intros j t Hj. destruct j as [|j]; cbn [lookup list_lookup] in Hj.
        -- inversion Hj; subst t. cbn [take completed_from].
           rewrite !Nat.add_0_r, Hout. cbn [completed_after closing_message].
           split; [left|].
           right. apply elem_of_app. right. left.
        -- destruct (Hmsg j t Hj) as (H1 & H2). cbn [take completed_from].
           rewrite Hout.
           replace (i + S j)%nat with (S i + j)%nat by lia.
           replace (c + (1 + completed_from w b targetPath (take j rest) (S i)))%nat
             with (S c + completed_from w b targetPath (take j rest) (S i))%nat by lia.
           split.
           ++ right. apply elem_of_app. right. by right.
           ++ right. apply elem_of_app. right. by right.
      * intros e He. apply elem_of_cons in He as [->|He].
        { right. apply loop_message_head. by left. }
        apply elem_of_app in He as [He|He].
        { left. rewrite forallb_forall in Hfine. apply Hfine.
          by apply list_elem_of_In. }
        apply elem_of_cons in He as [->|He].
        { right. apply loop_message_head. right. by rewrite Hout. }
        destruct (Honly e He) as [Hf|Hl]; [by left|right].
        apply loop_message_tail. by rewrite Hout.
    + (* the turn threw *)
      destruct (Hthrow err eq_refl) as [-> ->].
      rewrite bind_run. cbn [get_progress]. cbv beta iota.
      rewrite bind_run. cbn [sendProgress]. cbv beta iota.
      cbn [results progress currentTool emitted].
      match goal with |- context [tool_loop _ _ _ _ _ _ _ _ ?s] =>
        destruct (IH (S i) c (notes ++ [NoteError tool (error_message err)]) s)
          as (evs & pc & ct & Heq & Hsorted & Hlow & Hhigh & Hmsg & Honly) end.
      rewrite Heq. cbn [results progress currentTool emitted note_of findings_of].
      eexists (_ :: _ :: evs), pc, ct.
      split; [|split; [|split; [|split; [|split]]]].
      * rewrite !app_nil_r. rewrite <- !app_assoc. reflexivity.
      * coarse. apply nondecreasing_cons.
        -- constructor; [lia|done].
        -- by apply nondecreasing_cons.
      * coarse. constructor; [lia|]. constructor; [lia|done].
      * intros Hc. cbn [length] in Hc. coarse.
        constructor; [apply round_percent_le_100; lia|].
        constructor; [apply round_percent_le_100; lia|].
        apply Hhigh. lia.
      * intros j t Hj. destruct j as [|j]; cbn [lookup list_lookup] in Hj.
        -- inversion Hj; subst t. cbn [take completed_from].
           rewrite !Nat.add_0_r, Hout. cbn [completed_after closing_message].
           split; [left|]. right. left.
        -- destruct (Hmsg j t Hj) as (H1 & H2). cbn [take completed_from].
           rewrite Hout.
           replace (i + S j)%nat with (S i + j)%nat by lia.
           replace (c + (0 + completed_from w b targetPath (take j rest) (S i)))%nat
             with (c + completed_from w b targetPath (take j rest) (S i))%nat by lia.
           split; right; by right.
      * intros e He. apply elem_of_cons in He as [->|He].
        { right. apply loop_message_head. by left. }
        apply elem_of_cons in He as [->|He].
        { right. apply loop_message_head. right. by rewrite Hout. }
        destruct (Honly e He) as [Hf|Hl]; [by left|right].
        apply loop_message_tail. by rewrite Hout.
Qed.

(** *** startScan *)

Lemma dedup_store_fst l :
  fst (Dedup.deduplicateResults_store l) = Dedup.deduplicateResults l.
Proof. reflexivity. Qed.

(** A scan of a valid target returns: the findings the tools returned,
    deduplicated, and one note per tool. *)
Lemma startScan_valid targetId targetPath tools st :
  valid_target w targetId targetPath →
  ∃ evs pc ct rs,
    startScan w b targetId tools st =
      (Ok (Dedup.deduplicateResults
             (results st ++ findings_from w b targetPath tools 0),
           notes_from w b targetPath tools 0),
       mkOrch rs pc ct
         (emitted st ++
          [ProgressEvent (currentTool st) 0 "Initializing scan...";
           ProgressEvent (currentTool st) 5
             ("Resolved target path: " +:+ targetPath)] ++
          evs ++
          [ProgressEvent ct 100 "Scan completed successfully!";
           CompleteEvent (length rs)])) ∧
    nondecreasing (coarse_values evs) = true ∧
    Forall (λ v, v ≤ 100) (coarse_values evs) ∧
    (∀ j tool, tools !! j = Some tool →
       let k := completed_from w b targetPath (take j tools) 0 in
       let outcome := turn_of w b targetPath tool j in
       ProgressEvent (Some tool) (Math_round (percent k (length tools)))
         ("Starting " +:+ tool +:+ " scan...") ∈ evs ∧
       ProgressEvent (Some tool)
         (Math_round (percent (completed_after k outcome) (length tools)))
         (closing_message tool outcome) ∈ evs) ∧
    (∀ e, e ∈ evs →
       fine_grained e = true ∨ loop_message w b targetPath (length tools) tools 0 0 e).
Proof.
  intros (Hres & Hex & Hdir).
  unfold startScan, scan_body.
  rewrite bind_run. cbn [sendProgress]. cbv beta iota.
  rewrite Hres. rewrite bind_run. cbn [sendProgress]. cbv beta iota.
  rewrite Hex, Hdir. cbn [negb]. cbv iota.
  rewrite bind_run.
  match goal with |- context [tool_loop _ _ _ _ _ _ _ _ ?s] =>
    destruct (tool_loop_spec targetPath (length tools) tools 0 0 [] s)
      as (evs & pc & ct & Heq & Hsorted & _ & Hhigh & Hmsg & Honly) end.
  rewrite Heq. cbv beta iota.
  rewrite bind_run. cbn [sendProgress]. cbv beta iota.
  rewrite bind_run. unfold deduplicate.
  cbn [results progress currentTool emitted].
  destruct (Dedup.deduplicateResults_store
              (results st ++ findings_from w b targetPath tools 0))
    as [final mutated] eqn:Hd.
  cbv beta iota. rewrite bind_run. cbn [sendCompletion]. cbv beta iota.
  cbn [results progress currentTool emitted mret M_ret].
  exists evs, 100%Q, ct, mutated.
  split; [|split; [|split; [|split]]].
  - unfold show_path, default. cbn [app].
    replace final with (Dedup.deduplicateResults
                          (results st ++ findings_from w b targetPath tools 0))
      by (unfold Dedup.deduplicateResults; by rewrite Hd).
    rewrite <- !app_assoc. reflexivity.
  - exact Hsorted.
  - apply Hhigh. simpl. lia.
  - intros j tool Hj. apply (Hmsg j tool Hj).
  - exact Honly.
Qed.

(** A scan whose target fails the post-condition check throws before the
    loop: three messages are sent, none of them about a tool. *)
Lemma startScan_invalid targetId tools st :
  (¬ ∃ targetPath, valid_target w targetId targetPath) →
  ∃ error,
    InvalidTarget error ∧
    startScan w b targetId tools st =
      (Throw error,
       mkOrch (results st) 5 (currentTool st)
         (emitted st ++
          [ProgressEvent (currentTool st) 0 "Initializing scan...";
           ProgressEvent (currentTool st) 5
             ("Resolved target path: " +:+
              show_path (Resolver.resolveTargetPath w targetId));
           ProgressEvent (currentTool st) 5
             ("Scan failed: " +:+ error_message error)])).
Proof.
  intros Hinv. unfold startScan, scan_body.
  rewrite bind_run. cbn [sendProgress]. cbv beta iota.
  rewrite bind_run. cbn [sendProgress]. cbv beta iota.
  destruct (Resolver.resolveTargetPath w targetId) as [p|] eqn:Hres.
  - destruct (existsSync w p) eqn:Hex; cbn [negb]; cbv iota.
    + destruct (isDirectory w p) eqn:Hdir; cbn [negb]; cbv iota.
      * exfalso. apply Hinv. exists p. done.
      * exists (TargetNotDirectory p). split; [done|].
        unfold throw. cbn [results progress currentTool emitted].
        rewrite <- !app_assoc. reflexivity.
    + exists (TargetMissing p). split; [done|].
      unfold throw. cbn [results progress currentTool emitted].
      rewrite <- !app_assoc. reflexivity.
  - exists (TargetMissing "null"). split; [done|].
    unfold throw. cbn [results progress currentTool emitted show_path default].
    rewrite <- !app_assoc. reflexivity.
Qed.

Lemma notes_from_lookup targetPath tools : ∀ i j tool,
  tools !! j = Some tool →
  notes_from w b targetPath tools i !! j =
    Some (note_of tool (turn_of w b targetPath tool (i + j))).
Proof.
  induction tools as [|t tools IH]; intros i j tool Hj; [done|].
  destruct j as [|j]; simpl in *.
  - inversion Hj; subst. by rewrite Nat.add_0_r.
  - rewrite (IH (S i) j tool Hj). do 3 f_equal. lia.
Qed.

End OrchestratorFacts.

(** What a session with a valid target looks like. *)
Lemma run_session_valid (w : World) (b : Bridges)
    (targetId targetPath : string) (tools : list string) :
  Orchestrator.valid_target w targetId targetPath →
  ∃ st evs,
    Orchestrator.run_session w b targetId tools =
      (Orchestrator.mkSession Orchestrator.completed
         (Some (Dedup.deduplicateResults
                  (Orchestrator.findings_from w b targetPath tools 0)))
         None,
       Orchestrator.notes_from w b targetPath tools 0, st) ∧
    Orchestrator.emitted st =
      [Orchestrator.ProgressEvent None 0 "Initializing scan...";
       Orchestrator.ProgressEvent None 5 ("Resolved target path: " +:+ targetPath)]
      ++ evs ++
      [Orchestrator.ProgressEvent (Orchestrator.currentTool st) 100
         "Scan completed successfully!";
       Orchestrator.CompleteEvent (length (Orchestrator.results st))] ∧
    Orchestrator.nondecreasing (Orchestrator.coarse_values evs) = true ∧
    Forall (λ v, v ≤ 100) (Orchestrator.coarse_values evs) ∧
    (∀ j tool, tools !! j = Some tool →
       let k := Orchestrator.completed_from w b targetPath (take j tools) 0 in
       let outcome := Orchestrator.turn_of w b targetPath tool j in
       Orchestrator.ProgressEvent (Some tool)
         (Orchestrator.Math_round (Orchestrator.percent k (length tools)))
         ("Starting " +:+ tool +:+ " scan...") ∈ evs ∧
       Orchestrator.ProgressEvent (Some tool)
         (Orchestrator.Math_round
            (Orchestrator.percent (Orchestrator.completed_after k outcome)
               (length tools)))
         (Orchestrator.closing_message tool outcome) ∈ evs) ∧
    (∀ e, e ∈ evs →
       Orchestrator.fine_grained e = true ∨
       Orchestrator.loop_message w b targetPath (length tools) tools 0 0 e).
Proof.
  intros Hv.
  destruct (startScan_valid w b targetId targetPath tools
              Orchestrator.new_orchestrator Hv)
    as (evs & pc & ct & rs & Heq & Hs & Hh & Hm & Ho).
  unfold Orchestrator.run_session. rewrite Heq.
  eexists _, evs. split; [reflexivity|]. split; [reflexivity|]. done.
Qed.

Section SessionFacts.

Import Orchestrator.

Context (w : World).

(** The progress messages of a session with a valid target: the two
    opening messages, the closing one, the discoveries of the generators
    and, for each selected tool, its opening and its closing message. *)
Lemma session_messages (b : Bridges) (targetId targetPath : string)
    (tools : list string) :
  valid_target w targetId targetPath →
  let '(_, _, st) := run_session w b targetId tools in
  ∀ ct pc message, ProgressEvent ct pc message ∈ emitted st →
    message = "Initializing scan..." ∨
    message = "Resolved target path: " +:+ targetPath ∨
    message = "Scan completed successfully!" ∨
    String.prefix "Found " message = true ∨
    ∃ i tool, tools !! i = Some tool ∧ ct = Some tool ∧
      (message = "Starting " +:+ tool +:+ " scan..." ∨
       message = closing_message tool (turn_of w b targetPath tool i)).
Proof.
  intros Hv.
  destruct (run_session_valid w b targetId targetPath tools Hv)
    as (st & evs & -> & Hem & _ & _ & _ & Honly).
  intros ct pc message Hin. rewrite Hem in Hin.
  apply elem_of_app in Hin as [Hin|Hin].
  { apply elem_of_cons in Hin as [[= -> -> ->]|Hin]; [by left|].
    apply elem_of_cons in Hin as [[= -> -> ->]|Hin]; [by right; left|].
    by apply elem_of_nil in Hin. }
  apply elem_of_app in Hin as [Hin|Hin].
  - destruct (Honly _ Hin) as [Hf|(j & tool & Hj & [[= -> -> ->]|[= -> -> ->]])].
    + right. right. right. left. exact Hf.
    + right. right. right. right. exists j, tool. by auto.
    + right. right. right. right. exists j, tool. by auto.
  - apply elem_of_cons in Hin as [[= -> -> ->]|Hin]; [by right; right; left|].
    apply elem_of_cons in Hin as [[=]|Hin]. by apply elem_of_nil in Hin.
Qed.

Lemma not_error_resolved targetPath :
  String.prefix "Error in " ("Resolved target path: " +:+ targetPath) = false.
Proof. destruct targetPath; reflexivity. Qed.

Lemma not_failed_resolved targetPath :
  String.prefix "Scan failed" ("Resolved target path: " +:+ targetPath) = false.
Proof. destruct targetPath; reflexivity. Qed.

Lemma not_failed_found message :
  String.prefix "Found " message = true →
  String.prefix "Scan failed" message = false.
Proof.
  destruct message as [|c message]; [done|].
  cbn [String.prefix]. destruct (ascii_dec "F" c) as [<-|]; [|done].
  reflexivity.
Qed.

Lemma not_failed_starting tool :
  String.prefix "Scan failed" ("Starting " +:+ tool +:+ " scan...") = false.
Proof. destruct tool; reflexivity. Qed.

Lemma not_failed_closing tool outcome :
  String.prefix "Scan failed" (closing_message tool outcome) = false.
Proof. destruct outcome, tool; reflexivity. Qed.

(** With the bridges of the host no run of a tool throws. *)
Lemma host_outcome_ok (targetPath tool : string) (i : nat) :
  ∃ findings, outcome_of w (host_bridges w) targetPath tool i = Ok findings.
Proof.
  unfold outcome_of, run_tool.
  destruct (String.eqb tool "Semgrep").
  { unfold runSemgrepWithRealTime, runSemgrep.
    destruct (MOCK_WSL2 w).
    - destruct (quiet_mock_semgrep new_orchestrator) as (evs & pc & -> & _).
      by eexists.
    - cbn [host_bridges wsl2_isAvailable wsl2_runSemgrep].
      unfold WSL2Bridge.runSemgrep.
      destruct (WSL2Bridge.isAvailable w); cbn [negb]; [|by eexists].
      destruct (Exec.executeCommand (tool_proc w i)); by eexists. }
  destruct (String.eqb tool "Trivy").
  { unfold runTrivyWithRealTime, runTrivy.
    destruct (MOCK_WSL2 w).
    - destruct (quiet_mock_trivy new_orchestrator) as (evs & pc & -> & _).
      by eexists.
    - cbn [host_bridges wsl2_isAvailable wsl2_runTrivy].
      unfold WSL2Bridge.runTrivy.
      destruct (WSL2Bridge.isAvailable w); cbn [negb]; [|by eexists].
      destruct (Exec.executeCommand (tool_proc w i)); by eexists. }
  destruct (String.eqb tool "OWASP Dependency Check"); [|by eexists].
  unfold runODCWithRealTime, runODC.
  destruct (ENABLE_ODC w); cbn [negb]; [|by eexists].
  cbn [host_bridges odc_isAvailable odc_runODC].
  destruct (ODCBridge.isAvailable w) eqn:Ha; cbn [negb].
  - unfold ODCBridge.runODC. rewrite Ha. cbn [negb].
    destruct (existsSync w targetPath); cbn [negb]; [|by eexists].
    destruct (Exec.executeCommand (tool_proc w i)); by eexists.
  - destruct (quiet_mock_odc new_orchestrator) as (evs & pc & -> & _).
    by eexists.
Qed.

(** On the host's own bridges a failed run does not throw: it is an empty
    result, and so is its turn. *)
Lemma host_tool_failed_returns_nothing (targetPath tool : string) (i : nat) :
  tool_failed w tool i →
  outcome_of w (host_bridges w) targetPath tool i = Ok [].
Proof.
  unfold outcome_of, run_tool.
  intros [([-> | ->] & Hm & Hf) | (-> & He & Ha & [reason Hr])].
  - cbn [String.eqb Ascii.eqb Bool.eqb].
    unfold runSemgrepWithRealTime, runSemgrep.
    rewrite Hm. cbn [host_bridges wsl2_isAvailable wsl2_runSemgrep].
    unfold WSL2Bridge.runSemgrep.
    destruct (WSL2Bridge.isAvailable w) eqn:Ha; [|done].
    destruct Hf as [Hf | [reason Hr]]; [done|]. cbn [negb]. by rewrite Hr.
  - cbn [String.eqb Ascii.eqb Bool.eqb].
    unfold runTrivyWithRealTime, runTrivy.
    rewrite Hm. cbn [host_bridges wsl2_isAvailable wsl2_runTrivy].
    unfold WSL2Bridge.runTrivy.
    destruct (WSL2Bridge.isAvailable w) eqn:Ha; [|done].
    destruct Hf as [Hf | [reason Hr]]; [done|]. cbn [negb]. by rewrite Hr.
  - cbn [String.eqb Ascii.eqb Bool.eqb].
    unfold runODCWithRealTime, runODC.
    rewrite He. cbn [host_bridges odc_isAvailable odc_runODC negb].
    rewrite Ha. cbn [negb]. unfold ODCBridge.runODC. rewrite Ha, Hr.
    cbn [negb]. by destruct (existsSync w targetPath).
Qed.

Lemma host_turn_failed_returns_nothing (targetPath tool : string) (i : nat) :
  tool_failed w tool i →
  turn_of w (host_bridges w) targetPath tool i = Ok [].
Proof.
  intros Hf. unfold turn_of.
  by rewrite (host_tool_failed_returns_nothing targetPath tool i Hf).
Qed.

(** On the host's own bridges a turn throws only when the findings of the
    run are too many for the push. *)
Lemma host_turn_throws (targetPath tool : string) (i : nat) (error : ScanError) :
  turn_of w (host_bridges w) targetPath tool i = Throw error →
  error = RangeError ∧
  ∃ findings,
    outcome_of w (host_bridges w) targetPath tool i = Ok findings ∧
    (spread_limit w < length findings)%nat.
Proof.
  unfold turn_of.
  destruct (host_outcome_ok targetPath tool i) as [findings ->].
  destruct (length findings <=? spread_limit w)%nat eqn:Hl; [done|].
  intros [= <-]. split; [done|]. exists findings. split; [done|].
  by apply Nat.leb_gt.
Qed.

(** A turn whose findings fit the push is the run. *)
Lemma turn_of_fits (b : Bridges) (targetPath tool : string) (i : nat)
    (findings : list Finding) :
  outcome_of w b targetPath tool i = Ok findings →
  (length findings ≤ spread_limit w)%nat →
  turn_of w b targetPath tool i = Ok findings.
Proof.
  intros Ho Hl. unfold turn_of. rewrite Ho.
  by apply Nat.leb_le in Hl as ->.
Qed.

(** A name outside the three cases of the [switch] runs nothing. *)
Lemma unknown_tool_outcome (b : Bridges) (targetPath tool : string) (i : nat) :
  tool ≠ "Semgrep" → tool ≠ "Trivy" → tool ≠ "OWASP Dependency Check" →
  outcome_of w b targetPath tool i = Ok [].
Proof.
  intros H1 H2 H3. unfold outcome_of, run_tool.
  destruct (String.eqb_spec tool "Semgrep"); [done|].
  destruct (String.eqb_spec tool "Trivy"); [done|].
  destruct (String.eqb_spec tool "OWASP Dependency Check"); [done|].
  reflexivity.
Qed.

Lemma unknown_tool_turn (b : Bridges) (targetPath tool : string) (i : nat) :
  tool ≠ "Semgrep" → tool ≠ "Trivy" → tool ≠ "OWASP Dependency Check" →
  turn_of w b targetPath tool i = Ok [].
Proof.
  intros H1 H2 H3. apply turn_of_fits; [by apply unknown_tool_outcome|].
  cbn [length]. lia.
Qed.

Lemma completed_from_le (b : Bridges) (targetPath : string) (tools : list string) :
  ∀ i, (completed_from w b targetPath tools i ≤ length tools)%nat.
Proof.
  induction tools as [|tool tools IH]; intros i; cbn [completed_from length]; [lia|].
  specialize (IH (S i)). destruct (turn_of w b targetPath tool i); lia.
Qed.

Lemma completed_from_snoc (b : Bridges) (targetPath : string)
    (tools : list string) (tool : string) : ∀ i,
  completed_from w b targetPath (tools ++ [tool]) i =
    completed_after (completed_from w b targetPath tools i)
      (turn_of w b targetPath tool (i + length tools)).
Proof.
  induction tools as [|t tools IH]; intros i; cbn [app completed_from length].
  - rewrite !Nat.add_0_r. by destruct (turn_of w b targetPath tool i).
  - rewrite (IH (S i)).
    replace (S i + length tools)%nat with (i + S (length tools))%nat by lia.
    destruct (turn_of w b targetPath t i),
      (turn_of w b targetPath tool (i + S (length tools)));
      cbn [completed_after]; lia.
Qed.

End SessionFacts.

(** The sample target is valid on the sample host. *)
Lemma sample_target_valid (mock : bool) :
  Orchestrator.valid_target (Sample.windows_host mock) Sample.staged_id
    Sample.staged_path.
Proof. destruct mock; vm_compute; done. Qed.

(** C1 as stated fails: on the sample host the Semgrep process hangs until
    the timer expires and Trivy succeeds; the session completes with
    Trivy's finding, but Semgrep is noted as a completed tool with zero
    results and no error message is sent for it. *)
Lemma C1_timeout_leaves_no_error_note :
  Orchestrator.tool_failed (Sample.windows_host false) "Semgrep" 0 ∧
  (let '(session, notes, st) :=
     Orchestrator.run_session (Sample.windows_host false)
       (host_bridges (Sample.windows_host false)) Sample.staged_id
       ["Semgrep"; "Trivy"] in
   Orchestrator.status session = Orchestrator.completed ∧
   notes = [Orchestrator.NoteResult "Semgrep" 0; Orchestrator.NoteResult "Trivy" 1]) ∧
  ¬ Orchestrator.failure_is_noted (Sample.windows_host false) Sample.staged_id
      ["Semgrep"; "Trivy"].
Proof.
  assert (Hf : Orchestrator.tool_failed (Sample.windows_host false) "Semgrep" 0).
  { left. split; [by left|]. split; [done|]. right.
    exists Exec.ExecutionTimeout. vm_compute. reflexivity. }
  split; [exact Hf|]. split; [vm_compute; done|].
  intros H. specialize (H 0%nat "Semgrep" eq_refl Hf).
  vm_compute in H. destruct H as ([error H] & _). discriminate.
Qed.

(** C1, amended.  In a session with a valid target every selected tool
    gets its "Starting" message and one of two endings.  A tool whose turn
    throws into the loop (its run throws, or its findings are too many to
    be spread into the push onto the results) gets an error note and an
    "Error in" message at the percentage its turn started with, adds no
    finding, and the loop goes on; any other tool gets a result note with
    its count and its "Completed" message at the share of one more
    completed tool.  "Error in" messages are sent for turns that threw and
    for no other, and no "Scan failed" message is sent; the session is
    COMPLETED (never FAILED) with the deduplicated findings of the turns
    that did not throw.  On the host's own bridges a run that times out,
    exits with a failure or finds its bridge unavailable does not throw:
    its turn ends with no finding, a result note with count 0 and the
    "Completed" message, and a turn throws only for an oversized result.
    An enabled ODC whose bridge is unavailable returns the simulated ODC
    findings. *)
Theorem C1_tool_failure_is_isolated (w : World) (b : Bridges)
    (targetId targetPath : string) (tools : list string) :
  Orchestrator.valid_target w targetId targetPath →
  let '(session, notes, st) := Orchestrator.run_session w b targetId tools in
  let share (k : nat) :=
    Orchestrator.Math_round (Orchestrator.percent k (length tools)) in
  let started (i : nat) :=
    Orchestrator.completed_from w b targetPath (take i tools) 0 in
  (* the session *)
  Orchestrator.status session = Orchestrator.completed ∧
  Orchestrator.session_error session = None ∧
  Orchestrator.session_results session =
    Some (Dedup.deduplicateResults
            (Orchestrator.findings_from w b targetPath tools 0)) ∧
  length notes = length tools ∧
  (* every tool is started *)
  (∀ i tool,
     tools !! i = Some tool →
     Orchestrator.ProgressEvent (Some tool) (share (started i))
       ("Starting " +:+ tool +:+ " scan...") ∈ Orchestrator.emitted st) ∧
  (* a turn that throws *)
  (∀ i tool error,
     tools !! i = Some tool →
     Orchestrator.turn_of w b targetPath tool i = Throw error →
     notes !! i = Some (Orchestrator.NoteError tool (error_message error)) ∧
     Orchestrator.ProgressEvent (Some tool) (share (started i))
       ("Error in " +:+ tool +:+ ": " +:+ error_message error)
       ∈ Orchestrator.emitted st ∧
     started (S i) = started i) ∧
  (* a turn that does not *)
  (∀ i tool findings,
     tools !! i = Some tool →
     Orchestrator.turn_of w b targetPath tool i = Ok findings →
     notes !! i = Some (Orchestrator.NoteResult tool (length findings)) ∧
     Orchestrator.ProgressEvent (Some tool) (share (S (started i)))
       ("Completed " +:+ tool +:+ " scan") ∈ Orchestrator.emitted st ∧
     started (S i) = S (started i)) ∧
  (* failure messages are sent for the turns that threw, and no other *)
  (∀ ct pc message,
     Orchestrator.ProgressEvent ct pc message ∈ Orchestrator.emitted st →
     String.prefix "Error in " message = true →
     ∃ i tool error,
       tools !! i = Some tool ∧
       Orchestrator.turn_of w b targetPath tool i = Throw error ∧
       ct = Some tool ∧
       message = "Error in " +:+ tool +:+ ": " +:+ error_message error) ∧
  (∀ ct pc message,
     Orchestrator.ProgressEvent ct pc message ∈ Orchestrator.emitted st →
     String.prefix "Scan failed" message = false) ∧
  (* what throws: the run, or the push of too many findings *)
  (∀ i tool,
     Orchestrator.turn_of w b targetPath tool i =
       match Orchestrator.outcome_of w b targetPath tool i with
       | Ok findings =>
           if (length findings <=? spread_limit w)%nat
           then Ok findings else Throw RangeError
       | Throw error => Throw error
       end) ∧
  (* the host's own bridges *)
  (∀ i tool error,
     Orchestrator.turn_of w (host_bridges w) targetPath tool i = Throw error →
     error = RangeError ∧
     ∃ findings,
       Orchestrator.outcome_of w (host_bridges w) targetPath tool i = Ok findings ∧
       (spread_limit w < length findings)%nat) ∧
  (∀ i tool,
     Orchestrator.tool_failed w tool i →
     Orchestrator.turn_of w (host_bridges w) targetPath tool i = Ok []) ∧
  (b = host_bridges w →
   ∀ i tool,
     tools !! i = Some tool →
     Orchestrator.tool_failed w tool i →
     notes !! i = Some (Orchestrator.NoteResult tool 0) ∧
     Orchestrator.ProgressEvent (Some tool) (share (S (started i)))
       ("Completed " +:+ tool +:+ " scan") ∈ Orchestrator.emitted st ∧
     (∀ pc message,
        Orchestrator.ProgressEvent (Some tool) pc message
          ∈ Orchestrator.emitted st →
        String.prefix "Error in " message = true →
        ∃ j, j ≠ i ∧ tools !! j = Some tool ∧
          Orchestrator.turn_of w b targetPath tool j = Throw RangeError)) ∧
  (∀ i,
     ENABLE_ODC w = true → odc_isAvailable b = false →
     Orchestrator.outcome_of w b targetPath "OWASP Dependency Check" i =
       Ok Orchestrator.odc_vulnerabilities).
Proof.
  intros Hv.
  pose proof (session_messages w b targetId targetPath tools Hv) as Hall.
  destruct (run_session_valid w b targetId targetPath tools Hv)
    as (st & evs & Hrun & Hem & _ & _ & Hmsg & _).
  rewrite Hrun in Hall |- *. cbv beta iota in Hall. clear Hrun.
  cbn [Orchestrator.status Orchestrator.session_error Orchestrator.session_results].
  cbv zeta.
  assert (Hin : ∀ e, e ∈ evs → e ∈ Orchestrator.emitted st).
  { intros e He. rewrite Hem. apply elem_of_app. right.
    apply elem_of_app. by left. }
  assert (Hstep : ∀ i tool, tools !! i = Some tool →
    Orchestrator.completed_from w b targetPath (take (S i) tools) 0 =
      Orchestrator.completed_after
        (Orchestrator.completed_from w b targetPath (take i tools) 0)
        (Orchestrator.turn_of w b targetPath tool i)).
  { intros i tool Hi. rewrite (take_S_r _ _ _ Hi), completed_from_snoc.
    cbn [Nat.add]. rewrite length_take_le; [done|].
    apply lookup_lt_Some in Hi. lia. }
  assert (Herr : ∀ ct pc message,
     Orchestrator.ProgressEvent ct pc message ∈ Orchestrator.emitted st →
     String.prefix "Error in " message = true →
     ∃ i tool error,
       tools !! i = Some tool ∧
       Orchestrator.turn_of w b targetPath tool i = Throw error ∧
       ct = Some tool ∧
       message = "Error in " +:+ tool +:+ ": " +:+ error_message error).
  { intros ct pc message He Hp.
    destruct (Hall ct pc message He)
      as [-> | [-> | [-> | [Hf | (i & tool & Hi & -> & [-> | ->])]]]].
    - vm_compute in Hp. discriminate.
    - by rewrite not_error_resolved in Hp.
    - vm_compute in Hp. discriminate.
    - by rewrite (not_error_found _ Hf) in Hp.
    - by rewrite not_error_starting in Hp.
    - destruct (Orchestrator.turn_of w b targetPath tool i) as [fs|error] eqn:Ht.
      + cbn [Orchestrator.closing_message] in Hp.
        by rewrite not_error_completed in Hp.
      + by exists i, tool, error. }
  split; [reflexivity|]. split; [reflexivity|]. split; [reflexivity|].
  repeat apply conj.
  - clear. generalize 0%nat. induction tools as [|t ts IH]; intros i; [done|].
    cbn [Orchestrator.notes_from length]. by rewrite IH.
  - intros i tool Hi. destruct (Hmsg i tool Hi) as [H _]. by apply Hin.
  - intros i tool error Hi Hout. split; [|split].
    + rewrite (notes_from_lookup w b targetPath tools 0 i tool Hi).
      cbn [Nat.add]. by rewrite Hout.
    + destruct (Hmsg i tool Hi) as [_ H]. cbv zeta in H. rewrite Hout in H.
      cbn [Orchestrator.closing_message Orchestrator.completed_after] in H.
      by apply Hin.
    + rewrite (Hstep i tool Hi), Hout. reflexivity.
  - intros i tool findings Hi Hout. split; [|split].
    + rewrite (notes_from_lookup w b targetPath tools 0 i tool Hi).
      cbn [Nat.add]. by rewrite Hout.
    + destruct (Hmsg i tool Hi) as [_ H]. cbv zeta in H. rewrite Hout in H.
      cbn [Orchestrator.closing_message Orchestrator.completed_after] in H.
      by apply Hin.
    + rewrite (Hstep i tool Hi), Hout. reflexivity.
  - exact Herr.
  - intros ct pc message He.
    destruct (Hall ct pc message He)
      as [-> | [-> | [-> | [Hf | (i & tool & Hi & -> & [-> | ->])]]]].
    + reflexivity.
    + apply not_failed_resolved.
    + reflexivity.
    + by apply not_failed_found.
    + apply not_failed_starting.
    + apply not_failed_closing.
  - reflexivity.
  - intros i tool error. apply host_turn_throws.
  - intros i tool Hf. by apply host_turn_failed_returns_nothing.
  - intros -> i tool Hi Hf.
    pose proof (host_turn_failed_returns_nothing w targetPath tool i Hf) as Hout.
    split; [|split].
    + rewrite (notes_from_lookup w (host_bridges w) targetPath tools 0 i tool Hi).
      cbn [Nat.add]. by rewrite Hout.
    + destruct (Hmsg i tool Hi) as [_ H]. cbv zeta in H. rewrite Hout in H.
      cbn [Orchestrator.closing_message Orchestrator.completed_after] in H.
      by apply Hin.
    + intros pc message He Hp.
      destruct (Herr _ _ _ He Hp) as (j & t & error & Hj & Ht & [= <-] & _).
      exists j. split; [intros ->; congruence|]. split; [done|].
      by destruct (host_turn_throws w targetPath tool j error Ht) as [<- _].
  - intros i He Ha. unfold Orchestrator.outcome_of, Orchestrator.run_tool.
    cbn [String.eqb Ascii.eqb Bool.eqb].
    unfold Orchestrator.runODCWithRealTime. rewrite He, Ha. cbn [negb].
    destruct (quiet_mock_odc Orchestrator.new_orchestrator) as (e & q & Heq & _).
    by rewrite Heq.
Qed.

Lemma C1_witness :
  let '(session, notes, st) :=
    Orchestrator.run_session (Sample.windows_host false)
      (host_bridges (Sample.windows_host false)) Sample.staged_id
      ["Semgrep"; "Trivy"] in
  Orchestrator.status session = Orchestrator.completed ∧
  notes !! 0%nat = Some (Orchestrator.NoteResult "Semgrep" 0).
Proof.
  assert (Hv : Orchestrator.valid_target (Sample.windows_host false)
                 Sample.staged_id Sample.staged_path) by (vm_compute; done).
  assert (Hf : Orchestrator.tool_failed (Sample.windows_host false) "Semgrep" 0).
  { left. split; [by left|]. split; [done|]. right.
    exists Exec.ExecutionTimeout. vm_compute. reflexivity. }
  pose proof (C1_tool_failure_is_isolated (Sample.windows_host false)
                (host_bridges (Sample.windows_host false))
                Sample.staged_id Sample.staged_path ["Semgrep"; "Trivy"] Hv) as H.
  destruct (Orchestrator.run_session _ _ _ _) as [[session notes] st].
  destruct H as (H1 & _ & _ & _ & _ & _ & _ & _ & _ & _ & _ & _ & H2 & _).
  split; [exact H1|].
  exact (proj1 (H2 eq_refl 0%nat "Semgrep" eq_refl Hf)).
Defined.

(** A result too large to be spread into the push, with the host's own
    bridges: Trivy reports 150000 vulnerabilities on a host that spreads no
    more than 121024 arguments.  The tool gets an error note and an
    "Error in" message, its findings are lost, and the session completes. *)
Lemma oversized_result_is_an_error_note :
  let report :=
    Parse.mkTrivyReport (Some
      [ Parse.mkTrivyTarget "/mnt/c/scanvault/temp/package-lock.json"
          (Some (repeat (Parse.mkTrivyVuln "CVE-2020-8203" (Some "HIGH"))
                        (150 * 1000))) ]) in
  let w :=
    mkWorld ∅
      (λ p, bool_decide (p ∈ Sample.directories))
      (λ p, bool_decide (p ∈ Sample.directories))
      Sample.win32_isAbsolute Sample.win32_join Sample.win32_resolve
      (Some Sample.staging_root) Sample.staging_root
      false false
      true (Some "Default Version: 2")
      [ Exec.ProcError "spawn dependency-check.bat ENOENT" ]
      (λ _, [ Exec.StdoutData Sample.trivy_stdout; Exec.Close (Some 0) ])
      (λ _, None) (λ _, Some report) (λ _, None)
      120000%N in
  match Orchestrator.outcome_of w (host_bridges w) Sample.staged_path "Trivy" 0 with
  | Ok findings => N.of_nat (length findings)
  | Throw _ => 0%N
  end = 150000%N ∧
  let '(session, notes, st) :=
    Orchestrator.run_session w (host_bridges w) Sample.staged_id ["Trivy"] in
  session = Orchestrator.mkSession Orchestrator.completed (Some []) None ∧
  notes = [Orchestrator.NoteError "Trivy" "Maximum call stack size exceeded"] ∧
  Orchestrator.emitted st =
    [Orchestrator.ProgressEvent None 0 "Initializing scan...";
     Orchestrator.ProgressEvent None 5
       ("Resolved target path: " +:+ Sample.staged_path);
     Orchestrator.ProgressEvent (Some "Trivy") 0 "Starting Trivy scan...";
     Orchestrator.ProgressEvent (Some "Trivy") 0
       "Error in Trivy: Maximum call stack size exceeded";
     Orchestrator.ProgressEvent (Some "Trivy") 100
       "Scan completed successfully!";
     Orchestrator.CompleteEvent 0].
Proof.
  cbv zeta. split.
  - vm_compute. reflexivity.
  - vm_compute. done.
Qed.

Lemma last_snoc_snoc {A} (l : list A) (x y : A) : last (l ++ [x; y]) = Some y.
Proof.
  replace (l ++ [x; y]) with ((l ++ [x]) ++ [y]) by (by rewrite <- app_assoc).
  apply last_snoc.
Qed.

(** C4 as stated fails: the message that reports the resolved path carries
    5 and the first tool then starts at 0; in a simulated run the
    discoveries of one tool climb to 100 before the loop reports the share
    of completed tools; and a session whose target is invalid ends at 5. *)
Lemma C4_progress_drops :
  (let '(_, _, st) :=
     Orchestrator.run_session (Sample.windows_host false)
       (host_bridges (Sample.windows_host false)) Sample.staged_id
       ["Semgrep"; "Trivy"] in
   Orchestrator.progress_values (Orchestrator.emitted st) =
     [0; 5; 0; 50; 50; 100; 100] ∧
   ¬ Orchestrator.progress_is_monotone (Orchestrator.emitted st)) ∧
  (let '(_, _, st) :=
     Orchestrator.run_session (Sample.windows_host true)
       (host_bridges (Sample.windows_host true)) Sample.staged_id
       ["Semgrep"; "Trivy"] in
   Orchestrator.progress_values (Orchestrator.emitted st) =
     [0; 5; 0; 13; 25; 38; 50; 63; 75; 88; 100; 50; 50; 20; 40; 60; 80; 100;
      100; 100]) ∧
  (let '(_, _, st) :=
     Orchestrator.run_session (Sample.windows_host false)
       (host_bridges (Sample.windows_host false))
       "not-a-uuid-and-not-absolute" ["Semgrep"; "Trivy"] in
   Orchestrator.progress_values (Orchestrator.emitted st) = [0; 5; 5]).
Proof.
  split; [|split]; [|vm_compute; reflexivity|vm_compute; reflexivity].
  vm_compute. split; [reflexivity|]. intros [H _]. discriminate.
Qed.

(** C4, amended.  In a session with a valid target the percentages computed
    from completedTools/totalTools (those of the "Starting", "Completed" and
    "Error in" messages and of the closing message) never decrease, and the
    last progress message of the session carries exactly 100. *)
Theorem C4_coarse_progress_is_monotone (w : World) (b : Bridges)
    (targetId targetPath : string) (tools : list string) :
  Orchestrator.valid_target w targetId targetPath →
  let '(_, _, st) := Orchestrator.run_session w b targetId tools in
  Orchestrator.nondecreasing
    (Orchestrator.coarse_values (Orchestrator.emitted st)) = true ∧
  last (Orchestrator.progress_values (Orchestrator.emitted st)) = Some 100.
Proof.
  intros Hv.
  destruct (run_session_valid w b targetId targetPath tools Hv)
    as (st & evs & -> & Hem & Hs & Hh & _).
  rewrite Hem. split.
  - rewrite coarse_values_app.
    assert (Hhead : Orchestrator.coarse_values
              [Orchestrator.ProgressEvent None 0 "Initializing scan...";
               Orchestrator.ProgressEvent None 5
                 ("Resolved target path: " +:+ targetPath)] = []) by reflexivity.
    rewrite Hhead. cbn [app]. rewrite coarse_values_app.
    cbn [Orchestrator.coarse_values]. 
    change (Orchestrator.coarse_message "Scan completed successfully!") with true.
    cbv iota. by apply nondecreasing_snoc.
  - rewrite !progress_values_app. cbn [Orchestrator.progress_values].
    rewrite app_assoc. apply last_snoc.
Qed.

Lemma C4_witness :
  let '(_, _, st) :=
    Orchestrator.run_session (Sample.windows_host true)
      (host_bridges (Sample.windows_host true)) Sample.staged_id
      ["Semgrep"; "Trivy"] in
  last (Orchestrator.progress_values (Orchestrator.emitted st)) = Some 100.
Proof.
  assert (Hv : Orchestrator.valid_target (Sample.windows_host true)
                 Sample.staged_id Sample.staged_path) by (vm_compute; done).
  pose proof (C4_coarse_progress_is_monotone (Sample.windows_host true)
                (host_bridges (Sample.windows_host true))
                Sample.staged_id Sample.staged_path ["Semgrep"; "Trivy"] Hv) as H.
  destruct (Orchestrator.run_session _ _ _ _) as [[session notes] st].
  exact (proj2 H).
Defined.

(** C6.  [startScan] returns only when the resolved path exists and is a
    directory; otherwise it throws InvalidTarget after the two opening
    messages and the failure message, before the loop over the tools has
    sent anything or touched the results, and the session is FAILED.  In
    particular an identifier that is not registered, not absolute and not
    UUID-shaped, and that names no directory under the staging root or the
    working directory, fails with InvalidTarget. *)
Theorem C6_invalid_target_fails_before_any_tool (w : World) (b : Bridges)
    (targetId : string) (tools : list string) (st : Orchestrator.Orch) :
  (∀ r st',
     Orchestrator.startScan w b targetId tools st = (Ok r, st') →
     ∃ targetPath, Orchestrator.valid_target w targetId targetPath) ∧
  ((¬ ∃ targetPath, Orchestrator.valid_target w targetId targetPath) →
   ∃ error,
     InvalidTarget error ∧
     Orchestrator.startScan w b targetId tools st =
       (Throw error,
        Orchestrator.mkOrch (Orchestrator.results st) 5
          (Orchestrator.currentTool st)
          (Orchestrator.emitted st ++
           [Orchestrator.ProgressEvent (Orchestrator.currentTool st) 0
              "Initializing scan...";
            Orchestrator.ProgressEvent (Orchestrator.currentTool st) 5
              ("Resolved target path: " +:+
               Orchestrator.show_path (Resolver.resolveTargetPath w targetId));
            Orchestrator.ProgressEvent (Orchestrator.currentTool st) 5
              ("Scan failed: " +:+ error_message error)])) ∧
     Orchestrator.settle_session (@Throw (list Finding * list Orchestrator.ToolNote) error) =
       Orchestrator.mkSession Orchestrator.failed None (Some (error_message error))) ∧
  (mappings w !! targetId = None →
   path_isAbsolute w targetId = false →
   Resolver.uuidRegex_test targetId = false →
   isDirectory w (path_join w (Resolver.tempDir w) targetId) = false →
   isDirectory w (path_resolve w targetId) = false →
   ∃ error st',
     InvalidTarget error ∧
     Orchestrator.startScan w b targetId tools st = (Throw error, st')).
Proof.
  assert (Hinvalid : (¬ ∃ targetPath, Orchestrator.valid_target w targetId targetPath) →
    ∃ error, InvalidTarget error ∧
      Orchestrator.startScan w b targetId tools st =
       (Throw error,
        Orchestrator.mkOrch (Orchestrator.results st) 5
          (Orchestrator.currentTool st)
          (Orchestrator.emitted st ++
           [Orchestrator.ProgressEvent (Orchestrator.currentTool st) 0
              "Initializing scan...";
            Orchestrator.ProgressEvent (Orchestrator.currentTool st) 5
              ("Resolved target path: " +:+
               Orchestrator.show_path (Resolver.resolveTargetPath w targetId));
            Orchestrator.ProgressEvent (Orchestrator.currentTool st) 5
              ("Scan failed: " +:+ error_message error)]))).
  { apply startScan_invalid. }
  split; [|split].
  - intros r st' Hok.
    destruct (Resolver.resolveTargetPath w targetId) as [p|] eqn:Hres.
    + destruct (existsSync w p) eqn:Hex.
      * destruct (isDirectory w p) eqn:Hdir; [by exists p|].
        destruct Hinvalid as (error & _ & Heq).
        { intros [p' (Hp' & _ & Hd')]. congruence. }
        congruence.
      * destruct Hinvalid as (error & _ & Heq).
        { intros [p' (Hp' & He' & _)]. congruence. }
        congruence.
    + destruct Hinvalid as (error & _ & Heq).
      { intros [p' (Hp' & _)]. congruence. }
      congruence.
  - intros Hinv. destruct (Hinvalid Hinv) as (error & Hi & Heq).
    exists error. split; [done|]. split; [done|]. done.
  - intros Hm Ha Hu Ht Hl.
    destruct Hinvalid as (error & Hi & Heq).
    + intros [p (Hres & Hex & Hdir)].
      pose proof (resolveTargetPath_resolves w targetId) as Hr.
      rewrite Hres in Hr.
      inversion Hr; subst; congruence.
    + eauto.
Qed.

Lemma C6_witness :
  ∃ error st',
    InvalidTarget error ∧
    Orchestrator.startScan (Sample.windows_host false)
      (host_bridges (Sample.windows_host false))
      "not-a-uuid-and-not-absolute" ["Semgrep"; "Trivy"]
      Orchestrator.new_orchestrator = (Throw error, st').
Proof.
  apply (proj2 (proj2 (C6_invalid_target_fails_before_any_tool
           (Sample.windows_host false) (host_bridges (Sample.windows_host false))
           "not-a-uuid-and-not-absolute" ["Semgrep"; "Trivy"]
           Orchestrator.new_orchestrator))); vm_compute; reflexivity.
Defined.

(** C10.  In a session with a valid target, the turn of a selected name
    other than 'Semgrep', 'Trivy' and 'OWASP Dependency Check' throws
    nothing and adds no finding; its note is a result note with count 0,
    not an error note; it is counted in completedTools, so its "Completed"
    message carries the share of one more completed tool than its
    "Starting" message.  Both percentages are the nearest integers to the
    exact shares, up to the rounding of the binary64 division and product;
    the second is never below the first and it is at most 100.  When at
    most 100 tools are selected the second is above the first, and both
    are what [Math.round] gives on the kernel's binary64 result of
    [(completedTools / totalTools) * 100].  The session reaches
    COMPLETED with the deduplicated findings of the turns and its last
    progress message carries 100. *)
Theorem C10_unknown_tool_is_skipped (w : World) (b : Bridges)
    (targetId targetPath : string) (tools : list string) (i : nat)
    (tool : string) :
  Orchestrator.valid_target w targetId targetPath →
  tools !! i = Some tool →
  tool ≠ "Semgrep" → tool ≠ "Trivy" → tool ≠ "OWASP Dependency Check" →
  let '(session, notes, st) := Orchestrator.run_session w b targetId tools in
  let N := length tools in
  let k := Orchestrator.completed_from w b targetPath (take i tools) 0 in
  let before := Orchestrator.Math_round (Orchestrator.percent k N) in
  let after := Orchestrator.Math_round (Orchestrator.percent (S k) N) in
  let exact (c : nat) := (100 * (inject_Z (Z.of_nat c) / inject_Z (Z.of_nat N)))%Q in
  (* nothing is thrown and nothing is found *)
  Orchestrator.outcome_of w b targetPath tool i = Ok [] ∧
  Orchestrator.turn_of w b targetPath tool i = Ok [] ∧
  notes !! i = Some (Orchestrator.NoteResult tool 0) ∧
  (* the tool is counted as completed *)
  Orchestrator.completed_from w b targetPath (take (S i) tools) 0 = S k ∧
  (S k ≤ N)%nat ∧
  Orchestrator.ProgressEvent (Some tool) before
    ("Starting " +:+ tool +:+ " scan...") ∈ Orchestrator.emitted st ∧
  Orchestrator.ProgressEvent (Some tool) after
    ("Completed " +:+ tool +:+ " scan") ∈ Orchestrator.emitted st ∧
  (∀ ct pc message,
     Orchestrator.ProgressEvent ct pc message ∈ Orchestrator.emitted st →
     String.prefix "Error in " message = true →
     ∃ j t error, j ≠ i ∧ tools !! j = Some t ∧
       Orchestrator.turn_of w b targetPath t j = Throw error ∧ ct = Some t) ∧
  (* progress advances *)
  (inject_Z before - exact k <= (1 # 2) + (1 # 1000000000000))%Q ∧
  (exact k - inject_Z before <= (1 # 2) + (1 # 1000000000000))%Q ∧
  (inject_Z after - exact (S k) <= (1 # 2) + (1 # 1000000000000))%Q ∧
  (exact (S k) - inject_Z after <= (1 # 2) + (1 # 1000000000000))%Q ∧
  before ≤ after ∧ after ≤ 100 ∧
  ((N ≤ 100)%nat →
   before < after ∧
   ∃ q q',
     Orchestrator.percent_binary64 k N = Some q ∧
     Orchestrator.Math_round q = before ∧
     Orchestrator.percent_binary64 (S k) N = Some q' ∧
     Orchestrator.Math_round q' = after) ∧
  (* the session completes *)
  Orchestrator.status session = Orchestrator.completed ∧
  Orchestrator.session_results session =
    Some (Dedup.deduplicateResults
            (Orchestrator.findings_from w b targetPath tools 0)) ∧
  last (Orchestrator.progress_values (Orchestrator.emitted st)) = Some 100.
Proof.
  intros Hv Hi H1 H2 H3.
  pose proof (unknown_tool_outcome w b targetPath tool i H1 H2 H3) as Hrun.
  pose proof (unknown_tool_turn w b targetPath tool i H1 H2 H3) as Hout.
  pose proof (session_messages w b targetId targetPath tools Hv) as Hall.
  destruct (run_session_valid w b targetId targetPath tools Hv)
    as (st & evs & Hsession & Hem & _ & _ & Hmsg & _).
  rewrite Hsession in Hall |- *. cbv beta iota in Hall. clear Hsession.
  cbv zeta.
  set (N := length tools).
  set (k := Orchestrator.completed_from w b targetPath (take i tools) 0).
  assert (HiN : (i < N)%nat) by (by apply lookup_lt_Some in Hi).
  assert (Hk : (S k ≤ N)%nat).
  { pose proof (completed_from_le w b targetPath (take i tools) 0) as Hle.
    rewrite length_take_le in Hle by (unfold N in HiN; lia). unfold k. lia. }
  assert (HN : (0 < N)%nat) by lia.
  destruct (percent_accurate k N ltac:(lia) HN) as [A1 A2].
  destruct (percent_accurate (S k) N Hk HN) as [B1 B2].
  cbv zeta in A1, A2, B1, B2.
  destruct (Math_round_bounds (Orchestrator.percent k N)) as [M1 M2].
  destruct (Math_round_bounds (Orchestrator.percent (S k) N)) as [M3 M4].
  split; [exact Hrun|]. split; [exact Hout|]. split.
  { rewrite (notes_from_lookup w b targetPath tools 0 i tool Hi).
    cbn [Nat.add]. by rewrite Hout. }
  split.
  { rewrite (take_S_r _ _ _ Hi), completed_from_snoc.
    cbn [Nat.add]. rewrite length_take_le by (unfold N in HiN; lia).
    by rewrite Hout. }
  split; [exact Hk|].
  destruct (Hmsg i tool Hi) as [Hstart Hend]. cbv zeta in Hstart, Hend.
  rewrite Hout in Hend.
  cbn [Orchestrator.closing_message Orchestrator.completed_after] in Hend.
  split; [rewrite Hem; apply elem_of_app; right; apply elem_of_app; by left|].
  split; [rewrite Hem; apply elem_of_app; right; apply elem_of_app; by left|].
  split.
  { intros ct pc message He Hp.
    destruct (Hall ct pc message He)
      as [-> | [-> | [-> | [Hf | (j & t & Hj & -> & [-> | ->])]]]].
    - vm_compute in Hp. discriminate.
    - by rewrite not_error_resolved in Hp.
    - vm_compute in Hp. discriminate.
    - by rewrite (not_error_found _ Hf) in Hp.
    - by rewrite not_error_starting in Hp.
    - destruct (Orchestrator.turn_of w b targetPath t j) as [fs|error] eqn:Ht.
      + cbn [Orchestrator.closing_message] in Hp.
        by rewrite not_error_completed in Hp.
      + exists j, t, error. split; [|done]. intros ->.
        assert (t = tool) as -> by congruence. congruence. }
  split; [lra|]. split; [lra|]. split; [lra|]. split; [lra|].
  split; [apply round_percent_mono; lia|].
  split; [by apply round_percent_le_100|].
  split.
  { intros HN100. split.
    2:{ destruct (percent_is_binary64 k N ltac:(lia) ltac:(lia)) as (q & Hq & Eq).
        destruct (percent_is_binary64 (S k) N ltac:(lia) Hk) as (q' & Hq' & Eq').
        exists q, q'. split; [exact Hq|]. split.
        { unfold Orchestrator.Math_round. apply Qfloor_comp. by rewrite Eq. }
        split; [exact Hq'|].
        unfold Orchestrator.Math_round. apply Qfloor_comp. by rewrite Eq'. }
    destruct (decide (N = 100%nat)) as [E|NE].
    - destruct (round_percent_accurate k N ltac:(lia) HN) as [_ U].
      destruct (round_percent_accurate (S k) N Hk HN) as [L _].
      assert (E' : Z.of_nat N = 100) by lia.
      rewrite E' in U, L. lia.
    - set (n := inject_Z (Z.of_nat N)) in *.
      set (a := inject_Z (Z.of_nat (S k))) in *.
      set (c := inject_Z (Z.of_nat k)) in *.
      assert (Hn0 : (0 < n)%Q).
      { unfold n. replace 0%Q with (inject_Z 0) by done. rewrite <- Zlt_Qlt. lia. }
      assert (Hn99 : (n <= 99)%Q).
      { unfold n. replace 99%Q with (inject_Z 99) by done. rewrite <- Zle_Qle. lia. }
      assert (Hs : (a == c + 1)%Q).
      { unfold a, c. rewrite Nat2Z.inj_succ. unfold Z.succ.
        rewrite inject_Z_plus. reflexivity. }
      assert (Hu : (n * / n == 1)%Q) by (apply Qmult_inv_r; lra).
      assert (Hu0 : (0 <= / n)%Q) by (apply Qinv_le_0_compat; lra).
      assert (Hu99 : (0 <= (99 - n) * / n)%Q) by (apply Qmult_le_0_compat; lra).
      assert (Hsu : (a * / n == c * / n + / n)%Q) by (rewrite Hs; ring).
      unfold Qdiv in A2, B2, A1, B1.
      rewrite Zlt_Qlt. lra. }
  split; [reflexivity|]. split; [reflexivity|].
  rewrite Hem. rewrite !progress_values_app.
  cbn [Orchestrator.progress_values]. rewrite app_assoc. apply last_snoc.
Qed.

Lemma C10_witness :
  let '(session, notes, st) :=
    Orchestrator.run_session (Sample.windows_host false)
      (host_bridges (Sample.windows_host false)) Sample.staged_id
      (replicate 40 "Bandit") in
  notes !! 22%nat = Some (Orchestrator.NoteResult "Bandit" 0) ∧
  Orchestrator.ProgressEvent (Some "Bandit") 55 "Starting Bandit scan..."
    ∈ Orchestrator.emitted st ∧
  Orchestrator.ProgressEvent (Some "Bandit") 57 "Completed Bandit scan"
    ∈ Orchestrator.emitted st.
Proof.
  assert (Hv : Orchestrator.valid_target (Sample.windows_host false)
                 Sample.staged_id Sample.staged_path) by (vm_compute; done).
  pose proof (C10_unknown_tool_is_skipped (Sample.windows_host false)
                (host_bridges (Sample.windows_host false))
                Sample.staged_id Sample.staged_path (replicate 40 "Bandit")
                22 "Bandit" Hv eq_refl
                ltac:(discriminate) ltac:(discriminate) ltac:(discriminate)) as H.
  destruct (Orchestrator.run_session _ _ _ _) as [[session notes] st].
  destruct H as (_ & _ & Hn & _ & _ & Hs & Hc & _).
  assert (E1 : Orchestrator.Math_round (Orchestrator.percent
            (Orchestrator.completed_from (Sample.windows_host false)
               (host_bridges (Sample.windows_host false)) Sample.staged_path
               (take 22 (replicate 40 "Bandit")) 0) (length (replicate 40 "Bandit")))
          = 55) by (vm_compute; reflexivity).
  assert (E2 : Orchestrator.Math_round (Orchestrator.percent
            (S (Orchestrator.completed_from (Sample.windows_host false)
               (host_bridges (Sample.windows_host false)) Sample.staged_path
               (take 22 (replicate 40 "Bandit")) 0)) (length (replicate 40 "Bandit")))
          = 57) by (vm_compute; reflexivity).
  rewrite E1 in Hs. rewrite E2 in Hc.
  split; [exact Hn|]. split; [exact Hs|exact Hc].
Defined.

Lemma C5_witness :
  Resolver.resolves (Sample.windows_host false) Sample.staged_id
    (Some Sample.staged_path).
Proof.
  apply (proj2 (C5_resolution_priority (Sample.windows_host false)
                  Sample.staged_id (Some Sample.staged_path))).
  vm_compute. reflexivity.
Defined.

(** * Further properties *)

(** ** Subprocess supervision *)

Section ExecMore.

Import Exec.

(** While the timer is set nothing has happened to the promise; once it is
    gone the promise is settled, and the child was signalled exactly when
    the promise was rejected for the timeout. *)
Lemma step_timer_inv st e :
  (timerSet st = true ∧ promise st = Pending ∧ timedOut st = false ∧ signals st = []) ∨
  (timerSet st = false ∧
   ((promise st = Rejected ExecutionTimeout ∧ signals st = ["SIGTERM"]) ∨
    (promise st ≠ Pending ∧ promise st ≠ Rejected ExecutionTimeout ∧
     timedOut st = false ∧ signals st = []))) →
  (timerSet (step st e) = true ∧ promise (step st e) = Pending ∧
   timedOut (step st e) = false ∧ signals (step st e) = []) ∨
  (timerSet (step st e) = false ∧
   ((promise (step st e) = Rejected ExecutionTimeout ∧ signals (step st e) = ["SIGTERM"]) ∨
    (promise (step st e) ≠ Pending ∧ promise (step st e) ≠ Rejected ExecutionTimeout ∧
     timedOut (step st e) = false ∧ signals (step st e) = []))).
Proof.
  intros [(Ht & Hp & Hto & Hs)|(Ht & [(Hp & Hs)|(Hp & Hp' & Hto & Hs)])].
  - destruct e; simpl; rewrite ?Ht, ?Hp, ?Hto, ?Hs; simpl.
    + by left.
    + by left.
    + right. split; [done|]. right. done.
    + right. split; [done|]. right.
      repeat case_match; done.
    + right. split; [done|]. by left.
  - right. assert (Hq : promise (step st e) = promise st).
    { apply step_settled. by rewrite Hp. }
    rewrite Hq. destruct e; simpl; rewrite ?Ht, ?Hs; simpl; split; try done;
      by left.
  - right. assert (Hq : promise (step st e) = promise st) by by apply step_settled.
    rewrite Hq. destruct e; simpl; rewrite ?Ht, ?Hs, ?Hto; simpl; split; try done;
      by right.
Qed.

Lemma fold_timer_inv events : ∀ st,
  (timerSet st = true ∧ promise st = Pending ∧ timedOut st = false ∧ signals st = []) ∨
  (timerSet st = false ∧
   ((promise st = Rejected ExecutionTimeout ∧ signals st = ["SIGTERM"]) ∨
    (promise st ≠ Pending ∧ promise st ≠ Rejected ExecutionTimeout ∧
     timedOut st = false ∧ signals st = []))) →
  let st' := fold_left step events st in
  (timerSet st' = true ∧ promise st' = Pending ∧ timedOut st' = false ∧ signals st' = []) ∨
  (timerSet st' = false ∧
   ((promise st' = Rejected ExecutionTimeout ∧ signals st' = ["SIGTERM"]) ∨
    (promise st' ≠ Pending ∧ promise st' ≠ Rejected ExecutionTimeout ∧
     timedOut st' = false ∧ signals st' = []))).
Proof.
  induction events as [|e events IH]; intros st H; simpl; [done|].
  apply IH. by apply step_timer_inv.
Qed.

(** Once the timer is cleared without having fired, no later event sends a
    signal or changes the promise. *)
Lemma fold_after_exit events : ∀ st,
  timerSet st = false → promise st ≠ Pending →
  promise (fold_left step events st) = promise st ∧
  signals (fold_left step events st) = signals st ∧
  timedOut (fold_left step events st) = timedOut st.
Proof.
  induction events as [|e events IH]; intros st Ht Hp; simpl; [done|].
  assert (Hq : promise (step st e) = promise st) by by apply step_settled.
  destruct (IH (step st e)) as (A & B & C).
  - destruct e; simpl; try done. by rewrite Ht.
  - by rewrite Hq.
  - rewrite A, B, C, Hq. destruct e; simpl; try done; by rewrite Ht.
Qed.

End ExecMore.

(** X1.  A child that exits with code 0 before the timer expires makes
    [executeCommand] resolve with everything it wrote to stdout, also when
    that is nothing at all; what it wrote to stderr is dropped, whatever
    comes after the ['close'] event changes nothing, and the child is never
    sent a signal. *)
Theorem X1_zero_exit_resolves_with_stdout
    (chunks post : list Exec.ProcEvent) :
  Exec.only_data chunks →
  let events := chunks ++ Exec.Close (Some 0) :: post in
  Exec.executeCommand events = Exec.Resolved (Exec.stdout_of chunks) ∧
  Exec.signals (Exec.run events) = [] ∧
  Exec.timedOut (Exec.run events) = false.
Proof.
  intros Hd events. unfold events, Exec.executeCommand, Exec.run.
  rewrite fold_left_app. cbn [fold_left].
  destruct (fold_only_data chunks Exec.initial Hd initial_untouched)
    as ((Hp & Ht & Hto) & Ho & _ & Hs).
  simpl in Ho, Hs. rewrite append_nil_l in Ho.
  set (st := fold_left Exec.step chunks Exec.initial) in *.
  assert (Hc : Exec.promise (Exec.step st (Exec.Close (Some 0))) =
               Exec.Resolved (Exec.stdout_of chunks)).
  { simpl. rewrite Hto, Hp, Ho. done. }
  destruct (fold_after_exit (post ++ [Exec.TimerFired])
              (Exec.step st (Exec.Close (Some 0)))) as (A & B & C);
    [done|by rewrite Hc|].
  rewrite fold_left_app in A, B, C. cbn [fold_left] in A, B, C.
  rewrite A, B, C, Hc. simpl. by rewrite Hs, Hto.
Qed.

Lemma X1_witness :
  Exec.executeCommand
    ([Exec.StderrData "warning"] ++ Exec.Close (Some 0) :: [Exec.TimerFired]) =
    Exec.Resolved "".
Proof.
  apply (X1_zero_exit_resolves_with_stdout [Exec.StderrData "warning"]
           [Exec.TimerFired]).
  repeat constructor.
Defined.

(** X2.  When the child cannot be started or fails with an ['error'] event
    before it closes and before the timer expires, [executeCommand] rejects
    with that error, whatever the child wrote before and whatever follows,
    and no signal is sent. *)
Theorem X2_error_event_rejects (chunks post : list Exec.ProcEvent)
    (message : string) :
  Exec.only_data chunks →
  let events := chunks ++ Exec.ProcError message :: post in
  Exec.executeCommand events = Exec.Rejected (Exec.SpawnError message) ∧
  Exec.signals (Exec.run events) = [].
Proof.
  intros Hd events. unfold events, Exec.executeCommand, Exec.run.
  rewrite fold_left_app. cbn [fold_left].
  destruct (fold_only_data chunks Exec.initial Hd initial_untouched)
    as ((Hp & Ht & Hto) & _ & _ & Hs).
  simpl in Hs.
  set (st := fold_left Exec.step chunks Exec.initial) in *.
  assert (Hc : Exec.promise (Exec.step st (Exec.ProcError message)) =
               Exec.Rejected (Exec.SpawnError message)).
  { simpl. by rewrite Hp. }
  destruct (fold_after_exit (post ++ [Exec.TimerFired])
              (Exec.step st (Exec.ProcError message))) as (A & B & _);
    [done|by rewrite Hc|].
  rewrite fold_left_app in A, B. cbn [fold_left] in A, B.
  rewrite A, B, Hc. simpl. by rewrite Hs.
Qed.

Lemma X2_witness :
  Exec.executeCommand
    ([] ++ Exec.ProcError "spawn wsl ENOENT" :: [Exec.Close (Some 1)]) =
    Exec.Rejected (Exec.SpawnError "spawn wsl ENOENT").
Proof.
  apply (X2_error_event_rejects [] [Exec.Close (Some 1)] "spawn wsl ENOENT").
  constructor.
Defined.

(** X3.  Whatever events a run consists of, [executeCommand] settles; the
    child is sent SIGTERM exactly when the call is rejected with the timeout
    error, and it is sent at most once. *)
Theorem X3_killed_iff_timed_out (events : list Exec.ProcEvent) :
  Exec.executeCommand events ≠ Exec.Pending ∧
  (Exec.executeCommand events = Exec.Rejected Exec.ExecutionTimeout ↔
   Exec.signals (Exec.run events) = ["SIGTERM"]) ∧
  (Exec.executeCommand events ≠ Exec.Rejected Exec.ExecutionTimeout ↔
   Exec.signals (Exec.run events) = []).
Proof.
  unfold Exec.executeCommand, Exec.run.
  assert (H := fold_timer_inv (events ++ [Exec.TimerFired]) Exec.initial
                 (or_introl (conj eq_refl (conj eq_refl (conj eq_refl eq_refl))))).
  cbv zeta in H. rewrite fold_left_app in H. cbn [fold_left] in H.
  destruct H as [(Ht & _)|(_ & [(Hp & Hs)|(Hp & Hp' & _ & Hs)])].
  - exfalso. revert Ht. generalize (fold_left Exec.step events Exec.initial).
    intros st. simpl. destruct (Exec.timerSet st) eqn:E; simpl; congruence.
  - rewrite Hp, Hs. repeat split; done.
  - rewrite Hs. repeat split; done.
Qed.

(** ** Result deduplication *)

Section DedupMore.

Import Dedup.

Lemma keys_insert_by acc r k :
  k ∈ map key_of (insert_by acc r) ↔ k ∈ map key_of acc ∨ k = key_of r.
Proof.
  destruct (decide (key_of r ∈ map key_of acc)) as [Hin|Hout].
  - rewrite keys_insert_by_hit by done. split; [by left|].
    intros [H | ->]; done.
  - rewrite keys_insert_by_miss by done. rewrite elem_of_app, list_elem_of_singleton.
    done.
Qed.

Lemma keys_fold_insert_by l : ∀ acc k,
  k ∈ map key_of (fold_left insert_by l acc) ↔
  k ∈ map key_of acc ∨ k ∈ map key_of l.
Proof.
  induction l as [|r l IH]; intros acc k; simpl.
  - rewrite elem_of_nil. tauto.
  - rewrite IH, keys_insert_by, elem_of_cons. tauto.
Qed.

Lemma length_insert_by acc r :
  (length (insert_by acc r) ≤ S (length acc))%nat.
Proof.
  induction acc as [|c acc IH]; simpl; [lia|].
  destruct (String.eqb (key_of c) (key_of r)); simpl; lia.
Qed.

Lemma length_fold_insert_by l : ∀ acc,
  (length (fold_left insert_by l acc) ≤ length acc + length l)%nat.
Proof.
  induction l as [|r l IH]; intros acc; simpl; [lia|].
  specialize (IH (insert_by acc r)). pose proof (length_insert_by acc r). lia.
Qed.

Lemma deduplicateResults_length (l : list Finding) :
  (length (deduplicateResults l) ≤ length l)%nat.
Proof. rewrite deduplicateResults_fold. apply (length_fold_insert_by l []). Qed.

Lemma extends_tool_refl r : extends_tool r r.
Proof. repeat split. exists "". by rewrite append_nil_r. Qed.

Lemma extends_tool_trans a b c :
  extends_tool a b → extends_tool b c → extends_tool a c.
Proof.
  intros (A1 & A2 & A3 & A4 & m & A5) (B1 & B2 & B3 & B4 & m' & B5).
  repeat split; try congruence.
  exists (m +:+ m'). by rewrite B5, A5, append_assoc.
Qed.

Lemma extends_tool_merge c r : extends_tool c (merge_tool c r).
Proof.
  unfold merge_tool. destruct (JS.includes (tool c) (tool r)).
  - apply extends_tool_refl.
  - repeat split. simpl. by eexists.
Qed.

Lemma insert_by_extends acc r c :
  c ∈ acc → ∃ c', c' ∈ insert_by acc r ∧ extends_tool c c'.
Proof.
  induction acc as [|a acc IH]; intros Hc; [by apply elem_of_nil in Hc|].
  simpl. apply elem_of_cons in Hc as [-> | Hc].
  - destruct (String.eqb (key_of a) (key_of r)).
    + exists (merge_tool a r). split; [left|apply extends_tool_merge].
    + exists a. split; [left|apply extends_tool_refl].
  - destruct (String.eqb (key_of a) (key_of r)).
    + exists c. split; [by right|apply extends_tool_refl].
    + destruct (IH Hc) as (c' & Hin & He). exists c'. split; [by right|done].
Qed.

Lemma fold_insert_by_extends l : ∀ acc c,
  c ∈ acc → ∃ c', c' ∈ fold_left insert_by l acc ∧ extends_tool c c'.
Proof.
  induction l as [|r l IH]; intros acc c Hc; simpl.
  - exists c. split; [done|apply extends_tool_refl].
  - destruct (insert_by_extends acc r c Hc) as (c1 & H1 & E1).
    destruct (IH _ _ H1) as (c2 & H2 & E2).
    exists c2. split; [done|]. by apply extends_tool_trans with c1.
Qed.

Lemma insert_by_new acc r :
  key_of r ∉ map key_of acc → r ∈ insert_by acc r.
Proof.
  intros H. rewrite insert_by_miss.
  - apply elem_of_app. right. left.
  - intros c Hc E. apply H. rewrite <- E. apply list_elem_of_fmap. by exists c.
Qed.

Lemma extends_tool_key r c : extends_tool r c → key_of c = key_of r.
Proof. intros (_ & A & B & C & _). unfold key_of. by rewrite A, B, C. Qed.

End DedupMore.

(** X4.  Deduplication loses no key and repeats none: the keys of the output
    are pairwise distinct, they are exactly the keys that occur in the
    input, and the output is never longer than the input. *)
Theorem X4_dedupe_keys_distinct_and_complete (l : list Finding) :
  NoDup (map Dedup.key_of (Dedup.deduplicateResults l)) ∧
  (∀ k, k ∈ map Dedup.key_of (Dedup.deduplicateResults l) ↔
        k ∈ map Dedup.key_of l) ∧
  (length (Dedup.deduplicateResults l) ≤ length l)%nat.
Proof.
  rewrite deduplicateResults_fold. split; [apply dedupe_fold_keys_NoDup|]. split.
  - intros k. unfold Dedup.dedupe_fold. rewrite keys_fold_insert_by.
    simpl. rewrite elem_of_nil. tauto.
  - rewrite <- deduplicateResults_fold. apply deduplicateResults_length.
Qed.

(** X5.  Deduplication returns its input unchanged exactly when the keys of
    the input are pairwise distinct. *)
Theorem X5_dedupe_identity_iff_distinct_keys (l : list Finding) :
  Dedup.deduplicateResults l = l ↔ NoDup (map Dedup.key_of l).
Proof.
  split.
  - intros H. rewrite <- H at 1. rewrite deduplicateResults_fold.
    apply dedupe_fold_keys_NoDup.
  - intros H. rewrite deduplicateResults_fold.
    apply (fold_insert_by_distinct l []). done.
Qed.

(** X6.  The first finding of a key is the one that survives: for the first
    position of a key in the input, the output holds a record with that key
    and with the severity, category, file and line of that finding; its
    tool field starts with that finding's tool.  The severities of later
    findings with the key are discarded. *)
Theorem X6_first_occurrence_wins (l : list Finding) (i : nat) (r : Finding) :
  l !! i = Some r →
  (∀ j r', (j < i)%nat → l !! j = Some r' → Dedup.key_of r' ≠ Dedup.key_of r) →
  ∃ c, c ∈ Dedup.deduplicateResults l ∧ Dedup.key_of c = Dedup.key_of r ∧
       extends_tool r c ∧
       ∀ c', c' ∈ Dedup.deduplicateResults l →
             Dedup.key_of c' = Dedup.key_of r → c' = c.
Proof.
  intros Hi Hfirst. rewrite deduplicateResults_fold. unfold Dedup.dedupe_fold.
  rewrite <- (take_drop_middle l i r Hi). rewrite fold_left_app. simpl.
  set (acc := fold_left Dedup.insert_by (take i l) []).
  assert (Hnew : Dedup.key_of r ∉ map Dedup.key_of acc).
  { unfold acc. rewrite keys_fold_insert_by. simpl. rewrite elem_of_nil.
    intros [[]|H]. apply list_elem_of_fmap in H as (r' & E & Hr').
    apply list_elem_of_lookup in Hr' as (j & Hj).
    pose proof (lookup_lt_Some _ _ _ Hj) as Hlt. rewrite length_take in Hlt.
    rewrite lookup_take_lt in Hj by lia.
    apply (Hfirst j r'); [lia|done|done]. }
  destruct (fold_insert_by_extends (drop (S i) l) _ r (insert_by_new acc r Hnew))
    as (c & Hc & He).
  exists c. split; [done|]. split; [by apply extends_tool_key|]. split; [done|].
  intros c' Hc' Hk.
  pose proof (fold_insert_by_keys_NoDup (drop (S i) l) (Dedup.insert_by acc r)) as Hnd.
  assert (Hacc : NoDup (map Dedup.key_of acc)).
  { apply (fold_insert_by_keys_NoDup (take i l) []). constructor. }
  specialize (Hnd (insert_by_keys_NoDup _ _ Hacc)).
  apply list_elem_of_lookup in Hc as (p & Hp), Hc' as (p' & Hp').
  assert (p' = p).
  { eapply NoDup_lookup; [exact Hnd| |].
    - rewrite list_lookup_fmap, Hp'. simpl. reflexivity.
    - rewrite list_lookup_fmap, Hp. simpl. rewrite Hk.
      by rewrite (extends_tool_key _ _ He). }
  subst. congruence.
Qed.

Lemma X6_witness :
  ∃ c, c ∈ Dedup.deduplicateResults
             [ mkFinding "Semgrep" "LOW" "Vulnerable Dependency" "package.json" 0;
               mkFinding "Trivy" "CRITICAL" "Vulnerable Dependency" "package.json" 0 ] ∧
       severity c = "LOW" ∧ tool c = "Semgrep, Trivy".
Proof.
  destruct (X6_first_occurrence_wins
    [ mkFinding "Semgrep" "LOW" "Vulnerable Dependency" "package.json" 0;
      mkFinding "Trivy" "CRITICAL" "Vulnerable Dependency" "package.json" 0 ]
    0 (mkFinding "Semgrep" "LOW" "Vulnerable Dependency" "package.json" 0))
    as (c & Hc & _ & (Hs & _) & _).
  - reflexivity.
  - intros j r' Hj. lia.
  - exists c. split; [done|]. split; [done|].
    vm_compute in Hc. apply list_elem_of_singleton in Hc. by subst.
Defined.

Section CollapseFacts.

Import Dedup.

(** A deduplicated list is no longer than any list that holds all its
    keys. *)
Lemma dedupe_count_by_keys (l : list Finding) (ks : list string) :
  (∀ r, r ∈ l → key_of r ∈ ks) →
  (length (deduplicateResults l) ≤ length ks)%nat.
Proof.
  intros H. rewrite <- (length_fmap key_of).
  apply submseteq_length, NoDup_submseteq.
  - rewrite deduplicateResults_fold. apply dedupe_fold_keys_NoDup.
  - intros k Hk. rewrite deduplicateResults_fold in Hk.
    unfold dedupe_fold in Hk. apply keys_fold_insert_by in Hk as [Hk|Hk].
    + by apply elem_of_nil in Hk.
    + apply list_elem_of_fmap in Hk as (r & -> & Hr). by apply H.
Qed.

(** Findings that share the key and the tool of the canonical record leave
    it as it is. *)
Lemma fold_insert_by_same (c : Finding) (l : list Finding) :
  JS.includes (tool c) (tool c) = true →
  (∀ r, r ∈ l → key_of r = key_of c ∧ tool r = tool c) →
  fold_left insert_by l [c] = [c].
Proof.
  intros Hinc. induction l as [|r l IH]; intros H; simpl; [done|].
  destruct (H r) as [Hk Ht]; [left|].
  rewrite Hk, String.eqb_refl. unfold merge_tool. rewrite Ht, Hinc.
  apply IH. intros r' Hr'. apply H. by right.
Qed.

End CollapseFacts.

(** X7.  The findings the Trivy parser builds for one target, and the ones
    the ODC parser builds for one dependency, all have the same key (file,
    line 0, category "Vulnerable Dependency").  After deduplication a Trivy
    report therefore keeps at most one finding per target and an ODC report
    at most one per dependency, and for a target with several
    vulnerabilities the finding kept is the one of the first
    vulnerability. *)
Theorem X7_one_finding_per_target_survives :
  (∀ report : Parse.TrivyReport,
     (length (Dedup.deduplicateResults (Parse.parseTrivyData (Some report)))
      ≤ length (default [] (Parse.tv_Results report)))%nat) ∧
  (∀ report : Parse.ODCReport,
     (length (Dedup.deduplicateResults (Parse.parseODCData (Some report)))
      ≤ length (default [] (Parse.odc_dependencies report)))%nat) ∧
  (∀ (target : string) (vuln : Parse.TrivyVuln) (vulns : list Parse.TrivyVuln),
     let t := Parse.mkTrivyTarget target (Some (vuln :: vulns)) in
     Dedup.deduplicateResults
       (Parse.parseTrivyData (Some (Parse.mkTrivyReport (Some [t])))) =
     [Parse.trivy_finding t vuln]).
Proof.
  split; [|split].
  - intros [[targets|]]; simpl; [|by vm_compute].
    rewrite <- (length_fmap (λ t, Dedup.key_of
      (Parse.trivy_finding t (Parse.mkTrivyVuln "" None))) targets).
    apply dedupe_count_by_keys. intros r Hr.
    apply elem_of_concat in Hr as (fs & Hr & Hfs).
    apply list_elem_of_fmap in Hfs as (t & -> & Ht).
    apply list_elem_of_fmap. exists t. split; [|done].
    destruct (Parse.tv_Vulnerabilities t) as [vs|]; [|by apply elem_of_nil in Hr].
    apply list_elem_of_fmap in Hr as (v & -> & _). reflexivity.
  - intros [[deps|]]; simpl; [|by vm_compute].
    rewrite <- (length_fmap (λ d, Dedup.key_of
      (Parse.odc_finding d (Parse.mkODCVuln None None))) deps).
    apply dedupe_count_by_keys. intros r Hr.
    apply elem_of_concat in Hr as (fs & Hr & Hfs).
    apply list_elem_of_fmap in Hfs as (d & -> & Hd).
    apply list_elem_of_fmap. exists d. split; [|done].
    destruct (Parse.odc_vulnerabilities d) as [vs|]; [|by apply elem_of_nil in Hr].
    apply list_elem_of_fmap in Hr as (v & -> & _). reflexivity.
  - intros target vuln vulns t. rewrite deduplicateResults_fold.
    unfold Dedup.dedupe_fold. simpl. rewrite app_nil_r.
    apply fold_insert_by_same; [reflexivity|].
    intros r Hr. apply list_elem_of_fmap in Hr as (v & -> & _). done.
Qed.

(** ** The orchestrator *)

Section OrchestratorMore.

Import Orchestrator.

Lemma valid_target_dec (w : World) (targetId : string) :
  (∃ targetPath, valid_target w targetId targetPath) ∨
  ¬ (∃ targetPath, valid_target w targetId targetPath).
Proof.
  unfold valid_target.
  destruct (Resolver.resolveTargetPath w targetId) as [p|] eqn:Hr.
  - destruct (existsSync w p) eqn:He; [destruct (isDirectory w p) eqn:Hd|].
    + left. by exists p.
    + right. intros (q & [= <-] & _ & ?). congruence.
    + right. intros (q & [= <-] & ? & _). congruence.
  - right. intros (q & ? & _). done.
Qed.

Lemma notes_from_elem (w : World) (b : Bridges) (targetPath : string)
    (tools : list string) : ∀ i note,
  note ∈ notes_from w b targetPath tools i →
  ∃ j tool, tools !! j = Some tool ∧
    note = note_of tool (turn_of w b targetPath tool (i + j)).
Proof.
  induction tools as [|tool tools IH]; intros i note H; cbn [notes_from] in H.
  - by apply elem_of_nil in H.
  - apply elem_of_cons in H as [-> | H].
    + exists 0%nat, tool. by rewrite Nat.add_0_r.
    + destruct (IH (S i) note H) as (j & t & Hj & ->).
      exists (S j), t. split; [done|]. do 2 f_equal. lia.
Qed.

Lemma findings_from_elem (w : World) (b : Bridges) (targetPath : string)
    (tools : list string) : ∀ i f,
  f ∈ findings_from w b targetPath tools i ↔
  ∃ j tool, tools !! j = Some tool ∧
    f ∈ findings_of (turn_of w b targetPath tool (i + j)).
Proof.
  induction tools as [|tool tools IH]; intros i f; cbn [findings_from].
  - split; [by intros H%elem_of_nil|]. by intros (j & t & Hj & _).
  - rewrite elem_of_app, (IH (S i)). split.
    + intros [H|(j & t & Hj & H)].
      * exists 0%nat, tool. by rewrite Nat.add_0_r.
      * exists (S j), t. split; [done|].
        by replace (i + S j)%nat with (S i + j)%nat by lia.
    + intros ([|j] & t & Hj & H).
      * left. injection Hj as <-. by rewrite Nat.add_0_r in H.
      * right. exists j, t. split; [done|].
        by replace (S i + j)%nat with (i + S j)%nat by lia.
Qed.

(** The findings a turn adds to [this.results]: those of a run that
    returns and whose findings fit the push. *)
Lemma findings_of_turn (w : World) (b : Bridges) (targetPath tool : string)
    (i : nat) (f : Finding) :
  f ∈ findings_of (turn_of w b targetPath tool i) ↔
  ∃ findings, outcome_of w b targetPath tool i = Ok findings ∧
    (length findings ≤ spread_limit w)%nat ∧ f ∈ findings.
Proof.
  unfold turn_of. destruct (outcome_of w b targetPath tool i) as [fs|e].
  - destruct (length fs <=? spread_limit w)%nat eqn:Hl; cbn [findings_of].
    + apply Nat.leb_le in Hl. split; [by exists fs|].
      by intros (findings & [= <-] & _ & H).
    + apply Nat.leb_gt in Hl. split; [by intros H%elem_of_nil|].
      intros (findings & [= <-] & Hle & _). lia.
  - cbn [findings_of]. split; [by intros H%elem_of_nil|].
    by intros (findings & [=] & _).
Qed.

(** The array of the caller after [deduplicateResults]: as long as
    before. *)
Lemma dedup_store_length (l : list Finding) :
  length (snd (Dedup.deduplicateResults_store l)) = length l.
Proof.
  unfold Dedup.deduplicateResults_store.
  pose proof (Inv_loop l (length l) 0 (Dedup.mkStore l ∅) [] [] eq_refl (Inv_init l))
    as H.
  destruct (Dedup.filter_loop (seq 0 (length l)) (Dedup.mkStore l ∅)) as [kept st].
  simpl in *. apply (Dedup.inv_len _ _ _ _ _ H).
Qed.

End OrchestratorMore.

(** X8.  With the bridges the backend really creates, no run of a tool
    throws into the orchestrator's loop: the bridges turn every failure
    into an empty result.  The turn of a tool throws only when the run
    returns more findings than the push onto the results can spread, with
    a RangeError.  Every per-tool note of a session is therefore the result
    note of a run whose findings fit, with their number, or the error note
    of a run whose findings do not fit, with the RangeError's message. *)
Theorem X8_host_bridges_never_throw (w : World) (targetId : string)
    (tools : list string) :
  (∀ targetPath tool i, ∃ findings,
     Orchestrator.outcome_of w (host_bridges w) targetPath tool i = Ok findings) ∧
  (∀ targetPath tool i error,
     Orchestrator.turn_of w (host_bridges w) targetPath tool i = Throw error →
     error = RangeError ∧
     ∃ findings,
       Orchestrator.outcome_of w (host_bridges w) targetPath tool i = Ok findings ∧
       (spread_limit w < length findings)%nat) ∧
  (let '(_, notes, _) :=
     Orchestrator.run_session w (host_bridges w) targetId tools in
   ∀ note, note ∈ notes →
     ∃ targetPath i tool findings,
       Orchestrator.valid_target w targetId targetPath ∧
       tools !! i = Some tool ∧
       Orchestrator.outcome_of w (host_bridges w) targetPath tool i = Ok findings ∧
       ((length findings ≤ spread_limit w)%nat ∧
        note = Orchestrator.NoteResult tool (length findings) ∨
        (spread_limit w < length findings)%nat ∧
        note = Orchestrator.NoteError tool "Maximum call stack size exceeded")).
Proof.
  split; [intros; apply host_outcome_ok|].
  split; [intros targetPath tool i error; apply host_turn_throws|].
  destruct (valid_target_dec w targetId) as [[targetPath Hv]|Hn].
  - destruct (run_session_valid w (host_bridges w) targetId targetPath tools Hv)
      as (st & evs & -> & _).
    intros note Hnote.
    apply notes_from_elem in Hnote as (j & tool & Hj & ->). cbn [Nat.add].
    destruct (host_outcome_ok w targetPath tool j) as [fs Hfs].
    exists targetPath, j, tool, fs. split; [done|]. split; [done|].
    split; [done|]. unfold Orchestrator.turn_of. rewrite Hfs.
    destruct (length fs <=? spread_limit w)%nat eqn:Hl;
      cbn [Orchestrator.note_of error_message].
    + left. by apply Nat.leb_le in Hl.
    + right. by apply Nat.leb_gt in Hl.
  - destruct (startScan_invalid w (host_bridges w) targetId tools
                Orchestrator.new_orchestrator Hn) as (error & _ & Heq).
    unfold Orchestrator.run_session. rewrite Heq.
    intros note Hnote. by apply elem_of_nil in Hnote.
Qed.

Section CompletionFacts.

Import Orchestrator.

Context (w : World) (b : Bridges).

(** What [startScan] leaves in [this.results] and sends last. *)
Lemma startScan_valid_count targetId targetPath tools st :
  valid_target w targetId targetPath →
  ∃ st',
    startScan w b targetId tools st =
      (Ok (Dedup.deduplicateResults
             (results st ++ findings_from w b targetPath tools 0),
           notes_from w b targetPath tools 0), st') ∧
    length (results st') =
      length (results st ++ findings_from w b targetPath tools 0) ∧
    last (emitted st') = Some (CompleteEvent (length (results st'))).
Proof.
  intros (Hres & Hex & Hdir).
  unfold startScan, scan_body.
  rewrite bind_run. cbn [sendProgress]. cbv beta iota.
  rewrite Hres. rewrite bind_run. cbn [sendProgress]. cbv beta iota.
  rewrite Hex, Hdir. cbn [negb]. cbv iota.
  rewrite bind_run.
  match goal with |- context [tool_loop _ _ _ _ _ _ _ _ ?s] =>
    destruct (tool_loop_spec w b targetPath (length tools) tools 0 0 [] s)
      as (evs & pc & ct & Heq & _) end.
  rewrite Heq. cbv beta iota.
  rewrite bind_run. cbn [sendProgress]. cbv beta iota.
  rewrite bind_run. unfold deduplicate.
  cbn [results progress currentTool emitted].
  pose proof (dedup_store_length
                (results st ++ findings_from w b targetPath tools 0)) as Hlen.
  destruct (Dedup.deduplicateResults_store
              (results st ++ findings_from w b targetPath tools 0))
    as [final mutated] eqn:Hd.
  cbv beta iota. rewrite bind_run. cbn [sendCompletion]. cbv beta iota.
  cbn [results progress currentTool emitted mret M_ret].
  eexists. split; [|split].
  - replace final with (Dedup.deduplicateResults
                          (results st ++ findings_from w b targetPath tools 0))
      by (unfold Dedup.deduplicateResults; by rewrite Hd).
    reflexivity.
  - exact Hlen.
  - cbn [emitted results]. by rewrite last_snoc.
Qed.

End CompletionFacts.

(** X9.  The [scan_complete] message of a session on a valid target is the
    last message sent and carries the number of findings the turns of the
    tools pushed onto the results, before deduplication; the results the
    session stores are the deduplicated ones, which can be fewer.  The
    findings pushed are those of the runs that return findings that fit
    the push: a run that throws, or whose findings are too many to be
    spread, adds none. *)
Theorem X9_completion_counts_raw_findings (w : World) (b : Bridges)
    (targetId targetPath : string) (tools : list string) :
  Orchestrator.valid_target w targetId targetPath →
  let '(session, _, st) := Orchestrator.run_session w b targetId tools in
  let raw := Orchestrator.findings_from w b targetPath tools 0 in
  last (Orchestrator.emitted st) = Some (Orchestrator.CompleteEvent (length raw)) ∧
  Orchestrator.session_results session = Some (Dedup.deduplicateResults raw) ∧
  (length (Dedup.deduplicateResults raw) ≤ length raw)%nat ∧
  (∀ f, f ∈ raw ↔
     ∃ i tool findings,
       tools !! i = Some tool ∧
       Orchestrator.outcome_of w b targetPath tool i = Ok findings ∧
       (length findings ≤ spread_limit w)%nat ∧ f ∈ findings) ∧
  (∀ i tool, tools !! i = Some tool →
     (∀ findings,
        Orchestrator.outcome_of w b targetPath tool i = Ok findings →
        (spread_limit w < length findings)%nat →
        Orchestrator.findings_of (Orchestrator.turn_of w b targetPath tool i) = []) ∧
     (∀ error,
        Orchestrator.outcome_of w b targetPath tool i = Throw error →
        Orchestrator.findings_of (Orchestrator.turn_of w b targetPath tool i) = [])).
Proof.
  intros Hv.
  destruct (startScan_valid_count w b targetId targetPath tools
              Orchestrator.new_orchestrator Hv) as (st' & Heq & Hlen & Hlast).
  unfold Orchestrator.run_session. rewrite Heq. cbv zeta.
  simpl in Hlen. rewrite Hlen in Hlast. split; [done|]. split; [done|].
  split; [apply deduplicateResults_length|]. split.
  - intros f. rewrite findings_from_elem. cbn [Nat.add]. split.
    + intros (j & tool & Hj & Hf).
      apply findings_of_turn in Hf as (findings & Ho & Hl & Hf).
      by exists j, tool, findings.
    + intros (j & tool & findings & Hj & Ho & Hl & Hf).
      exists j, tool. split; [done|]. apply findings_of_turn. by exists findings.
  - intros i tool Hi. split.
    + intros findings Ho Hl. unfold Orchestrator.turn_of. rewrite Ho.
      apply Nat.leb_gt in Hl. by rewrite Hl.
    + intros error Ho. unfold Orchestrator.turn_of. by rewrite Ho.
Qed.

Lemma X9_witness :
  let '(session, _, st) :=
    Orchestrator.run_session (Sample.windows_host true)
      (host_bridges (Sample.windows_host true)) Sample.staged_id
      ["Semgrep"; "Semgrep"] in
  let raw :=
    Orchestrator.findings_from (Sample.windows_host true)
      (host_bridges (Sample.windows_host true)) Sample.staged_path
      ["Semgrep"; "Semgrep"] 0 in
  last (Orchestrator.emitted st) = Some (Orchestrator.CompleteEvent (length raw)) ∧
  Orchestrator.session_results session = Some (Dedup.deduplicateResults raw) ∧
  (length (Dedup.deduplicateResults raw) ≤ length raw)%nat.
Proof.
  pose proof (X9_completion_counts_raw_findings (Sample.windows_host true)
           (host_bridges (Sample.windows_host true)) Sample.staged_id
           Sample.staged_path ["Semgrep"; "Semgrep"]
           (sample_target_valid true)) as H.
  destruct (Orchestrator.run_session _ _ _ _) as [[session notes] st].
  destruct H as (H1 & H2 & H3 & _).
  split; [exact H1|]. split; [exact H2|exact H3].
Defined.

Section SimulationFacts.

Import Orchestrator.

Context (w : World).

(** In simulation, with ODC switched off, the branch [run_tool] takes
    uses no answer of a bridge. *)
Lemma run_tool_simulated (b b' : Bridges) tool i targetPath :
  MOCK_WSL2 w = true → ENABLE_ODC w = false →
  run_tool w b tool i targetPath = run_tool w b' tool i targetPath.
Proof.
  intros Hm He. unfold run_tool, runSemgrepWithRealTime, runTrivyWithRealTime,
    runODCWithRealTime. rewrite Hm, He. reflexivity.
Qed.

Lemma tool_loop_simulated (b b' : Bridges) targetPath N :
  MOCK_WSL2 w = true → ENABLE_ODC w = false →
  ∀ tools i c notes st,
    tool_loop w b targetPath N tools i c notes st =
    tool_loop w b' targetPath N tools i c notes st.
Proof.
  intros Hm He. induction tools as [|tool tools IH]; intros i c notes st; [done|].
  cbn [tool_loop]. rewrite (run_tool_simulated b b' tool i targetPath Hm He).
  rewrite !bind_run. cbn [set_currentTool]. cbv beta iota.
  rewrite !bind_run. cbn [sendProgress]. cbv beta iota.
  rewrite !bind_run.
  destruct (attempt _ _) as [[[fs|e]|e'] st1]; [| |done].
  - rewrite !bind_run. cbn [sendProgress]. cbv beta iota. apply IH.
  - rewrite !bind_run. cbn [get_progress]. cbv beta iota.
    rewrite !bind_run. cbn [sendProgress]. cbv beta iota. apply IH.
Qed.

Lemma startScan_simulated (b b' : Bridges) targetId tools st :
  MOCK_WSL2 w = true → ENABLE_ODC w = false →
  startScan w b targetId tools st = startScan w b' targetId tools st.
Proof.
  intros Hm He. unfold startScan, scan_body.
  rewrite !bind_run. cbn [sendProgress]. cbv beta iota. rewrite !bind_run.
  cbn [sendProgress]. cbv beta iota.
  destruct (Resolver.resolveTargetPath w targetId) as [p|]; [|done].
  destruct (negb (existsSync w p)); [done|].
  destruct (negb (isDirectory w p)); [done|].
  rewrite !bind_run.
  rewrite (tool_loop_simulated b b' p (length tools) Hm He). reflexivity.
Qed.

(** The generator loop announces each finding once, in order, and every
    announcement carries the same total: [this.results] grows only after
    the tool has returned. *)
Lemma discover_announced describe total vulns : ∀ i st,
  ∃ st', discover describe total i vulns st = (Ok vulns, st') ∧
         results st' = results st ∧ currentTool st' = currentTool st ∧
         announced (emitted st') =
           announced (emitted st) ++
           map (λ v, (v, (length (results st) + 1)%nat)) vulns.
Proof.
  induction vulns as [|v vulns IH]; intros i st.
  - exists st. simpl. by rewrite app_nil_r.
  - cbn [discover]. rewrite !bind_run. cbn [sendVulnerability].
    rewrite !bind_run. cbn [sendProgress]. rewrite !bind_run.
    match goal with |- context [discover _ _ _ _ ?s] =>
      destruct (IH (S i) s) as (st' & Heq & Hr & Hc & Ha) end.
    rewrite Heq. eexists. split; [reflexivity|].
    cbn [results currentTool emitted] in *.
    split; [done|]. split; [done|]. rewrite Ha.
    unfold announced. rewrite !omap_app. simpl.
    rewrite <- !app_assoc. reflexivity.
Qed.

End SimulationFacts.

(** X10.  In simulation mode (MOCK_WSL2 on, ODC switched off) nothing a
    tool bridge answers reaches the session.  Each run still asks its
    bridge whether it is available, before it looks at the mode, but the
    answer is not used: the session's record, its notes and all its
    messages are the same whatever the bridges answer to the availability
    probe and to a scan. *)
Theorem X10_simulation_ignores_bridges (w : World) (b b' : Bridges)
    (targetId : string) (tools : list string) :
  MOCK_WSL2 w = true → ENABLE_ODC w = false →
  Orchestrator.run_session w b targetId tools =
  Orchestrator.run_session w b' targetId tools.
Proof.
  intros Hm He. unfold Orchestrator.run_session.
  by rewrite (startScan_simulated w b b' targetId tools _ Hm He).
Qed.

Lemma X10_witness :
  Orchestrator.run_session (Sample.windows_host true)
    (host_bridges (Sample.windows_host true)) Sample.staged_id ["Semgrep"; "Trivy"] =
  Orchestrator.run_session (Sample.windows_host true)
    (mkBridges false (λ _ _, Throw (BridgeError "down"))
       (λ _ _, Throw (BridgeError "down")) false
       (λ _ _, Throw (BridgeError "down")))
    Sample.staged_id ["Semgrep"; "Trivy"].
Proof.
  apply (X10_simulation_ignores_bridges (Sample.windows_host true));
    reflexivity.
Defined.

(** X11.  A simulated Semgrep or Trivy run announces each of its findings
    once, in the order of its list, and returns exactly those findings.
    The [totalFound] of every announcement of the run is the number of
    findings of the earlier tools plus one: it does not advance within a
    tool's run. *)
Theorem X11_simulated_run_announces_with_fixed_total (w : World) (b : Bridges)
    (tool : string) (i : nat) (targetPath : string) (st : Orchestrator.Orch) :
  MOCK_WSL2 w = true →
  tool = "Semgrep" ∨ tool = "Trivy" →
  let found := if String.eqb tool "Semgrep"
               then Orchestrator.semgrep_vulnerabilities
               else Orchestrator.trivy_vulnerabilities in
  ∃ st',
    Orchestrator.run_tool w b tool i targetPath st = (Ok found, st') ∧
    Orchestrator.results st' = Orchestrator.results st ∧
    announced (Orchestrator.emitted st') =
      announced (Orchestrator.emitted st) ++
      map (λ v, (v, (length (Orchestrator.results st) + 1)%nat)) found.
Proof.
  intros Hm [-> | ->]; cbn [String.eqb Ascii.eqb Bool.eqb]; cbv zeta;
    unfold Orchestrator.run_tool; cbn [String.eqb Ascii.eqb Bool.eqb].
  - unfold Orchestrator.runSemgrepWithRealTime. rewrite Hm.
    destruct (discover_announced
      (λ vuln, "Found " +:+ severity vuln +:+ " vulnerability: " +:+ type vuln)
      (length Orchestrator.semgrep_vulnerabilities)
      Orchestrator.semgrep_vulnerabilities 0 st) as (st' & Heq & Hr & _ & Ha).
    exists st'. split; [exact Heq|]. split; [exact Hr|exact Ha].
  - unfold Orchestrator.runTrivyWithRealTime. rewrite Hm.
    destruct (discover_announced
      (λ vuln, "Found dependency vulnerability: " +:+ type vuln)
      (length Orchestrator.trivy_vulnerabilities)
      Orchestrator.trivy_vulnerabilities 0 st) as (st' & Heq & Hr & _ & Ha).
    exists st'. split; [exact Heq|]. split; [exact Hr|exact Ha].
Qed.

Lemma X11_witness :
  ∃ st',
    Orchestrator.run_tool (Sample.windows_host true)
      (host_bridges (Sample.windows_host true)) "Trivy" 1 Sample.staged_path
      Orchestrator.new_orchestrator = (Ok Orchestrator.trivy_vulnerabilities, st') ∧
    announced (Orchestrator.emitted st') =
      map (λ v, (v, 1%nat)) Orchestrator.trivy_vulnerabilities.
Proof.
  destruct (X11_simulated_run_announces_with_fixed_total
              (Sample.windows_host true) (host_bridges (Sample.windows_host true))
              "Trivy" 1 Sample.staged_path Orchestrator.new_orchestrator)
    as (st' & Heq & _ & Ha); [reflexivity|by right|].
  exists st'. split; [exact Heq|exact Ha].
Defined.

(** ** Severity normalisation *)

Section SeverityMore.

Import Parse.

Lemma upper_lower_char (c : ascii) : JS.upper_char (JS.lower_char c) = JS.upper_char c.
Proof. destruct c as [[] [] [] [] [] [] [] []]; reflexivity. Qed.

Lemma upper_upper_char (c : ascii) : JS.upper_char (JS.upper_char c) = JS.upper_char c.
Proof. destruct c as [[] [] [] [] [] [] [] []]; reflexivity. Qed.

Lemma toUpperCase_toLowerCase (s : string) :
  JS.toUpperCase (JS.toLowerCase s) = JS.toUpperCase s.
Proof. induction s as [|c s IH]; simpl; [done|]. by rewrite upper_lower_char, IH. Qed.

Lemma toUpperCase_idemp (s : string) :
  JS.toUpperCase (JS.toUpperCase s) = JS.toUpperCase s.
Proof. induction s as [|c s IH]; simpl; [done|]. by rewrite upper_upper_char, IH. Qed.

Lemma mapODCSeverity_range sev :
  mapODCSeverity sev ∈ ["CRITICAL"; "HIGH"; "MEDIUM"; "LOW"].
Proof.
  unfold mapODCSeverity, JS.or_else.
  destruct sev as [s|]; [|set_solver].
  destruct (JS.truthy s); [|set_solver].
  destruct (table_get _ _) as [v|] eqn:E; [|set_solver].
  apply table_get_in in E. simpl in E.
  repeat (apply elem_of_cons in E as [->|E]; [simpl; set_solver|]).
  by apply elem_of_nil in E.
Qed.

End SeverityMore.

(** X12.  The Semgrep parser and the ODC parser normalise every severity:
    each finding they build carries one of the five canonical levels,
    whatever the tool printed, and the ODC parser never yields INFO. *)
Theorem X12_semgrep_and_odc_severities_are_canonical :
  (∀ data f, f ∈ Parse.parseSemgrepData data →
     Parse.canonical_severity (severity f) = true) ∧
  (∀ data f, f ∈ Parse.parseODCData data →
     severity f ∈ ["CRITICAL"; "HIGH"; "MEDIUM"; "LOW"]).
Proof.
  split; [apply parseSemgrepData_canonical|].
  intros data f. unfold Parse.parseODCData.
  destruct data as [d|]; [|by intros ?%elem_of_nil].
  destruct (Parse.odc_dependencies d) as [deps|]; [|by intros ?%elem_of_nil].
  intros (l & Hl & Hf)%elem_of_concat.
  apply list_elem_of_fmap in Hf as (dep & -> & _).
  destruct (Parse.odc_vulnerabilities dep) as [vs|]; [|by apply elem_of_nil in Hl].
  apply list_elem_of_fmap in Hl as (v & -> & _). apply mapODCSeverity_range.
Qed.

(** X13.  Both severity maps ignore the case of the tool's severity: the
    lower-cased and the upper-cased spelling of a severity are mapped like
    the severity itself. *)
Theorem X13_severity_maps_ignore_case (s : string) :
  Parse.mapSemgrepSeverity (JS.toLowerCase s) = Parse.mapSemgrepSeverity s ∧
  Parse.mapSemgrepSeverity (JS.toUpperCase s) = Parse.mapSemgrepSeverity s ∧
  Parse.mapODCSeverity (Some (JS.toLowerCase s)) = Parse.mapODCSeverity (Some s) ∧
  Parse.mapODCSeverity (Some (JS.toUpperCase s)) = Parse.mapODCSeverity (Some s).
Proof.
  unfold Parse.mapSemgrepSeverity, Parse.mapODCSeverity.
  rewrite toUpperCase_toLowerCase, toUpperCase_idemp.
  repeat split; destruct s; reflexivity.
Qed.

(** ** Reports *)

Section ReportFacts.

Import Report.

Lemma count_severity_cons level r results :
  count_severity level (r :: results) =
    ((if decide (severity r = level) then 1 else 0) + count_severity level results)%nat.
Proof.
  unfold count_severity. rewrite filter_cons.
  destruct (decide (severity r = level)); reflexivity.
Qed.

Lemma count_severity_app level l l' :
  count_severity level (l ++ l') =
    (count_severity level l + count_severity level l')%nat.
Proof. unfold count_severity. by rewrite filter_app, length_app. Qed.

Lemma count_severity_pos level results :
  (0 < count_severity level results)%nat ↔ ∃ r, r ∈ results ∧ severity r = level.
Proof.
  unfold count_severity. split.
  - intros H. destruct (filter _ results) as [|r l] eqn:E; [simpl in H; lia|].
    assert (Hr : r ∈ filter (λ r, severity r = level) results) by (rewrite E; left).
    apply list_elem_of_filter in Hr as [? ?]. by exists r.
  - intros (r & Hr & Hs).
    assert (Hin : r ∈ filter (λ r, severity r = level) results).
    { apply list_elem_of_filter. done. }
    destruct (filter _ results); [by apply elem_of_nil in Hin|simpl; lia].
Qed.

Lemma canonical_severity_cases s :
  Parse.canonical_severity s = true ↔
  s = "CRITICAL" ∨ s = "HIGH" ∨ s = "MEDIUM" ∨ s = "LOW" ∨ s = "INFO".
Proof.
  unfold Parse.canonical_severity. rewrite bool_decide_eq_true.
  rewrite !elem_of_cons, elem_of_nil. tauto.
Qed.

(** The five buckets and the findings outside them. *)
Lemma summary_partition results :
  (count_severity "CRITICAL" results + count_severity "HIGH" results +
   count_severity "MEDIUM" results + count_severity "LOW" results +
   count_severity "INFO" results +
   length (filter (λ r, Parse.canonical_severity (severity r) = false) results)
   = length results)%nat.
Proof.
  induction results as [|r results IH]; [reflexivity|].
  rewrite !count_severity_cons, filter_cons. simpl length.
  destruct (Parse.canonical_severity (severity r)) eqn:Hc.
  - apply canonical_severity_cases in Hc.
    rewrite (decide_False (P := true = false)) by done.
    destruct Hc as [E|[E|[E|[E|E]]]]; rewrite E; simpl; lia.
  - rewrite (decide_True (P := false = false)) by done.
    assert (Hn : ¬ (severity r = "CRITICAL" ∨ severity r = "HIGH" ∨
                    severity r = "MEDIUM" ∨ severity r = "LOW" ∨ severity r = "INFO")).
    { rewrite <- canonical_severity_cases. by rewrite Hc. }
    rewrite !decide_False by tauto. simpl. lia.
Qed.

Lemma risk_monotone (s s' : Summary) :
  (critical s ≤ critical s')%nat → (high s ≤ high s')%nat →
  (medium s ≤ medium s')%nat → (low s ≤ low s')%nat →
  (risk_rank (calculateOverallRisk s) ≤ risk_rank (calculateOverallRisk s'))%nat.
Proof.
  intros Hc Hh Hm Hl. unfold calculateOverallRisk.
  destruct (Nat.ltb_spec 0 (critical s)), (Nat.ltb_spec 0 (critical s'));
    try (exfalso; lia);
  destruct (Nat.ltb_spec 3 (high s)), (Nat.ltb_spec 3 (high s'));
    try (exfalso; lia);
  destruct (Nat.ltb_spec 0 (high s)), (Nat.ltb_spec 0 (high s'));
    try (exfalso; lia);
  destruct (Nat.ltb_spec 5 (medium s)), (Nat.ltb_spec 5 (medium s'));
    try (exfalso; lia);
  destruct (Nat.ltb_spec 0 (medium s)), (Nat.ltb_spec 0 (medium s'));
    try (exfalso; lia);
  destruct (Nat.ltb_spec 10 (low s)), (Nat.ltb_spec 10 (low s'));
    try (exfalso; lia);
    vm_compute; lia.
Qed.

Lemma risk_minimal (s : Summary) :
  calculateOverallRisk s = "MINIMAL" ↔
  critical s = 0%nat ∧ high s = 0%nat ∧ medium s = 0%nat ∧ (low s ≤ 10)%nat.
Proof.
  unfold calculateOverallRisk.
  destruct (Nat.ltb_spec 0 (critical s)), (Nat.ltb_spec 3 (high s)),
    (Nat.ltb_spec 0 (high s)), (Nat.ltb_spec 5 (medium s)),
    (Nat.ltb_spec 0 (medium s)), (Nat.ltb_spec 10 (low s)); simpl;
    split; intros; try discriminate; try lia; done.
Qed.

Lemma count_severity_zero level results :
  count_severity level results = 0%nat ↔ ∀ r, r ∈ results → severity r ≠ level.
Proof.
  pose proof (count_severity_pos level results) as [H1 H2]. split.
  - intros E r Hr Hs. assert (0 < 0)%nat; [|lia].
    rewrite <- E at 2. apply H2. by exists r.
  - intros Hn. destruct (count_severity level results) eqn:E; [done|].
    destruct H1 as (r & Hr & Hs); [lia|]. by destruct (Hn r Hr).
Qed.

Lemma some_exists (p : Finding → bool) results :
  some p results = true ↔ ∃ r, r ∈ results ∧ p r = true.
Proof.
  unfold some. rewrite existsb_exists. split.
  - intros (r & Hin & Hp). exists r. split; [by apply list_elem_of_In|done].
  - intros (r & Hin & Hp). exists r. split; [by apply list_elem_of_In|done].
Qed.

End ReportFacts.

(** X14.  In the summary of a report the five severity buckets never count
    more findings than the total, and they add up to the total exactly when
    every finding carries one of the five canonical severities; a finding
    with any other severity is counted in the total only. *)
Theorem X14_summary_buckets_partition_canonical_findings (results : list Finding) :
  let s := Report.summary results in
  (Report.critical s + Report.high s + Report.medium s + Report.low s +
   Report.info s ≤ Report.total s)%nat ∧
  ((Report.critical s + Report.high s + Report.medium s + Report.low s +
    Report.info s = Report.total s)%nat ↔
   Forall (λ r, Parse.canonical_severity (severity r) = true) results).
Proof.
  cbv zeta. simpl. pose proof (summary_partition results) as H.
  split; [lia|]. split.
  - intros E. assert (Hz : length (filter (λ r, Parse.canonical_severity (severity r) = false)
                                      results) = 0%nat) by lia.
    apply Forall_forall. intros r Hr.
    destruct (Parse.canonical_severity (severity r)) eqn:Hc; [done|exfalso].
    assert (Hin : r ∈ filter (λ r, Parse.canonical_severity (severity r) = false) results).
    { apply list_elem_of_filter. done. }
    destruct (filter _ results); [by apply elem_of_nil in Hin|simpl in Hz; lia].
  - intros HF.
    assert (Hz : filter (λ r, Parse.canonical_severity (severity r) = false) results = []).
    { clear H. induction HF as [|r l Hr HF IH]; [done|].
      rewrite filter_cons, decide_False; [done|]. by rewrite Hr. }
    rewrite Hz in H. simpl in H. lia.
Qed.

(** X15.  The overall risk level of a report is CRITICAL exactly when some
    finding is CRITICAL, it is MINIMAL exactly when there is no CRITICAL,
    HIGH or MEDIUM finding and there are at most ten LOW ones (INFO
    findings and findings with other severities never count), and adding
    findings to the results never lowers it. *)
Theorem X15_overall_risk (results more : list Finding) :
  let risk l := Report.calculateOverallRisk (Report.summary l) in
  (risk results = "CRITICAL" ↔ ∃ r, r ∈ results ∧ severity r = "CRITICAL") ∧
  (risk results = "MINIMAL" ↔
     (∀ r, r ∈ results → severity r ≠ "CRITICAL" ∧ severity r ≠ "HIGH" ∧
                         severity r ≠ "MEDIUM") ∧
     (Report.count_severity "LOW" results ≤ 10)%nat) ∧
  (risk_rank (risk results) ≤ risk_rank (risk (results ++ more)))%nat.
Proof.
  cbv zeta. split; [|split].
  - rewrite <- count_severity_pos. unfold Report.calculateOverallRisk. simpl.
    destruct (Nat.ltb_spec 0 (Report.count_severity "CRITICAL" results)).
    + split; [done|reflexivity].
    + split; [|lia]. repeat case_match; discriminate.
  - rewrite risk_minimal. simpl. rewrite !count_severity_zero. split.
    + intros (Hc & Hh & Hm & Hl). split; [|done]. intros r Hr.
      split; [by apply Hc|]. split; [by apply Hh|by apply Hm].
    + intros (Hall & Hl). repeat split; try done; intros r Hr; apply (Hall r Hr).
  - apply risk_monotone; simpl; rewrite count_severity_app; lia.
Qed.

Section RecommendationFacts.

Import Report.

Lemma trivy_finding_type data f :
  f ∈ Parse.parseTrivyData data → type f = "Vulnerable Dependency".
Proof.
  unfold Parse.parseTrivyData. destruct data as [d|]; [|by intros ?%elem_of_nil].
  destruct (Parse.tv_Results d) as [ts|]; [|by intros ?%elem_of_nil].
  intros (l & Hl & Hf)%elem_of_concat.
  apply list_elem_of_fmap in Hf as (t & -> & _).
  destruct (Parse.tv_Vulnerabilities t) as [vs|]; [|by apply elem_of_nil in Hl].
  by apply list_elem_of_fmap in Hl as (v & -> & _).
Qed.

Lemma odc_finding_type data f :
  f ∈ Parse.parseODCData data → type f = "Vulnerable Dependency".
Proof.
  unfold Parse.parseODCData. destruct data as [d|]; [|by intros ?%elem_of_nil].
  destruct (Parse.odc_dependencies d) as [deps|]; [|by intros ?%elem_of_nil].
  intros (l & Hl & Hf)%elem_of_concat.
  apply list_elem_of_fmap in Hf as (dep & -> & _).
  destruct (Parse.odc_vulnerabilities dep) as [vs|]; [|by apply elem_of_nil in Hl].
  by apply list_elem_of_fmap in Hl as (v & -> & _).
Qed.

Lemma count_tool_other acc r name :
  or_unknown (tool r) ≠ name → count_tool acc r !! name = acc !! name.
Proof.
  intros Hne. unfold count_tool.
  destruct (acc !! or_unknown (tool r)) as [[n|]|];
    rewrite ?lookup_insert_ne by done; [done..|].
  destruct (inherited _); [destruct (String.eqb _ _)|];
    rewrite ?lookup_insert_ne by done; done.
Qed.

Lemma count_tool_same acc r :
  let name := or_unknown (tool r) in
  count_tool acc r !! name =
    match acc !! name with
    | Some (Num n) => Some (Num (S n))
    | Some NaN => Some (Num 1)
    | None =>
        if inherited name
        then if String.eqb name "__proto__" then None else Some NaN
        else Some (Num 1)
    end.
Proof.
  cbv zeta. unfold count_tool.
  destruct (acc !! or_unknown (tool r)) as [[n|]|] eqn:E;
    rewrite ?lookup_insert_eq; [done..|].
  destruct (inherited _); [destruct (String.eqb _ _)|];
    rewrite ?lookup_insert_eq; done.
Qed.

Lemma toolBreakdown_snoc results r :
  toolBreakdown (results ++ [r]) = count_tool (toolBreakdown results) r.
Proof. unfold toolBreakdown. by rewrite fold_left_app. Qed.

(** The entry of a name after [n] findings carry it. *)
Lemma toolBreakdown_lookup results name :
  toolBreakdown results !! name =
    (let n := length (filter (λ r, or_unknown (tool r) = name) results) in
     if inherited name
     then if String.eqb name "__proto__" then None
          else match n with
               | 0 => None
               | 1 => Some NaN
               | S (S m) => Some (Num (S m))
               end
     else match n with
          | 0 => None
          | S _ => Some (Num n)
          end)%nat.
Proof.
  cbv zeta. induction results as [|r results IH] using rev_ind.
  - unfold toolBreakdown. cbn [fold_left]. rewrite lookup_empty, filter_nil.
    cbn [length].
    by destruct (inherited name), (String.eqb name "__proto__").
  - rewrite toolBreakdown_snoc, filter_app, length_app, filter_cons, filter_nil.
    destruct (decide (or_unknown (tool r) = name)) as [<-|Hne].
    + rewrite count_tool_same, IH. cbn [length].
      destruct (inherited _); [destruct (String.eqb _ _)|].
      * done.
      * destruct (length _) as [|[|m]]; cbn [Nat.add]; [done..|].
        by replace (m + 1)%nat with (S m) by lia.
      * destruct (length _) as [|m]; cbn [Nat.add]; [done|].
        by replace (m + 1)%nat with (S m) by lia.
    + rewrite count_tool_other by done. rewrite IH. cbn [length].
      by rewrite Nat.add_0_r.
Qed.

Lemma group_file_thrown results : fold_left group_file results None = None.
Proof. by induction results. Qed.

(** Grouping by file throws exactly when some finding's file names a member
    of [Object.prototype]. *)
Lemma fileBreakdown_throws_from results : ∀ acc,
  (∀ k, is_Some (acc !! k) → inherited k = false) →
  fold_left group_file results (Some acc) = None ↔
  ∃ f, f ∈ results ∧ inherited (or_unknown (file f)) = true.
Proof.
  induction results as [|r results IH]; intros acc Hacc; cbn [fold_left].
  - split; [done|]. by intros (f & Hf%elem_of_nil & _).
  - cbn [group_file].
    destruct (acc !! or_unknown (file r)) as [issues|] eqn:E.
    + assert (Hr : inherited (or_unknown (file r)) = false) by (by apply Hacc).
      rewrite IH.
      * split.
        -- intros (f & Hf & Hi). exists f. split; [by right|done].
        -- intros (f & Hf & Hi). apply elem_of_cons in Hf as [->|Hf];
             [congruence|]. by exists f.
      * intros k [x Hk]. destruct (decide (k = or_unknown (file r))) as [->|Hne];
          [done|]. rewrite lookup_insert_ne in Hk by done. by apply Hacc.
    + destruct (inherited (or_unknown (file r))) eqn:Hr.
      * rewrite group_file_thrown. split; [|done]. intros _.
        exists r. split; [left|done].
      * rewrite IH.
        -- split.
           ++ intros (f & Hf & Hi). exists f. split; [by right|done].
           ++ intros (f & Hf & Hi). apply elem_of_cons in Hf as [->|Hf];
                [congruence|]. by exists f.
        -- intros k [x Hk].
           destruct (decide (k = or_unknown (file r))) as [->|Hne]; [done|].
           rewrite lookup_insert_ne in Hk by done. by apply Hacc.
Qed.

Lemma fileBreakdown_throws results :
  fileBreakdown results = None ↔
  ∃ f, f ∈ results ∧ inherited (or_unknown (file f)) = true.
Proof.
  apply fileBreakdown_throws_from. intros k [x Hk].
  by rewrite lookup_empty in Hk.
Qed.

Lemma or_unknown_nonempty s : or_unknown s ≠ "".
Proof. unfold or_unknown. by destruct s. Qed.

End RecommendationFacts.

(** X16.  The recommendations of a report always end with the same three
    general ones, after at most six specific ones.  The advice to address
    CRITICAL issues is given exactly when some finding is CRITICAL, and
    every finding built by the Trivy or the ODC parser brings the advice to
    update the dependencies. *)
Theorem X16_recommendations (results : list Finding) :
  let recs := Report.generateRecommendations results in
  (∃ specific, recs = specific ++ Report.general_recommendations ∧
               (length specific ≤ 6)%nat) ∧
  ("Address all CRITICAL severity issues immediately before deployment" ∈ recs ↔
   ∃ r, r ∈ results ∧ severity r = "CRITICAL") ∧
  (∀ f, f ∈ results →
     (∃ data, f ∈ Parse.parseTrivyData data) ∨ (∃ data, f ∈ Parse.parseODCData data) →
     "Update all dependencies to their latest secure versions" ∈ recs).
Proof.
  cbv zeta. unfold Report.generateRecommendations. cbv zeta.
  set (b1 := Report.some (λ r, String.eqb (severity r) "CRITICAL") results).
  set (b2 := Report.some (λ r, JS.includes (type r) "Injection") results).
  set (b3 := Report.some _ results).
  set (b4 := Report.some _ results).
  split; [|split].
  - eexists. rewrite !app_assoc. split; [reflexivity|].
    destruct b1, b2, b3, b4; simpl; lia.
  - destruct b1 eqn:E1.
    + split; [|intros _; left].
      intros _. apply some_exists in E1 as (r & Hr & Hp).
      exists r. split; [done|]. by apply String.eqb_eq.
    + split.
      * intros H. exfalso. revert H.
        destruct b2, b3, b4; simpl; intros H;
          repeat (apply elem_of_cons in H as [H|H]; [discriminate|]);
          by apply elem_of_nil in H.
      * intros (r & Hr & Hs).
        assert (Report.some (λ r, String.eqb (severity r) "CRITICAL") results = true).
        { apply some_exists. exists r. split; [done|]. by apply String.eqb_eq. }
        unfold b1 in E1. congruence.
  - intros f Hf Hparsed.
    assert (Ht : type f = "Vulnerable Dependency").
    { destruct Hparsed as [[data H]|[data H]];
        [by apply trivy_finding_type in H|by apply odc_finding_type in H]. }
    assert (E3 : b3 = true).
    { apply some_exists. exists f. split; [done|]. by rewrite Ht. }
    rewrite E3. destruct b1, b2; simpl; repeat first [left | right; left | right].
Qed.

(** X17.  The tool breakdown of a report maps a name to the number of
    findings whose tool field is that name, findings without a tool name
    being counted under "Unknown"; a name no finding carries is absent, so
    no entry is zero.  This holds for every name but the twelve an object
    literal inherits from Object.prototype: such a name is stored as NaN
    by the first finding that carries it and counts the later ones from 1
    (so its entry is one short), and "__proto__" is never stored. *)
Theorem X17_tool_breakdown_counts (results : list Finding) (name : string) :
  let n := length (filter (λ r, Report.or_unknown (tool r) = name) results) in
  (Report.inherited name = false →
   Report.toolBreakdown results !! name =
     if (n =? 0)%nat then None else Some (Report.Num n)) ∧
  (Report.inherited name = true → name ≠ "__proto__" →
   Report.toolBreakdown results !! name =
     match n with
     | 0 => None
     | 1 => Some Report.NaN
     | S (S m) => Some (Report.Num (S m))
     end%nat) ∧
  Report.toolBreakdown results !! "__proto__" = None ∧
  Report.toolBreakdown results !! "" = None ∧
  (Report.inherited name = true ↔ name ∈ Report.prototype_members).
Proof.
  cbv zeta. split; [|split; [|split; [|split]]].
  - intros Hi. rewrite toolBreakdown_lookup. cbv zeta. rewrite Hi.
    by destruct (length _).
  - intros Hi Hp. rewrite toolBreakdown_lookup. cbv zeta. rewrite Hi.
    by apply String.eqb_neq in Hp as ->.
  - by rewrite toolBreakdown_lookup.
  - rewrite toolBreakdown_lookup. cbv zeta.
    assert (H : filter (λ r, Report.or_unknown (tool r) = "") results = []).
    { induction results as [|r l IH]; [done|].
      rewrite filter_cons, decide_False; [done|]. apply or_unknown_nonempty. }
    by rewrite H.
  - unfold Report.inherited. rewrite existsb_exists. split.
    + intros (x & Hx%list_elem_of_In & ->%String.eqb_eq). done.
    + intros H. exists name. split; [by apply list_elem_of_In|].
      apply String.eqb_refl.
Qed.

Lemma X17_witness :
  Report.toolBreakdown
    [ mkFinding "Semgrep" "HIGH" "XSS" "a.js" 1;
      mkFinding "constructor" "LOW" "XSS" "b.js" 2;
      mkFinding "Semgrep" "LOW" "XSS" "c.js" 3;
      mkFinding "" "LOW" "XSS" "d.js" 4 ] !! "constructor" = Some Report.NaN.
Proof.
  apply (X17_tool_breakdown_counts
           [ mkFinding "Semgrep" "HIGH" "XSS" "a.js" 1;
             mkFinding "constructor" "LOW" "XSS" "b.js" 2;
             mkFinding "Semgrep" "LOW" "XSS" "c.js" 3;
             mkFinding "" "LOW" "XSS" "d.js" 4 ] "constructor");
    [reflexivity|discriminate].
Defined.

(** ** The scan routes and the registry *)

Section RouteFacts.

Import ScanRoute.

Context (w : World) (b : Bridges).

Lemma scan_promise_valid session target targetPath :
  actualTargetId session = Some target →
  Orchestrator.valid_target w target targetPath →
  scan_promise w b session =
    inl (Dedup.deduplicateResults
           (Orchestrator.findings_from w b targetPath (selectedTools session) 0)).
Proof.
  intros Ha Hv. unfold scan_promise. rewrite Ha.
  destruct (startScan_valid w b target targetPath (selectedTools session)
              Orchestrator.new_orchestrator Hv) as (evs & pc & ct & rs & -> & _).
  reflexivity.
Qed.

Lemma scan_promise_invalid session :
  (∀ target, actualTargetId session = Some target →
             ¬ ∃ targetPath, Orchestrator.valid_target w target targetPath) →
  ∃ message, scan_promise w b session = inr message.
Proof.
  intros Hn. unfold scan_promise.
  destruct (actualTargetId session) as [target|]; [|by eexists].
  destruct (startScan_invalid w b target (selectedTools session)
              Orchestrator.new_orchestrator (Hn target eq_refl)) as (e & _ & ->).
  by eexists.
Qed.

End RouteFacts.

(** X18.  The life of a session started by a well-formed POST /api/scan.
    The request is answered with the scan id and its WebSocket path while
    the scan is still running; until the scan settles the results route
    answers "running" with an empty result list and every report request
    is refused.  If the target passes validation the session ends
    completed with the deduplicated findings the turns of the tools pushed,
    and the JSON report is built from them: its summary, tool breakdown,
    entries and recommendations, unless the file of a finding names a
    member of Object.prototype, in which case grouping by file throws and
    the report request is answered with status 500.  Otherwise the session
    ends failed with the error's message, an empty result list and no
    report.  No other session is touched. *)
Theorem X18_session_lifecycle (w : World) (b : Bridges)
    (scanId targetId : string) (tools : list string)
    (scanSessions : gmap string ScanRoute.ScanSession)
    (pdf : ScanRoute.ScanSession → string + string) :
  targetId ≠ "" → tools ≠ [] →
  let request := ScanRoute.mkScanRequest (Some targetId) (Some tools) in
  let started := ScanRoute.post_scan w scanId request scanSessions in
  let settled := ScanRoute.scan_settled w b scanId (snd started) in
  fst started = ScanRoute.Started scanId ("/ws/" +:+ scanId) ∧
  ScanRoute.get_results (snd started) scanId =
    ScanRoute.ScanResults scanId Orchestrator.running targetId tools [] None ∧
  (∀ format, ScanRoute.get_report pdf (snd started) scanId format =
             ScanRoute.ReportNotCompleted) ∧
  (∀ target targetPath,
     ScanRoute.resolve_direct w targetId = Some target →
     Orchestrator.valid_target w target targetPath →
     let found := Dedup.deduplicateResults
                    (Orchestrator.findings_from w b targetPath tools 0) in
     ScanRoute.get_results settled scanId =
       ScanRoute.ScanResults scanId Orchestrator.completed targetId tools found None ∧
     ScanRoute.get_report pdf settled scanId "json" =
       match Report.fileBreakdown found with
       | Some files =>
           ScanRoute.ReportJSON
             (Report.mkJSONReport (Report.summary found)
                (Report.toolBreakdown found) files
                (map Report.entry_of found)
                (Report.generateRecommendations found))
       | None => ScanRoute.ReportJSONFailed
       end ∧
     (Report.fileBreakdown found = None ↔
      ∃ f, f ∈ found ∧
        Report.inherited (Report.or_unknown (file f)) = true)) ∧
  ((∀ target, ScanRoute.resolve_direct w targetId = Some target →
              ¬ ∃ targetPath, Orchestrator.valid_target w target targetPath) →
   (∃ message,
      ScanRoute.get_results settled scanId =
        ScanRoute.ScanResults scanId Orchestrator.failed targetId tools []
          (Some message)) ∧
   ∀ format, ScanRoute.get_report pdf settled scanId format =
             ScanRoute.ReportNotCompleted) ∧
  (∀ other, other ≠ scanId → settled !! other = scanSessions !! other).
Proof.
  intros Ht Hs request started settled.
  assert (Hpost : started =
    (ScanRoute.Started scanId ("/ws/" +:+ scanId),
     <[scanId := ScanRoute.mkScanSession scanId targetId
                   (ScanRoute.resolve_direct w targetId) tools
                   Orchestrator.running None None]> scanSessions)).
  { unfold started, ScanRoute.post_scan, request. simpl.
    destruct targetId; [done|]. destruct tools; [done|]. reflexivity. }
  unfold settled. rewrite Hpost. cbn [fst snd].
  unfold ScanRoute.scan_settled, ScanRoute.get_results, ScanRoute.get_report.
  rewrite !lookup_insert_eq. cbn [ScanRoute.id ScanRoute.status ScanRoute.targetId
    ScanRoute.selectedTools ScanRoute.results ScanRoute.error
    ScanRoute.actualTargetId default].
  split; [done|]. split; [done|]. split; [done|]. split; [|split].
  - intros target targetPath Hr Hv.
    rewrite (scan_promise_valid w b _ target targetPath) by done.
    rewrite !lookup_insert_eq.
    cbn [ScanRoute.id ScanRoute.status ScanRoute.targetId
      ScanRoute.selectedTools ScanRoute.results ScanRoute.error default].
    split; [done|]. split; [|apply fileBreakdown_throws].
    cbn [String.eqb Ascii.eqb Bool.eqb]. unfold Report.generateJSONReport.
    cbn [default]. by destruct (Report.fileBreakdown _).
  - intros Hn.
    destruct (scan_promise_invalid w b
      (ScanRoute.mkScanSession scanId targetId (ScanRoute.resolve_direct w targetId)
         tools Orchestrator.running None None)) as [message ->]; [done|].
    rewrite !lookup_insert_eq. split; [by exists message|done].
  - intros other Hne.
    destruct (ScanRoute.scan_promise _ _ _);
      rewrite !lookup_insert_ne by done; done.
Qed.

Lemma X18_witness :
  fst (ScanRoute.post_scan (Sample.windows_host true) "scan-1"
         (ScanRoute.mkScanRequest (Some Sample.staged_id) (Some ["Trivy"])) ∅) =
  ScanRoute.Started "scan-1" "/ws/scan-1".
Proof.
  apply (X18_session_lifecycle (Sample.windows_host true)
           (host_bridges (Sample.windows_host true)) "scan-1" Sample.staged_id
           ["Trivy"] ∅ (λ _, inr "no pdf")); done.
Defined.

(** X19.  Registering a folder makes its scan id a direct scan: the
    registry answers the folder path, the scan route hands that path to the
    orchestrator, and the orchestrator resolves both the id and the path to
    the folder itself, provided the path is absolute and is not itself a
    registered id.  Other ids are answered as before, and after
    unregistering the id is no direct scan any more. *)
Theorem X19_registered_folder_is_scanned_in_place (w : World)
    (scanId folderPath : string) :
  folderPath ≠ "" → path_isAbsolute w folderPath = true →
  mappings w !! folderPath = None → folderPath ≠ scanId →
  let w' := Registry.register scanId folderPath w in
  FolderRegistry.isDirectScan w' scanId = true ∧
  FolderRegistry.getPath w' scanId = Some folderPath ∧
  ScanRoute.resolve_direct w' scanId = Some folderPath ∧
  Resolver.resolveTargetPath w' scanId = Some folderPath ∧
  Resolver.resolveTargetPath w' folderPath = Some folderPath ∧
  (∀ other, other ≠ scanId →
     FolderRegistry.getPath w' other = FolderRegistry.getPath w other ∧
     FolderRegistry.isDirectScan w' other = FolderRegistry.isDirectScan w other) ∧
  FolderRegistry.isDirectScan (Registry.unregister scanId w') scanId = false ∧
  FolderRegistry.getPath (Registry.unregister scanId w') scanId = None.
Proof.
  intros Hne Habs Hfree Hdiff w'.
  assert (Hid : mappings w' !! scanId = Some folderPath).
  { unfold w', Registry.register. simpl. by rewrite lookup_insert_eq. }
  assert (Hpath : mappings w' !! folderPath = None).
  { unfold w', Registry.register. simpl. by rewrite lookup_insert_ne. }
  assert (Hget : FolderRegistry.getPath w' scanId = Some folderPath).
  { unfold FolderRegistry.getPath. rewrite Hid. by destruct folderPath. }
  assert (Hdirect : FolderRegistry.isDirectScan w' scanId = true)
    by by apply (isDirectScan_Some w' scanId folderPath).
  split; [done|]. split; [done|]. split.
  { unfold ScanRoute.resolve_direct. by rewrite Hdirect. }
  split.
  { unfold Resolver.resolveTargetPath. by rewrite Hdirect. }
  split.
  { unfold Resolver.resolveTargetPath.
    rewrite (isDirectScan_None w' folderPath Hpath).
    replace (path_isAbsolute w' folderPath) with true. done. }
  split.
  { intros other Ho. unfold FolderRegistry.getPath, FolderRegistry.isDirectScan,
      w', Registry.register. simpl. by rewrite lookup_insert_ne. }
  unfold FolderRegistry.isDirectScan, FolderRegistry.getPath, Registry.unregister.
  simpl. rewrite lookup_delete_eq. split; [|done].
  apply bool_decide_eq_false. by intros [? ?].
Qed.

Lemma X19_witness :
  Resolver.resolveTargetPath
    (Registry.register "dir-1700000000000" "C:\scanvault\temp\sub\dir"
       (Sample.windows_host false)) "dir-1700000000000" =
  Some "C:\scanvault\temp\sub\dir".
Proof.
  apply (X19_registered_folder_is_scanned_in_place (Sample.windows_host false)
           "dir-1700000000000" "C:\scanvault\temp\sub\dir"); done.
Defined.

Section DirectScanFacts.

(** What a registration gives the resolver and the scan route. *)
Lemma register_resolves (w : World) (scanId folderPath : string) :
  folderPath ≠ "" → path_isAbsolute w folderPath = true →
  mappings w !! folderPath = None → folderPath ≠ scanId →
  let w' := Registry.register scanId folderPath w in
  ScanRoute.resolve_direct w' scanId = Some folderPath ∧
  Resolver.resolveTargetPath w' scanId = Some folderPath ∧
  Resolver.resolveTargetPath w' folderPath = Some folderPath.
Proof.
  intros Hne Habs Hfree Hdiff w'.
  assert (Hid : mappings w' !! scanId = Some folderPath).
  { unfold w', Registry.register. simpl. by rewrite lookup_insert_eq. }
  assert (Hpath : mappings w' !! folderPath = None).
  { unfold w', Registry.register. simpl. by rewrite lookup_insert_ne. }
  assert (Hget : FolderRegistry.getPath w' scanId = Some folderPath).
  { unfold FolderRegistry.getPath. rewrite Hid. by destruct folderPath. }
  assert (Hdirect : FolderRegistry.isDirectScan w' scanId = true)
    by by apply (isDirectScan_Some w' scanId folderPath).
  unfold ScanRoute.resolve_direct, Resolver.resolveTargetPath.
  rewrite Hdirect, (isDirectScan_None w' folderPath Hpath).
  replace (path_isAbsolute w' folderPath) with true. done.
Qed.

End DirectScanFacts.

(** X20.  POST /scan-folder-path.  A request that is refused with status
    400 leaves the registry as it was.  A request that is accepted has
    registered the resolved folder path under the id it answers, the
    basename of the path and the time, and has seen
    validateFolderForScanning return for the resolved path: the path
    exists, is a directory and could be listed.  So a scan requested for
    that id resolves, in the route and in the orchestrator, to the folder
    itself and passes the orchestrator's validation (for a resolved path
    that is absolute and non-empty, as Node's path.resolve gives it, and
    that is not the id of another registration), and the folder is scanned
    where it is.  When the final validation throws, the request fails with
    the wrapped message, but the registration made before stays in the
    registry. *)
Theorem X20_direct_scan_registration (basename : string → string) (now : string)
    (stat_error : string → string) (listing : string → string + list string)
    (folderPath : option string) (w : World) :
  let '(response, w') :=
    UploadRoute.scan_folder_path basename now stat_error listing folderPath w in
  match response with
  | UploadRoute.FolderBadRequest _ =>
      w' = w ∧
      ∀ path, folderPath = Some path → path ≠ "" →
        existsSync w path = false ∨ isDirectory w path = false
  | UploadRoute.FolderReady scanId absolutePath =>
      (∃ path, folderPath = Some path ∧ path ≠ "" ∧
         existsSync w path = true ∧ isDirectory w path = true ∧
         absolutePath = path_resolve w path ∧
         scanId = basename absolutePath +:+ "-" +:+ now) ∧
      mappings w' !! scanId = Some absolutePath ∧
      (∀ other, other ≠ scanId → mappings w' !! other = mappings w !! other) ∧
      existsSync w' absolutePath = true ∧
      isDirectory w' absolutePath = true ∧
      (∃ files, listing absolutePath = inr files) ∧
      (absolutePath ≠ "" →
       ScanRoute.resolve_direct w' scanId = Some absolutePath ∧
       Orchestrator.valid_target w' scanId absolutePath) ∧
      (absolutePath ≠ "" → path_isAbsolute w absolutePath = true →
       absolutePath = scanId ∨ mappings w !! absolutePath = None →
       Orchestrator.valid_target w' absolutePath absolutePath)
  | UploadRoute.FolderFailed message =>
      String.prefix "Folder validation failed: " message = true ∧
      ∃ scanId path, folderPath = Some path ∧
        mappings w' !! scanId = Some (path_resolve w path) ∧
        (existsSync w (path_resolve w path) = false ∨
         isDirectory w (path_resolve w path) = false ∨
         ∃ thrown, listing (path_resolve w path) = inl thrown)
  end.
Proof.
  unfold UploadRoute.scan_folder_path.
  destruct folderPath as [[|c path]|].
  { split; [done|]. by intros p [= <-]. }
  2:{ split; [done|]. by intros p [=]. }
  destruct (existsSync w (String c path)) eqn:Hex; cbn [negb].
  2:{ split; [done|]. intros p [= <-] _. by left. }
  destruct (isDirectory w (String c path)) eqn:Hdir; cbn [negb].
  2:{ split; [done|]. intros p [= <-] _. by right. }
  cbv zeta. unfold FileHandler.validateFolderForScanning.
  set (absolutePath := path_resolve w (String c path)).
  set (scanId := basename absolutePath +:+ "-" +:+ now).
  set (w' := Registry.register scanId absolutePath w).
  assert (Hid : mappings w' !! scanId = Some absolutePath).
  { unfold w', Registry.register. simpl. by rewrite lookup_insert_eq. }
  assert (Hwrap : ∀ m, String.prefix "Folder validation failed: "
                         ("Folder validation failed: " +:+ m) = true).
  { intros m. by destruct m. }
  change (existsSync w' absolutePath) with (existsSync w absolutePath).
  change (isDirectory w' absolutePath) with (isDirectory w absolutePath).
  destruct (existsSync w absolutePath) eqn:Hex'; cbn [negb].
  2:{ split; [apply Hwrap|]. exists scanId, (String c path). by auto. }
  destruct (isDirectory w absolutePath) eqn:Hdir'; cbn [negb].
  2:{ split; [apply Hwrap|]. exists scanId, (String c path). by auto. }
  destruct (listing absolutePath) as [thrown|files] eqn:Hlist.
  { split; [apply Hwrap|]. exists scanId, (String c path).
    split; [done|]. split; [done|]. right. right. by exists thrown. }
  split; [by exists (String c path)|]. split; [exact Hid|]. split.
  { intros other Ho. unfold w', Registry.register. simpl.
    by rewrite lookup_insert_ne. }
  change (existsSync w' absolutePath) with (existsSync w absolutePath).
  change (isDirectory w' absolutePath) with (isDirectory w absolutePath).
  split; [exact Hex'|]. split; [exact Hdir'|]. split; [by exists files|].
  assert (Hdirect : FolderRegistry.isDirectScan w' scanId = true)
    by by apply (isDirectScan_Some w' scanId absolutePath).
  assert (Hget : absolutePath ≠ "" →
                 FolderRegistry.getPath w' scanId = Some absolutePath).
  { intros Hne. unfold FolderRegistry.getPath. rewrite Hid.
    by destruct absolutePath. }
  split.
  - intros Hne. split.
    + unfold ScanRoute.resolve_direct. rewrite Hdirect. by apply Hget.
    + split; [|done]. unfold Resolver.resolveTargetPath. rewrite Hdirect.
      by apply Hget.
  - intros Hne Habs Hfree.
    destruct (decide (absolutePath = scanId)) as [Heq|Hdiff].
    + split; [|done]. unfold Resolver.resolveTargetPath.
      assert (E1 : FolderRegistry.isDirectScan w' absolutePath =
                   FolderRegistry.isDirectScan w' scanId) by (f_equal; exact Heq).
      assert (E2 : FolderRegistry.getPath w' absolutePath =
                   FolderRegistry.getPath w' scanId) by (f_equal; exact Heq).
      rewrite E1, Hdirect, E2. by apply Hget.
    + destruct Hfree as [Heq|Hfree]; [done|].
      split; [|done]. unfold Resolver.resolveTargetPath.
      assert (Hpath : mappings w' !! absolutePath = None).
      { unfold w', Registry.register. simpl. by rewrite lookup_insert_ne. }
      rewrite (isDirectScan_None w' absolutePath Hpath).
      change (path_isAbsolute w' absolutePath) with (path_isAbsolute w absolutePath).
      by rewrite Habs.
Qed.

Lemma X20_witness :
  let '(response, w') :=
    UploadRoute.scan_folder_path DirectSample.basename "1700000000000"
      (λ _, "ENOENT") (λ _, inr [])
      (Some "C:\scanvault\temp\sub\dir") DirectSample.host in
  response = UploadRoute.FolderReady "dir-1700000000000" "C:\scanvault\temp\sub\dir" ∧
  Orchestrator.valid_target w' "dir-1700000000000" "C:\scanvault\temp\sub\dir" ∧
  Orchestrator.valid_target w' "C:\scanvault\temp\sub\dir" "C:\scanvault\temp\sub\dir".
Proof.
  pose proof (X20_direct_scan_registration DirectSample.basename "1700000000000"
                (λ _, "ENOENT") (λ _, inr [])
                (Some "C:\scanvault\temp\sub\dir") DirectSample.host) as H.
  destruct (UploadRoute.scan_folder_path _ _ _ _ _ _) as [response w'] eqn:E.
  assert (Hr : response =
    UploadRoute.FolderReady "dir-1700000000000" "C:\scanvault\temp\sub\dir").
  { change response with (fst (response, w')). rewrite <- E.
    vm_compute. reflexivity. }
  rewrite Hr in H. destruct H as (_ & _ & _ & _ & _ & _ & H1 & H2).
  split; [exact Hr|]. split.
  - apply H1. discriminate.
  - apply H2; [discriminate|vm_compute; reflexivity|right; vm_compute; reflexivity].
Defined.

(** ** The WebSocket registry *)

Section WsFacts.

Import WsServer.

Lemma split_go_no_separator (sep : ascii) (s : string) : ∀ cur,
  JS.includes_char s sep = false → Text.split_go sep s cur = [cur +:+ s].
Proof.
  induction s as [|c s IH]; intros cur H; simpl.
  - by rewrite append_nil_r.
  - simpl in H. apply orb_false_iff in H as [Hc Hs].
    rewrite Hc, IH by done. by rewrite append_assoc.
Qed.

(** The path the scan route answers leads back to the scan id. *)
Lemma scanId_of_ws_url (scanId : string) :
  JS.includes_char scanId "/" = false →
  scanId_of_url ("/ws/" +:+ scanId) = scanId.
Proof.
  intros H. unfold scanId_of_url, Text.split.
  rewrite !append_cons, append_nil_l. cbn [Text.split_go Ascii.eqb Bool.eqb].
  rewrite split_go_no_separator by done. reflexivity.
Qed.

Lemma push_without_client scanId event st :
  wsClients st !! scanId = None → push scanId event st = st.
Proof. intros H. unfold push. by rewrite H. Qed.

Lemma push_all_without_client scanId events : ∀ st,
  wsClients st !! scanId = None → push_all scanId events st = st.
Proof.
  induction events as [|e events IH]; intros st H; [done|].
  unfold push_all in *. cbn [fold_left]. rewrite push_without_client by done.
  by apply IH.
Qed.

End WsFacts.

(** X21.  Messages a scan sends before its client has connected are lost:
    nothing is delivered and nothing is kept for later.  The client that
    then connects on the path the scan route answered gets the connection
    confirmation only, and from then on each message of the scan. *)
Theorem X21_messages_before_connection_are_lost (st : WsServer.State)
    (scanId : string) (events : list Orchestrator.Event) (ws : nat) :
  WsServer.wsClients st !! scanId = None →
  JS.includes_char scanId "/" = false →
  let early := WsServer.push_all scanId events st in
  let connected := WsServer.connection ws ("/ws/" +:+ scanId) early in
  early = st ∧
  WsServer.delivered connected =
    WsServer.delivered st ++ [(ws, WsServer.Connected scanId)] ∧
  ∀ event,
    WsServer.delivered (WsServer.push scanId event connected) =
      WsServer.delivered connected ++ [(ws, WsServer.Pushed scanId event)].
Proof.
  intros Hnone Hid early connected.
  assert (He : early = st) by by apply push_all_without_client.
  unfold connected. rewrite He. unfold WsServer.connection.
  rewrite scanId_of_ws_url by done. cbn [WsServer.delivered].
  split; [done|]. split; [done|].
  intros event. unfold WsServer.push. cbn [WsServer.wsClients WsServer.readyOpen].
  rewrite lookup_insert_eq. rewrite bool_decide_true by set_solver. done.
Qed.

Lemma X21_witness :
  WsServer.delivered
    (WsServer.connection 1 "/ws/scan-1"
       (WsServer.push_all "scan-1"
          [Orchestrator.ProgressEvent None 0 "Initializing scan..."]
          WsServer.initial)) =
  [(1%nat, WsServer.Connected "scan-1")].
Proof.
  apply (X21_messages_before_connection_are_lost WsServer.initial "scan-1"
           [Orchestrator.ProgressEvent None 0 "Initializing scan..."] 1);
    reflexivity.
Defined.

(** X22.  When a second client connects for a scan while the first is
    still connected, the messages of the scan go to the second client
    only.  When the first client then disconnects, its close handler
    removes the entry of the scan, which by now is the second client's:
    the second client stays connected but receives nothing any more. *)
Theorem X22_stale_close_unregisters_new_client (st : WsServer.State)
    (url : string) (first second : nat) (events : list Orchestrator.Event) :
  first ≠ second →
  let scanId := WsServer.scanId_of_url url in
  let both := WsServer.connection second url (WsServer.connection first url st) in
  let after := WsServer.close first both in
  (∀ event,
     WsServer.delivered (WsServer.push scanId event both) =
       WsServer.delivered both ++ [(second, WsServer.Pushed scanId event)]) ∧
  second ∈ WsServer.readyOpen after ∧
  WsServer.wsClients after !! scanId = None ∧
  WsServer.push_all scanId events after = after.
Proof.
  intros Hne scanId both after.
  assert (Hh : WsServer.handlers both !! first = Some scanId).
  { unfold both, WsServer.connection. cbn [WsServer.handlers].
    rewrite lookup_insert_ne by done. by rewrite lookup_insert_eq. }
  assert (Hafter : WsServer.wsClients after !! scanId = None).
  { unfold after, WsServer.close. rewrite Hh. cbn [WsServer.wsClients].
    by rewrite lookup_delete_eq. }
  split; [|split; [|split]].
  - intros event. unfold WsServer.push, both, WsServer.connection.
    cbn [WsServer.wsClients WsServer.readyOpen WsServer.delivered].
    fold scanId. rewrite lookup_insert_eq. rewrite bool_decide_true by set_solver.
    done.
  - unfold after, WsServer.close. rewrite Hh. cbn [WsServer.readyOpen].
    unfold both, WsServer.connection. cbn [WsServer.readyOpen]. set_solver.
  - exact Hafter.
  - by apply push_all_without_client.
Qed.

Lemma X22_witness :
  WsServer.wsClients
    (WsServer.close 1
       (WsServer.connection 2 "/ws/scan-1"
          (WsServer.connection 1 "/ws/scan-1" WsServer.initial))) !! "scan-1" = None.
Proof.
  apply (X22_stale_close_unregisters_new_client WsServer.initial "/ws/scan-1" 1 2 []).
  lia.
Defined.

(** ** Windows paths for WSL *)

Section WslPathFacts.

Import WslPath.

Lemma lower_char_drive (d : ascii) :
  Sample.is_drive_letter d = true → JS.is_lower_az (JS.lower_char d) = true.
Proof. destruct d as [[] [] [] [] [] [] [] []]; (discriminate || reflexivity). Qed.

Lemma slashes_round_trip (s : string) :
  JS.includes_char s "/" = false →
  JS.slashes_to_backslashes (backslashes_to_slashes s) = s.
Proof.
  induction s as [|c s IH]; [done|]. simpl. intros H.
  apply orb_false_iff in H as [Hc Hs]. rewrite IH by done. f_equal.
  destruct (Ascii.eqb c "\") eqn:E.
  - apply Ascii.eqb_eq in E. by subst.
  - by rewrite Hc.
Qed.

Lemma fallback_shape (d c1 c2 : ascii) (rest : string) :
  fallback (String d (String c1 (String c2 rest))) =
    "/mnt/" +:+ String (JS.lower_char d) ("/" +:+ backslashes_to_slashes rest).
Proof. reflexivity. Qed.

End WslPathFacts.

(** X23.  For a path on a lettered drive the fallback conversion gives
    [/mnt/<drive in lower case>/<rest with forward slashes>]; the path
    normalisation of the parsers undoes it, giving back the path below the
    drive root in Windows notation; and the direct mapping of the caching
    bridge, where it applies, gives the same path as the fallback. *)
Theorem X23_fallback_conversion_round_trip (d : ascii) (rest : string) :
  Sample.is_drive_letter d = true →
  JS.includes_char rest "/" = false →
  let windowsPath := String d (":\" +:+ rest) in
  WslPath.fallback windowsPath =
    "/mnt/" +:+ String (JS.lower_char d)
                  ("/" +:+ WslPath.backslashes_to_slashes rest) ∧
  Parse.relative_path (WslPath.fallback windowsPath) = rest ∧
  (∀ direct, WslPath.tryDirectPathMapping windowsPath = Some direct →
             direct = WslPath.fallback windowsPath).
Proof.
  intros Hd Hrest windowsPath. unfold windowsPath.
  rewrite !append_cons, append_nil_l. rewrite fallback_shape.
  split; [done|]. split.
  - unfold Parse.relative_path. rewrite !append_cons, append_nil_l.
    cbn [JS.strip_mnt_prefix]. rewrite lower_char_drive by done.
    by apply slashes_round_trip.
  - intros direct. unfold WslPath.tryDirectPathMapping.
    destruct (WslPath.is_C_to_Z d); [|done]. cbv zeta.
    destruct (_ || _); [|done]. intros [= <-]. reflexivity.
Qed.

Lemma X23_witness :
  Parse.relative_path (WslPath.fallback "C:\scanvault\temp\app\index.js") =
    "scanvault\temp\app\index.js".
Proof.
  apply (X23_fallback_conversion_round_trip "C" "scanvault\temp\app\index.js");
    reflexivity.
Defined.

(** X24.  The conversion cache of the caching bridge.  A cached path is
    answered from the cache without any other effect.  On a miss the bridge
    is marked pre-warmed; a direct mapping or an answer of [wslpath] is
    stored, and from then on the same answer is given whatever [wslpath]
    would say; the fallback used when [wslpath] fails is not stored, so the
    next conversion of the path tries again.  Where the direct mapping
    applies, [wslpath] is never consulted. *)
Theorem X24_conversion_cache (wslpath : option string) (windowsPath : string)
    (st : WslPath.Cache) :
  let '(result, st') := WslPath.convertToWSLPath_cached wslpath windowsPath st in
  (∀ cachedPath, WslPath.pathCache st !! windowsPath = Some cachedPath →
     result = cachedPath ∧ st' = st) ∧
  (WslPath.pathCache st !! windowsPath = None →
     WslPath.isPreWarmed st' = true ∧
     (∀ directPath, WslPath.tryDirectPathMapping windowsPath = Some directPath →
        result = directPath) ∧
     (WslPath.tryDirectPathMapping windowsPath = None → wslpath = None →
        result = WslPath.fallback windowsPath ∧
        WslPath.pathCache st' = WslPath.pathCache st) ∧
     (WslPath.tryDirectPathMapping windowsPath = None →
      ∀ stdout, wslpath = Some stdout → result = WslPath.trim stdout) ∧
     (¬ (WslPath.tryDirectPathMapping windowsPath = None ∧ wslpath = None) →
        WslPath.pathCache st' = <[windowsPath := result]> (WslPath.pathCache st))) ∧
  (is_Some (WslPath.pathCache st' !! windowsPath) →
   ∀ wslpath', WslPath.convertToWSLPath_cached wslpath' windowsPath st' = (result, st')).
Proof.
  unfold WslPath.convertToWSLPath_cached.
  destruct (WslPath.pathCache st !! windowsPath) as [cachedPath|] eqn:Hc.
  - split; [by intros ? [= <-]|]. split; [done|].
    intros _ wslpath'. by rewrite Hc.
  - cbv zeta.
    set (st1 := if WslPath.isPreWarmed st then st else WslPath.preWarmWSL st).
    assert (H1 : WslPath.pathCache st1 = WslPath.pathCache st)
      by (unfold st1; by destruct (WslPath.isPreWarmed st)).
    assert (H2 : WslPath.isPreWarmed st1 = true)
      by (unfold st1; by destruct (WslPath.isPreWarmed st) eqn:E).
    destruct (WslPath.tryDirectPathMapping windowsPath) as [directPath|];
      [|destruct wslpath as [stdout|]]; cbv beta iota;
      cbn [WslPath.pathCache WslPath.isPreWarmed]; rewrite ?H1.
    + split; [done|]. split.
      * intros _. split; [done|]. split; [by intros ? [= <-]|]. split; [done|].
        split; [done|]. done.
      * intros _ wslpath'. by rewrite lookup_insert_eq.
    + split; [done|]. split.
      * intros _. split; [done|]. split; [done|]. split; [done|].
        split; [by intros _ ? [= <-]|]. done.
      * intros _ wslpath'. by rewrite lookup_insert_eq.
    + split; [done|]. split.
      * intros _. split; [done|]. split; [done|]. split; [done|].
        split; [done|]. intros H. by destruct H.
      * rewrite Hc. by intros [? ?].
Qed.

(** ** Uploads on disk *)

Section FileHandlerFacts.

Import FileHandler.

Lemma split_go_nonempty sep s : ∀ cur, Text.split_go sep s cur ≠ [].
Proof.
  induction s as [|c s IH]; intros cur; simpl; [done|].
  destruct (Ascii.eqb c sep); [done|apply IH].
Qed.

Lemma last_part_cons (x : string) (l : list string) :
  l ≠ [] → Text.last_part (x :: l) = Text.last_part l.
Proof. destruct l; [done|]. intros _. reflexivity. Qed.

Lemma includes_char_app (a b : string) (c : ascii) :
  JS.includes_char (a +:+ b) c = JS.includes_char a c || JS.includes_char b c.
Proof.
  induction a as [|x a IH]; [done|].
  rewrite append_cons. simpl. rewrite IH. by rewrite orb_assoc.
Qed.

(** No piece of a split holds the separator. *)
Lemma last_part_no_separator sep s : ∀ cur,
  JS.includes_char cur sep = false →
  JS.includes_char (Text.last_part (Text.split_go sep s cur)) sep = false.
Proof.
  induction s as [|c s IH]; intros cur H; simpl; [done|].
  destruct (Ascii.eqb c sep) eqn:E.
  - rewrite last_part_cons by apply split_go_nonempty. by apply IH.
  - apply IH. rewrite includes_char_app, H. simpl. by rewrite E.
Qed.

Lemma last_part_after_separator sep a b : ∀ cur,
  Text.last_part (Text.split_go sep (a +:+ String sep b) cur) =
  Text.last_part (Text.split_go sep b "").
Proof.
  induction a as [|c a IH]; intros cur.
  - rewrite append_nil_l. simpl. rewrite Ascii.eqb_refl.
    by rewrite last_part_cons by apply split_go_nonempty.
  - rewrite append_cons. simpl. destruct (Ascii.eqb c sep).
    + rewrite last_part_cons by apply split_go_nonempty. apply IH.
    + apply IH.
Qed.

Lemma length_append (a b : string) :
  String.length (a +:+ b) = (String.length a + String.length b)%nat.
Proof. induction a as [|c a IH]; [done|]. rewrite append_cons. simpl. by rewrite IH. Qed.

Lemma strip_git_suffix_added (s : string) : strip_git_suffix (s +:+ ".git") = s.
Proof.
  induction s as [|c s IH]; [reflexivity|].
  rewrite append_cons. cbn [strip_git_suffix].
  replace (String.eqb (String c (s +:+ ".git")) ".git") with false; [by rewrite IH|].
  symmetry. apply String.eqb_neq. intros E.
  apply (f_equal String.length) in E. simpl in E.
  rewrite length_append in E. simpl in E. lia.
Qed.

(** A text that ends with a slash does not end with [.git]. *)
Lemma strip_git_suffix_slash (s : string) :
  strip_git_suffix (s +:+ "/") = s +:+ "/".
Proof.
  induction s as [|c s IH]; [reflexivity|].
  rewrite append_cons. cbn [strip_git_suffix].
  replace (String.eqb (String c (s +:+ "/")) ".git") with false; [by rewrite IH|].
  symmetry. apply String.eqb_neq. intros E.
  destruct s as [|a [|a' [|a'' s]]]; try discriminate.
  apply (f_equal String.length) in E. simpl in E.
  rewrite length_append in E. simpl in E. lia.
Qed.

Lemma remove_dotdot_head (s : string) :
  starts_with_dot s = false → starts_with_dot (remove_dotdot s) = false.
Proof.
  destruct s as [|c [|c' s]]; simpl; try done.
  intros H. by rewrite H.
Qed.

Lemma prefix_dotdot (c : ascii) (s : string) :
  String.prefix ".." (String c s) = Ascii.eqb c "." && starts_with_dot s.
Proof.
  destruct c as [[] [] [] [] [] [] [] []]; try reflexivity.
  destruct s as [|c' s]; [reflexivity|].
  destruct c' as [[] [] [] [] [] [] [] []]; try reflexivity.
  by destruct s.
Qed.

Lemma includes_dotdot_cons (c : ascii) (s : string) :
  JS.includes (String c s) ".." =
    (Ascii.eqb c "." && starts_with_dot s) || JS.includes s "..".
Proof.
  change (JS.includes (String c s) "..")
    with (String.prefix ".." (String c s) || JS.includes s "..").
  by rewrite prefix_dotdot.
Qed.

Lemma remove_dotdot_cons (c c' : ascii) (s : string) :
  remove_dotdot (String c (String c' s)) =
    if Ascii.eqb c "." && Ascii.eqb c' "." then remove_dotdot s
    else String c (remove_dotdot (String c' s)).
Proof. reflexivity. Qed.

Lemma remove_dotdot_clean_upto (n : nat) : ∀ s,
  (String.length s ≤ n)%nat → JS.includes (remove_dotdot s) ".." = false.
Proof.
  induction n as [|n IH]; intros s Hn.
  - destruct s; [done|]. simpl in Hn. lia.
  - destruct s as [|c [|c' s]]; [done| |].
    + cbn [remove_dotdot]. rewrite includes_dotdot_cons.
      cbn [starts_with_dot]. by rewrite andb_false_r.
    + rewrite remove_dotdot_cons. simpl in Hn.
      destruct (Ascii.eqb c "." && Ascii.eqb c' ".") eqn:E.
      * apply IH. lia.
      * rewrite includes_dotdot_cons. rewrite (IH (String c' s)) by (simpl; lia).
        rewrite orb_false_r.
        destruct (Ascii.eqb c "."); [|done]. cbn [andb] in *.
        apply remove_dotdot_head. exact E.
Qed.

Lemma includes_tail (c : ascii) (s t : string) :
  JS.includes (String c s) t = false → JS.includes s t = false.
Proof. simpl. intros H. by apply orb_false_iff in H as [_ ?]. Qed.

Lemma strip_leading_separators_clean (s t : string) :
  JS.includes s t = false → JS.includes (strip_leading_separators s) t = false.
Proof.
  induction s as [|c s IH]; [done|]. intros H. cbn [strip_leading_separators].
  destruct (_ || _); [|done]. apply IH. by apply includes_tail in H.
Qed.

Lemma strip_leading_separators_head (s : string) (c : ascii) (rest : string) :
  strip_leading_separators s = String c rest → c ≠ "/"%char ∧ c ≠ "\"%char.
Proof.
  induction s as [|x s IH]; [done|]. cbn [strip_leading_separators].
  destruct (Ascii.eqb x "/" || Ascii.eqb x "\") eqn:E; [done|].
  intros [= <- <-]. apply orb_false_iff in E as [E1 E2].
  by apply Ascii.eqb_neq in E1, E2.
Qed.

Lemma Node_nested_ind (P : Node → Prop) :
  (∀ name, P (FileNode name)) →
  (∀ name entries, Forall P entries → P (DirNode name entries)) →
  ∀ entry, P entry.
Proof.
  intros Hf Hd. fix IH 1. intros [name|name entries]; [apply Hf|].
  apply Hd. induction entries as [|e entries IHe]; constructor; [apply IH|apply IHe].
Qed.

Lemma traversed_not_git (name : string) : traversed name = true → String.eqb name ".git" = false.
Proof.
  destruct (String.eqb_spec name ".git") as [->|]; [|done]. by vm_compute.
Qed.

Lemma traverse_node_le join : ∀ entry currentPath,
  (length (traverse_node join currentPath entry) ≤ count_node entry)%nat.
Proof.
  intros entry. induction entry as [name|name entries IH] using Node_nested_ind;
    intros currentPath; [simpl; lia|].
  cbn [traverse_node count_node].
  destruct (traversed name) eqn:E; [|simpl; lia].
  rewrite (traversed_not_git name E).
  induction IH as [|e entries He _ IHe]; [simpl; lia|].
  rewrite length_app. specialize (He (join currentPath name)). lia.
Qed.

End FileHandlerFacts.

(** X25.  The repository name taken from a clone URL is never empty and
    holds no slash.  For a URL that ends in [/<name>.git] it is [<name>],
    and for a URL that ends in a slash it is the default [repository]. *)
Theorem X25_repository_name (url : string) :
  FileHandler.extractRepoName url ≠ "" ∧
  JS.includes_char (FileHandler.extractRepoName url) "/" = false ∧
  (∀ base name, name ≠ "" → JS.includes_char name "/" = false →
     url = base +:+ "/" +:+ name +:+ ".git" →
     FileHandler.extractRepoName url = name) ∧
  (∀ base, url = base +:+ "/" → FileHandler.extractRepoName url = "repository").
Proof.
  unfold FileHandler.extractRepoName. cbv zeta. split; [|split; [|split]].
  - destruct (Text.last_part _) eqn:E; done.
  - destruct (JS.truthy _) eqn:E; [|done].
    by apply last_part_no_separator.
  - intros base name Hne Hns ->.
    replace (base +:+ "/" +:+ name +:+ ".git") with ((base +:+ "/" +:+ name) +:+ ".git")
      by (by rewrite !append_assoc).
    rewrite strip_git_suffix_added. unfold Text.split.
    rewrite append_cons, append_nil_l, last_part_after_separator.
    rewrite split_go_no_separator by done. rewrite append_nil_l.
    unfold Text.last_part. simpl. by destruct name.
  - intros base ->. rewrite strip_git_suffix_slash. unfold Text.split.
    rewrite last_part_after_separator. reflexivity.
Qed.

(** X26.  The path under which an uploaded file is stored holds no [..]
    and does not start with a slash or a backslash, whatever name the
    upload carried. *)
Theorem X26_safe_path_has_no_traversal (relativePath : string) :
  JS.includes (FileHandler.safePath relativePath) ".." = false ∧
  (∀ c rest, FileHandler.safePath relativePath = String c rest →
     c ≠ "/"%char ∧ c ≠ "\"%char).
Proof.
  unfold FileHandler.safePath. split.
  - apply strip_leading_separators_clean.
    by apply (remove_dotdot_clean_upto (String.length relativePath)).
  - intros c rest. apply strip_leading_separators_head.
Qed.

(** X27.  getFileList never lists more files than countFiles counts for
    the same directory: every directory countFiles leaves out, getFileList
    leaves out too. *)
Theorem X27_file_list_within_file_count (join : string → string → string)
    (dirPath : string) (entries : list FileHandler.Node) :
  (length (FileHandler.getFileList join dirPath entries)
   ≤ FileHandler.countFiles entries)%nat.
Proof.
  unfold FileHandler.getFileList, FileHandler.countFiles.
  induction entries as [|e entries IH]; [simpl; lia|].
  rewrite length_app. pose proof (traverse_node_le join e dirPath). lia.
Qed.

(** ** Target ids and fix suggestions *)

Section ShapeFacts.

Import Resolver.

Lemma hex_run_spec (n : nat) : ∀ s r,
  hex_run n s = Some r →
  ∃ pre, s = pre +:+ r ∧ String.length pre = n ∧
         ∀ c, JS.includes_char pre c = true → is_hex c = true.
Proof.
  induction n as [|n IH]; intros s r H; simpl in H.
  - injection H as <-. exists "". done.
  - destruct s as [|x s]; [done|]. destruct (is_hex x) eqn:Hx; [|done].
    destruct (IH s r H) as (pre & -> & Hlen & Hhex).
    exists (String x pre). split; [done|]. split; [simpl; by rewrite Hlen|].
    intros c. simpl. intros [Hc|Hc]%orb_true_iff; [|by apply Hhex].
    apply Ascii.eqb_eq in Hc. by subst.
Qed.

Lemma dash_spec (s r : string) : dash s = Some r → s = String "-" r.
Proof.
  destruct s as [|c s]; [done|].
  destruct c as [[] [] [] [] [] [] [] []]; try discriminate.
  by intros [= ->].
Qed.

(** Every character of a UUID-shaped id is a hexadecimal digit or a
    dash. *)
Lemma uuid_shape (s : string) :
  uuidRegex_test s = true →
  String.length s = 36%nat ∧
  ∀ c, JS.includes_char s c = true → is_hex c = true ∨ c = "-"%char.
Proof.
  unfold uuidRegex_test. cbn [hex_groups].
  destruct (hex_run 8 s) as [r1|] eqn:E1; [|done].
  destruct (dash r1) as [r1'|] eqn:D1; [|done].
  destruct (hex_run 4 r1') as [r2|] eqn:E2; [|done].
  destruct (dash r2) as [r2'|] eqn:D2; [|done].
  destruct (hex_run 4 r2') as [r3|] eqn:E3; [|done].
  destruct (dash r3) as [r3'|] eqn:D3; [|done].
  destruct (hex_run 4 r3') as [r4|] eqn:E4; [|done].
  destruct (dash r4) as [r4'|] eqn:D4; [|done].
  destruct (hex_run 12 r4') as [[|]|] eqn:E5; [|done|done].
  intros _.
  apply hex_run_spec in E1 as (p1 & -> & L1 & H1).
  apply hex_run_spec in E2 as (p2 & -> & L2 & H2).
  apply hex_run_spec in E3 as (p3 & -> & L3 & H3).
  apply hex_run_spec in E4 as (p4 & -> & L4 & H4).
  apply hex_run_spec in E5 as (p5 & -> & L5 & H5).
  apply dash_spec in D1, D2, D3, D4. subst.
  split.
  - repeat (rewrite length_append; cbn [String.length]).
    rewrite L1, L2, L3, L4, L5. reflexivity.
  - intros c. repeat (rewrite includes_char_app; cbn [JS.includes_char]).
    rewrite !orb_true_iff, !Ascii.eqb_eq.
    intuition (subst; auto; discriminate).
Qed.

End ShapeFacts.

Section FixFacts.

Lemma prefix_append (b c : string) : String.prefix b (b +:+ c) = true.
Proof.
  induction b as [|x b IH]; [by destruct c|].
  rewrite append_cons. simpl. by destruct (ascii_dec x x).
Qed.

Lemma includes_of_prefix (t b : string) :
  String.prefix b t = true → JS.includes t b = true.
Proof. intros H. destruct t; cbn [JS.includes]; by rewrite H. Qed.

Lemma includes_append_l (a t b : string) :
  JS.includes t b = true → JS.includes (a +:+ t) b = true.
Proof.
  intros H. induction a as [|x a IH]; [done|].
  rewrite append_cons. cbn [JS.includes]. rewrite IH. apply orb_true_r.
Qed.

(** A text holds each of its pieces. *)
Lemma includes_middle (a b c : string) : JS.includes (a +:+ b +:+ c) b = true.
Proof. apply includes_append_l, includes_of_prefix, prefix_append. Qed.

End FixFacts.

(** X28.  An id of the shape of a UUID has 36 characters, all of them
    hexadecimal digits or dashes: it holds no slash, no backslash and no
    dot.  Unless it is registered or absolute, it resolves to the entry of
    that name directly under the staging root, whether or not the entry
    exists. *)
Theorem X28_uuid_ids_stay_under_staging_root (w : World) (targetId : string) :
  Resolver.uuidRegex_test targetId = true →
  String.length targetId = 36%nat ∧
  Resolver.has_separator targetId = false ∧
  JS.includes_char targetId "." = false ∧
  (mappings w !! targetId = None → path_isAbsolute w targetId = false →
   Resolver.resolveTargetPath w targetId =
     Some (path_join w (Resolver.tempDir w) targetId)).
Proof.
  intros Hu. destruct (uuid_shape targetId Hu) as [Hlen Hchars].
  assert (Hno : ∀ c, Resolver.is_hex c = false → c ≠ "-"%char →
                     JS.includes_char targetId c = false).
  { intros c Hh Hd. destruct (JS.includes_char targetId c) eqn:E; [|done].
    destruct (Hchars c E) as [H|H]; congruence. }
  split; [done|]. split; [|split].
  - unfold Resolver.has_separator. by rewrite !Hno.
  - by apply Hno.
  - intros Hm Ha. unfold Resolver.resolveTargetPath.
    by rewrite (isDirectScan_None w targetId Hm), Ha, Hu.
Qed.

Lemma X28_witness :
  Resolver.has_separator Sample.staged_id = false.
Proof.
  apply (X28_uuid_ids_stay_under_staging_root (Sample.windows_host false)
           Sample.staged_id).
  reflexivity.
Defined.

(** X29.  The fix suggestion of an ODC finding names the dependency file
    and the vulnerability it was built from, and the one of a Trivy
    finding names the package; when Trivy knows a fixed version, the
    suggestion names that version too.  The suggestion of a Semgrep
    finding is never empty. *)
Theorem X29_fix_suggestions_name_their_subject :
  (∀ fileName name : string,
     let suggestion := Fixes.generateODCFix (Some fileName) (Some name) in
     JS.includes suggestion fileName = true ∧ JS.includes suggestion name = true ∧
     JS.includes suggestion "Update" = true) ∧
  (∀ (vuln : Fixes.TrivyPackage) (pkg : string),
     Fixes.PkgName vuln = Some pkg →
     JS.includes (Fixes.generateTrivyFix vuln) pkg = true) ∧
  (∀ (vuln : Fixes.TrivyPackage) (version : string),
     Fixes.FixedVersion vuln = Some version → version ≠ "" →
     JS.includes (Fixes.generateTrivyFix vuln) version = true) ∧
  (∀ result : Fixes.SemgrepRule, Fixes.generateSemgrepFix result ≠ "").
Proof.
  split; [|split; [|split]].
  - intros fileName name. cbv zeta. unfold Fixes.generateODCFix, Fixes.show. simpl default.
    split; [apply includes_middle|]. split.
    + rewrite <- !append_assoc. rewrite append_assoc. apply includes_middle.
    + by destruct fileName.
  - intros vuln pkg Hp. unfold Fixes.generateTrivyFix, Fixes.show. rewrite Hp.
    simpl default. repeat case_match; apply includes_middle.
  - intros vuln version Hv Hne. unfold Fixes.generateTrivyFix, Fixes.show. rewrite Hv.
    simpl default. destruct version; [done|]. cbn [JS.truthy].
    rewrite <- !append_assoc. rewrite (append_assoc _ _ " or later").
    apply includes_middle.
  - intros result. unfold Fixes.generateSemgrepFix. cbv zeta.
    repeat case_match; try done.
    unfold JS.or_else. by destruct (Fixes.metadata_fix result) as [[|]|].
Qed.
